(** * A shallow embedding of [vector.h]: [RawMemory<T>] and [Vector<T>]

    The element type [T] is abstract.  What the container needs to know about
    it is collected in the class [Element]: which of its special member
    functions may throw, what a moved-from object looks like, and the two
    compile-time traits the container branches on.  An element operation that
    throws is taken to leave its operands as they were.

    A block of raw memory is a [list slot]; a slot is either raw or holds a
    constructed object.  [RawMemory] is not copyable in the source, so a block
    has exactly one owner at any time and is modelled as a value stored in its
    owner.  Pointers and iterators into a block are slot indices.

    Quantities of type [size_t] are natural numbers: a live element occupies at
    least one byte and no object exceeds [PTRDIFF_MAX] bytes, hence a count of
    live elements stays below [2^63] and [size_ * 2] cannot wrap.  The one
    product that can wrap is [n * sizeof(T)] in [Allocate], for a count [n]
    chosen by the caller: the block [operator new] then returns is shorter
    than [n] elements, and the class [Allocator] says by how much.

    Every member function is a program in a small monad with state,
    exceptions, a fault outcome (undefined behaviour, a failed [assert]) and a
    log of the element operations it performed. *)

From Stdlib Require Import Arith Bool Lia List.
From stdpp Require Import base list gmap.

Set Default Proof Using "Type".

(** ** Element types *)

Class Element (T : Type) := {
  (** [std::is_nothrow_move_constructible_v<T>] *)
  is_nothrow_move_constructible : bool;
  (** [std::is_copy_constructible_v<T>] *)
  is_copy_constructible : bool;
  (** [T(const T&)] throws when copying from this object *)
  copy_ctor_throws : T -> bool;
  (** [T(T&&)] throws when moving from this object *)
  move_ctor_throws : T -> bool;
  (** [dst = src] throws (first argument the target, second the source) *)
  copy_assign_throws : T -> T -> bool;
  (** [dst = std::move(src)] throws *)
  move_assign_throws : T -> T -> bool;
  (** [T()]: the value-initialised object, [None] when the constructor throws *)
  value_init : option T;
  (** what is left in an object after it has been moved from *)
  moved_from : T -> T;
  (** the trait is sound: a [noexcept] move constructor does not throw *)
  nothrow_move_sound :
    is_nothrow_move_constructible = true -> forall x, move_ctor_throws x = false
}.

(** What [operator new(n * sizeof(T))] does for a request of [n] elements:
    it throws [std::bad_alloc], or it returns a block with room for [slots]
    elements.  The byte count is computed in [size_t]; when it does not wrap
    the block has room for the [n] elements asked for, when it wraps the block
    is shorter. *)
Inductive new_result :=
| NewThrows
| NewBlock (slots : nat).

Class Allocator := {
  operator_new : nat -> new_result;
  operator_new_le : forall n slots, operator_new n = NewBlock slots -> slots <= n
}.

(** the request for [n] elements does not give a block of [n] slots: [operator
    new] throws, or the byte count wrapped *)
Definition alloc_fails `{Allocator} (n : nat) : bool :=
  match operator_new n with
  | NewThrows => true
  | NewBlock slots => negb (slots =? n)
  end.

(** the byte count of the request for [n] elements wrapped: [operator new]
    returned, with a block of fewer than [n] slots *)
Definition wraps `{Allocator} (n : nat) : bool :=
  match operator_new n with
  | NewThrows => false
  | NewBlock slots => negb (slots =? n)
  end.

(** Element types used for the concrete runs: numbers, moved by copying.
    [Plain] never throws; [Obj] throws when the number 13 is copied or
    copy-assigned and its move constructor is not [noexcept]. *)
Definition Plain : Element nat :=
  {| is_nothrow_move_constructible := true;
     is_copy_constructible := true;
     copy_ctor_throws := fun _ => false;
     move_ctor_throws := fun _ => false;
     copy_assign_throws := fun _ _ => false;
     move_assign_throws := fun _ _ => false;
     value_init := Some 0;
     moved_from := fun x => x;
     nothrow_move_sound := fun _ _ => eq_refl |}.

Definition Obj_sound :
  false = true -> forall x : nat, false = false := fun _ _ => eq_refl.

Definition Obj : Element nat :=
  {| is_nothrow_move_constructible := false;
     is_copy_constructible := true;
     copy_ctor_throws := fun x => x =? 13;
     move_ctor_throws := fun _ => false;
     copy_assign_throws := fun _ src => src =? 13;
     move_assign_throws := fun _ _ => false;
     value_init := Some 0;
     moved_from := fun _ => 0;
     nothrow_move_sound := Obj_sound |}.

(** A move-only type whose move constructor throws on 13. *)
Definition MoveOnly_sound :
  false = true -> forall x : nat, (x =? 13) = false :=
  fun H _ => match Bool.diff_false_true H with end.

Definition MoveOnly : Element nat :=
  {| is_nothrow_move_constructible := false;
     is_copy_constructible := false;
     copy_ctor_throws := fun _ => true;
     move_ctor_throws := fun x => x =? 13;
     copy_assign_throws := fun _ _ => true;
     move_assign_throws := fun _ _ => false;
     value_init := Some 0;
     moved_from := fun _ => 0;
     nothrow_move_sound := MoveOnly_sound |}.

(** An allocator that never fails on a machine where no byte count wraps,
    one with room for 4 elements, and one that has nothing left. *)
Definition Unbounded : Allocator.
Proof.
  refine {| operator_new := NewBlock |}.
  intros n slots H. injection H as <-. apply le_n.
Defined.

Definition Room4 : Allocator.
Proof.
  refine {| operator_new := fun n => if 4 <? n then NewThrows else NewBlock n |}.
  intros n slots H. destruct (4 <? n); [discriminate|].
  injection H as <-. apply le_n.
Defined.


(** [operator new(n * sizeof(T))] as line 63 of the source computes it, on a
    machine whose [size_t] has [bits] bits and with memory to spare: the
    product is taken modulo [2 ^ bits], and the block has room for as many
    whole elements as the bytes returned. *)
Definition SizeT (bits sizeof : nat) : Allocator.
Proof.
  refine {| operator_new :=
              fun n => NewBlock ((n * sizeof) mod 2 ^ bits / sizeof) |}.
  intros n slots H. injection H as <-.
  destruct sizeof as [|s]; [apply Nat.le_0_l|].
  apply Nat.Div0.div_le_upper_bound.
  rewrite (Nat.mul_comm (S s) n). apply Nat.Div0.mod_le.
Defined.

(** ** Memory, events and the monad *)

Inductive slot (T : Type) :=
| Raw
| Live (x : T).
Arguments Raw {T}.
Arguments Live {T} x.

Inductive event (T : Type) :=
| EvAllocate (n : nat)
| EvDeallocate (abandoned : list T)
| EvConstruct (x : T)
| EvValueInit (x : T)
| EvCopyCtor (x : T)
| EvMoveCtor (x : T)
| EvCopyAssign (dst src : T)
| EvMoveAssign (dst src : T)
| EvDestroy (x : T).
Arguments EvAllocate {T} n.
Arguments EvDeallocate {T} abandoned.
Arguments EvConstruct {T} x.
Arguments EvValueInit {T} x.
Arguments EvCopyCtor {T} x.
Arguments EvMoveCtor {T} x.
Arguments EvCopyAssign {T} dst src.
Arguments EvMoveAssign {T} dst src.
Arguments EvDestroy {T} x.

Inductive outcome (T S A : Type) :=
| Ok (a : A) (s : S) (log : list (event T))
| Throw (s : S) (log : list (event T))
| Fault.
Arguments Ok {T S A} a s log.
Arguments Throw {T S A} s log.
Arguments Fault {T S A}.

Definition prog (T S A : Type) : Type := S -> outcome T S A.

Definition is_Ok {T S A} (r : outcome T S A) : bool :=
  match r with Ok _ _ _ => true | _ => false end.
Definition is_Throw {T S A} (r : outcome T S A) : bool :=
  match r with Throw _ _ => true | _ => false end.
Definition is_Fault {T S A} (r : outcome T S A) : bool :=
  match r with Fault => true | _ => false end.

Section Monad.
Context {T : Type}.

Definition ret {S A} (a : A) : prog T S A := fun s => Ok a s [].

Definition bind {S A B} (m : prog T S A) (k : A -> prog T S B) : prog T S B :=
  fun s =>
    match m s with
    | Ok a s1 l1 =>
        match k a s1 with
        | Ok b s2 l2 => Ok b s2 (l1 ++ l2)
        | Throw s2 l2 => Throw s2 (l1 ++ l2)
        | Fault => Fault
        end
    | Throw s1 l1 => Throw s1 l1
    | Fault => Fault
    end.

Definition throw {S A} : prog T S A := fun s => Throw s [].
Definition fault {S A} : prog T S A := fun _ => Fault.
Definition get {S} : prog T S S := fun s => Ok s s [].
Definition put {S} (s : S) : prog T S unit := fun _ => Ok tt s [].
Definition emit {S} (e : event T) : prog T S unit := fun s => Ok tt s [e].

(** [assert(c)] *)
Definition assert {S} (c : bool) : prog T S unit :=
  if c then ret tt else fault.

(** Run a program on a part of the state. *)
Definition zoom {S S' A} (rd : S -> S') (wr : S' -> S -> S)
    (m : prog T S' A) : prog T S A :=
  fun s =>
    match m (rd s) with
    | Ok a s' l => Ok a (wr s' s) l
    | Throw s' l => Throw (wr s' s) l
    | Fault => Fault
    end.

(** [try { m } catch (...) { h; throw; }]; the handler must not throw. *)
Definition on_throw {S A} (m : prog T S A) (h : prog T S unit) : prog T S A :=
  fun s =>
    match m s with
    | Throw s1 l1 =>
        match h s1 with
        | Ok _ s2 l2 => Throw s2 (l1 ++ l2)
        | _ => Fault
        end
    | r => r
    end.

(** A block scope with one local object: the object is created by [init],
    [body] runs on the pair of the local and the enclosing state, and the
    local's destructor [dtor] runs on every exit.  Destructors are
    [noexcept]. *)
Definition scoped {L S A} (init : prog T S L) (dtor : prog T L unit)
    (body : prog T (L * S) A) : prog T S A :=
  fun s =>
    match init s with
    | Ok l0 s0 l =>
        match body (l0, s0) with
        | Ok a (l1, s1) lb =>
            match dtor l1 with
            | Ok _ _ ld => Ok a s1 (l ++ lb ++ ld)
            | _ => Fault
            end
        | Throw (l1, s1) lb =>
            match dtor l1 with
            | Ok _ _ ld => Throw s1 (l ++ lb ++ ld)
            | _ => Fault
            end
        | Fault => Fault
        end
    | Throw s0 l => Throw s0 l
    | Fault => Fault
    end.
End Monad.

Notation "'let*' x ':=' m 'in' k" := (bind m (fun x => k))
  (at level 10, x pattern, m at level 100, k at level 200).
Notation "m '>>' k" := (bind m (fun _ => k))
  (at level 100, k at level 200, right associativity).

(** ** Slots, element operations and the standard algorithms *)

Section Algorithms.
Context {T : Type} `{!Element T}.

Local Abbreviation block := (list (slot T)).

(** read the object in slot [i] *)
Definition load (i : nat) : prog T block T :=
  fun b => match b !! i with Some (Live x) => Ok x b [] | _ => Fault end.

(** give the object in slot [i] a new value *)
Definition store (i : nat) (x : T) : prog T block unit :=
  fun b =>
    match b !! i with
    | Some (Live _) => Ok tt (<[i := Live x]> b) []
    | _ => Fault
    end.

(** placement [new]: start the lifetime of an object in the raw slot [i] *)
Definition place (i : nat) (x : T) : prog T block unit :=
  fun b =>
    match b !! i with
    | Some Raw => Ok tt (<[i := Live x]> b) []
    | _ => Fault
    end.

(** [std::destroy_at(p)]; also [p->~T()] *)
Definition destroy_at (i : nat) : prog T block unit :=
  fun b =>
    match b !! i with
    | Some (Live x) => Ok tt (<[i := Raw]> b) [EvDestroy x]
    | _ => Fault
    end.

(** [T(x)] for [const T& x] *)
Definition copy_construct {S} (x : T) : prog T S T :=
  if copy_ctor_throws x then throw else emit (EvCopyCtor x) >> ret x.

(** [T(std::move(obj))] for [obj] the object in slot [i] *)
Definition move_construct_from (i : nat) : prog T block T :=
  let* x := load i in
  if move_ctor_throws x then throw
  else store i (moved_from x) >> emit (EvMoveCtor x) >> ret x.

(** move assignment from slot [s] to slot [d] of one block *)
Definition move_assign_slot (s d : nat) : prog T block unit :=
  let* x := load s in
  let* y := load d in
  if move_assign_throws y x then throw
  else store d x >> store s (moved_from x) >> emit (EvMoveAssign y x).

Definition on_src {A} (m : prog T block A) : prog T (block * block) A :=
  zoom fst (fun b s => (b, snd s)) m.
Definition on_dst {A} (m : prog T block A) : prog T (block * block) A :=
  zoom snd (fun b s => (fst s, b)) m.

(** [std::destroy_n(first, n)] *)
Fixpoint destroy_n (first n : nat) : prog T block unit :=
  match n with
  | 0 => ret tt
  | S n' => destroy_at first >> destroy_n (S first) n'
  end.

(** [std::uninitialized_copy_n(first, n, d_first)]; the state is the pair
    of the source block and the destination block, and [cur] is the next
    slot to construct in.  When a copy throws, the objects constructed so
    far, in the slots from [d_first] up to [cur], are destroyed and the
    exception goes on.  The standard leaves the order of these destructions
    open; they are taken first to last. *)
Fixpoint uninitialized_copy_loop (first n d_first cur : nat)
    : prog T (block * block) unit :=
  match n with
  | 0 => ret tt
  | S n' =>
      let* x := on_src (load first) in
      let* y := on_throw (copy_construct x)
                  (on_dst (destroy_n d_first (cur - d_first))) in
      on_dst (place cur y) >>
      uninitialized_copy_loop (S first) n' d_first (S cur)
  end.

Definition uninitialized_copy_n (first n d_first : nat)
    : prog T (block * block) unit :=
  uninitialized_copy_loop first n d_first d_first.

(** [std::uninitialized_move_n(first, n, d_first)] *)
Fixpoint uninitialized_move_loop (first n d_first cur : nat)
    : prog T (block * block) unit :=
  match n with
  | 0 => ret tt
  | S n' =>
      let* y := on_throw (on_src (move_construct_from first))
                  (on_dst (destroy_n d_first (cur - d_first))) in
      on_dst (place cur y) >>
      uninitialized_move_loop (S first) n' d_first (S cur)
  end.

Definition uninitialized_move_n (first n d_first : nat)
    : prog T (block * block) unit :=
  uninitialized_move_loop first n d_first d_first.

(** [std::uninitialized_value_construct_n(first, n)] *)
Fixpoint uninitialized_value_construct_n (first n : nat) : prog T block unit :=
  match n with
  | 0 => ret tt
  | S n' =>
      match value_init with
      | None => throw
      | Some x =>
          place first x >> emit (EvValueInit x) >>
          on_throw (uninitialized_value_construct_n (S first) n')
                   (destroy_at first)
      end
  end.

(** [std::move(first, last, d_first)] on one block, front to back *)
Fixpoint std_move_loop (first d_first n : nat) : prog T block unit :=
  match n with
  | 0 => ret tt
  | S n' => move_assign_slot first d_first >>
            std_move_loop (S first) (S d_first) n'
  end.

Definition std_move (first last d_first : nat) : prog T block unit :=
  if first <=? last then std_move_loop first d_first (last - first) else fault.

(** [std::move_backward(first, last, d_last)] on one block, back to front;
    a destination range that would start before the block is a fault *)
Fixpoint move_backward_loop (last d_last n : nat) : prog T block unit :=
  match n with
  | 0 => ret tt
  | S n' => move_assign_slot (last - 1) (d_last - 1) >>
            move_backward_loop (last - 1) (d_last - 1) n'
  end.

Definition std_move_backward (first last d_last : nat) : prog T block unit :=
  if (first <=? last) && (last - first <=? d_last)
  then move_backward_loop last d_last (last - first)
  else fault.
End Algorithms.

(** ** [RawMemory<T>] *)

Record RawMemory (T : Type) := {
  buffer_ : list (slot T);
  capacity_ : nat
}.
Arguments buffer_ {T} _.
Arguments capacity_ {T} _.

Record Vector (T : Type) := {
  data_ : RawMemory T;
  size_ : nat
}.
Arguments data_ {T} _.
Arguments size_ {T} _.

Section Container.
Context {T : Type} `{!Element T} `{!Allocator}.

Local Abbreviation block := (list (slot T)).

Definition set_buffer (b : block) (m : RawMemory T) : RawMemory T :=
  {| buffer_ := b; capacity_ := capacity_ m |}.
Definition set_data (d : RawMemory T) (v : Vector T) : Vector T :=
  {| data_ := d; size_ := size_ v |}.
Definition set_size (n : nat) (v : Vector T) : Vector T :=
  {| data_ := data_ v; size_ := n |}.

(** the objects still constructed in a block *)
Fixpoint live_objects (b : block) : list T :=
  match b with
  | [] => []
  | Raw :: b' => live_objects b'
  | Live x :: b' => x :: live_objects b'
  end.

(** [RawMemory() = default]: [buffer_ = nullptr], [capacity_ = 0] *)
Definition RawMemory_default : RawMemory T :=
  {| buffer_ := []; capacity_ := 0 |}.

(** [Allocate(n)]: [nullptr] for [n = 0], otherwise what
    [operator new(n * sizeof(T))] returns, a block that is shorter than [n]
    elements when the product wrapped *)
Definition Allocate {S} (n : nat) : prog T S block :=
  if n =? 0 then ret []
  else match operator_new n with
       | NewThrows => throw
       | NewBlock slots => emit (EvAllocate n) >> ret (replicate slots Raw)
       end.

(** [Deallocate(buf)]: [operator delete]; the log records the objects that
    were never destroyed *)
Definition Deallocate {S} (buf : block) : prog T S unit :=
  emit (EvDeallocate (live_objects buf)).

(** [explicit RawMemory(size_t capacity)] *)
Definition RawMemory_ctor {S} (capacity : nat) : prog T S (RawMemory T) :=
  let* b := Allocate capacity in
  ret {| buffer_ := b; capacity_ := capacity |}.

(** [~RawMemory()] *)
Definition RawMemory_dtor : prog T (RawMemory T) unit :=
  let* m := get in Deallocate (buffer_ m).

(** [operator+(offset)]: the address of slot [offset], one past the end
    allowed *)
Definition RawMemory_plus {S} (m : RawMemory T) (offset : nat) : prog T S nat :=
  assert (offset <=? capacity_ m) >> ret offset.

(** [operator[](index)]: a reference to slot [index] *)
Definition RawMemory_at {S} (m : RawMemory T) (index : nat) : prog T S nat :=
  assert (index <? capacity_ m) >> ret index.

(** [RawMemory::Swap(other)] on the pair ([*this], [other]) *)
Definition RawMemory_Swap : prog T (RawMemory T * RawMemory T) unit :=
  let* s := get in
  put ({| buffer_ := buffer_ s.2; capacity_ := capacity_ s.2 |},
       {| buffer_ := buffer_ s.1; capacity_ := capacity_ s.1 |}).

(** [GetAddress()]: the first slot *)
Definition GetAddress (m : RawMemory T) : nat := 0.

Definition RawMemory_Capacity (m : RawMemory T) : nat := capacity_ m.

(** ** [Vector<T>] *)

Definition Size (v : Vector T) : nat := size_ v.
Definition Capacity (v : Vector T) : nat := RawMemory_Capacity (data_ v).

(** [begin()], [end()], [cbegin()], [cend()] as slot indices *)
Definition begin_ (v : Vector T) : nat := GetAddress (data_ v).
Definition end_ (v : Vector T) : nat := GetAddress (data_ v) + size_ v.

(** [p - k] on pointers and [a - b] on [size_t]: going below the start of
    the block, or a count that wraps around, sends what follows outside the
    block *)
Definition minus_checked {S} (a b : nat) : prog T S nat :=
  if b <=? a then ret (a - b) else fault.

Definition modify {S} (f : S -> S) : prog T S unit :=
  let* s := get in put (f s).

(** the block of [data_] inside a vector *)
Definition in_data {A} (m : prog T block A) : prog T (Vector T) A :=
  zoom (fun v => buffer_ (data_ v))
       (fun b v => set_data (set_buffer b (data_ v)) v) m.

(** a frame with a local object next to [*this] *)
Definition in_this {L A} (m : prog T (Vector T) A) : prog T (L * Vector T) A :=
  zoom snd (fun v s => (s.1, v)) m.
Definition in_new_data {S A} (m : prog T block A) : prog T (RawMemory T * S) A :=
  zoom (fun s => buffer_ s.1) (fun b s => (set_buffer b s.1, s.2)) m.

(** the pair (block of [data_], block of [new_data]) *)
Definition old_to_new {A} (m : prog T (block * block) A)
    : prog T (RawMemory T * Vector T) A :=
  zoom (fun s => (buffer_ (data_ s.2), buffer_ s.1))
       (fun bb s => (set_buffer bb.2 s.1,
                     set_data (set_buffer bb.1 (data_ s.2)) s.2)) m.

(** [data_.Swap(new_data)] *)
Definition swap_new_data : prog T (RawMemory T * Vector T) unit :=
  zoom (fun s => (data_ s.2, s.1))
       (fun dd s => (dd.2, set_data dd.1 s.2)) RawMemory_Swap.

(** [Vector() = default] *)
Definition Vector_default : Vector T :=
  {| data_ := RawMemory_default; size_ := 0 |}.

(** [~Vector()], followed by the destructor of the member [data_] *)
Definition Vector_dtor : prog T (Vector T) unit :=
  let* v := get in
  in_data (destroy_n (GetAddress (data_ v)) (size_ v)) >>
  zoom data_ set_data RawMemory_dtor.

(** A constructor body running on the member [data_]; when it throws, the
    member is destroyed and no object comes into being. *)
Definition constructing {S} (init : prog T S (RawMemory T))
    (body : prog T (RawMemory T) nat) : prog T S (Vector T) :=
  let* d := init in
  fun s =>
    match body d with
    | Ok n d' l => Ok {| data_ := d'; size_ := n |} s l
    | Throw d' l =>
        match RawMemory_dtor d' with
        | Ok _ _ ld => Throw s (l ++ ld)
        | _ => Fault
        end
    | Fault => Fault
    end.

(** [explicit Vector(size_t size)] *)
Definition Vector_sized {S} (size : nat) : prog T S (Vector T) :=
  constructing (RawMemory_ctor size)
    (zoom buffer_ set_buffer (uninitialized_value_construct_n 0 size) >>
     ret size).

(** [Vector(const Vector& other)] *)
Definition Vector_copy {S} (other : Vector T) : prog T S (Vector T) :=
  constructing (RawMemory_ctor (size_ other))
    (zoom (fun d => (buffer_ (data_ other), buffer_ d))
          (fun bb d => set_buffer bb.2 d)
          (uninitialized_copy_n (GetAddress (data_ other)) (size_ other) 0) >>
     ret (size_ other)).

(** [Vector::Swap(other)] on the pair ([*this], [other]) of two objects *)
Definition Swap : prog T (Vector T * Vector T) unit :=
  zoom (fun s => (data_ s.1, data_ s.2))
       (fun dd s => (set_data dd.1 s.1, set_data dd.2 s.2)) RawMemory_Swap >>
  let* s := get in
  put (set_size (size_ s.2) s.1, set_size (size_ s.1) s.2).

(** [Vector(Vector&& other) noexcept]; the state is [other] *)
Definition Vector_move : prog T (Vector T) (Vector T) :=
  fun other =>
    match Swap (Vector_default, other) with
    | Ok _ (this, other') l => Ok this other' l
    | _ => Fault
    end.

(** Constructor arguments [Args&&... args] of [T(args...)]: independent of
    the container and producing [x]; a constructor that throws; or a
    [const T&] naming the object in slot [i] of this container, from which
    the new object is copy-constructed at the moment [T(args...)] runs. *)
Inductive ctor_args :=
| ByValue (x : T)
| Throwing
| RefToSlot (i : nat).

(** [T(std::forward<Args>(args)...)], evaluated against the block of
    [data_] *)
Definition construct (args : ctor_args) : prog T block T :=
  match args with
  | ByValue x => emit (EvConstruct x) >> ret x
  | Throwing => throw
  | RefToSlot i => let* x := load i in copy_construct x
  end.

(** [std::is_nothrow_move_constructible_v<T> || !std::is_copy_constructible_v<T>] *)
Definition relocate_by_move : bool :=
  is_nothrow_move_constructible || negb is_copy_constructible.

(** [void Reserve(size_t new_capacity)] *)
Definition Reserve (new_capacity : nat) : prog T (Vector T) unit :=
  let* v := get in
  if new_capacity <=? RawMemory_Capacity (data_ v) then ret tt
  else
    scoped (RawMemory_ctor new_capacity) RawMemory_dtor
      ((if relocate_by_move
        then old_to_new (uninitialized_move_n (GetAddress (data_ v)) (size_ v) 0)
        else old_to_new (uninitialized_copy_n (GetAddress (data_ v)) (size_ v) 0)) >>
       in_this (in_data (destroy_n (GetAddress (data_ v)) (size_ v))) >>
       swap_new_data).

(** [void Resize(size_t new_size)] *)
Definition Resize (new_size : nat) : prog T (Vector T) unit :=
  Reserve new_size >>
  let* v := get in
  (if size_ v <? new_size
   then in_data (uninitialized_value_construct_n
                   (GetAddress (data_ v) + size_ v) (new_size - Size v))
   else ret tt) >>
  (if new_size <? size_ v
   then in_data (destroy_n (GetAddress (data_ v) + new_size) (size_ v - new_size))
   else ret tt) >>
  modify (set_size new_size).

(** [T& EmplaceBack(Args&&... args)]; the reference returned is the index
    of the slot it names *)
Definition EmplaceBack (args : ctor_args) : prog T (Vector T) nat :=
  let* v := get in
  (if size_ v =? Capacity v then
     scoped (RawMemory_ctor (if Capacity v =? 0 then 1 else size_ v * 2))
            RawMemory_dtor
       (let* f := get in
        let* p := RawMemory_plus f.1 (size_ v) in
        let* x := in_this (in_data (construct args)) in
        in_new_data (place p x) >>
        (if relocate_by_move
         then old_to_new (uninitialized_move_n (GetAddress (data_ v)) (size_ v) 0)
         else old_to_new (uninitialized_copy_n (GetAddress (data_ v)) (size_ v) 0)) >>
        in_this (in_data (destroy_n (GetAddress (data_ v)) (size_ v))) >>
        swap_new_data)
   else
     let* p := RawMemory_plus (data_ v) (size_ v) in
     let* x := in_data (construct args) in
     in_data (place p x)) >>
  modify (fun v => set_size (size_ v + 1) v) >>
  let* v := get in
  minus_checked (GetAddress (data_ v) + size_ v) 1.

(** [void PushBack(F&& value)] *)
Definition PushBack (value : ctor_args) : prog T (Vector T) unit :=
  EmplaceBack value >> ret tt.

(** [void PopBack()] *)
Definition PopBack : prog T (Vector T) unit :=
  let* v := get in
  let* p := minus_checked (GetAddress (data_ v) + size_ v) 1 in
  in_data (destroy_at p) >>
  modify (fun v => set_size (size_ v - 1) v).

(** [data_[index] = T(args...)]: the temporary is built, move-assigned to
    the slot and destroyed at the end of the statement *)
Definition assign_temporary (args : ctor_args) (v : Vector T) (index : nat)
    : prog T (Vector T) unit :=
  let* x := in_data (construct args) in
  on_throw
    (let* j := RawMemory_at (data_ v) index in
     in_data (let* y := load j in
              if move_assign_throws y x then throw
              else store j x >> emit (EvMoveAssign y x)) >>
     emit (EvDestroy (moved_from x)))
    (emit (EvDestroy x)).

(** [iterator EmplaceEnoughtCapacity(size_t index, Args&&... args)] *)
Definition EmplaceEnoughtCapacity (index : nat) (args : ctor_args)
    : prog T (Vector T) nat :=
  let* v := get in
  let* l := minus_checked (size_ v) 1 in
  let* i := RawMemory_at (data_ v) l in
  let* x := in_data (move_construct_from i) in
  in_data (place (GetAddress (data_ v) + size_ v) x) >>
  let* e := minus_checked (end_ v) 1 in
  in_data (std_move_backward (GetAddress (data_ v) + index) e (end_ v)) >>
  assign_temporary args v index >>
  modify (fun v => set_size (size_ v + 1) v) >>
  ret (GetAddress (data_ v) + index).

(** [iterator EmplaceNoCapacity(size_t index, Args&&... args)] *)
Definition EmplaceNoCapacity (index : nat) (args : ctor_args)
    : prog T (Vector T) nat :=
  let* v := get in
  scoped (RawMemory_ctor (if Capacity v =? 0 then 1 else size_ v * 2))
         RawMemory_dtor
    ((if relocate_by_move then
        let* x := in_this (in_data (construct args)) in
        in_new_data (place (0 + index) x) >>
        old_to_new (uninitialized_move_n (begin_ v) index 0) >>
        let* n := minus_checked (size_ v) index in
        old_to_new (uninitialized_move_n (begin_ v + index) n (0 + index + 1))
      else
        let* x := in_this (in_data (construct args)) in
        in_new_data (place (0 + index) x) >>
        old_to_new (uninitialized_copy_n (begin_ v) index 0) >>
        let* n := minus_checked (size_ v) index in
        old_to_new (uninitialized_copy_n (begin_ v + index) n (0 + index + 1))) >>
     in_this (in_data (destroy_n (GetAddress (data_ v)) (size_ v))) >>
     swap_new_data) >>
  modify (fun v => set_size (size_ v + 1) v) >>
  ret (GetAddress (data_ v) + index).

(** [iterator Emplace(const_iterator position, Args&&... args)] *)
Definition Emplace (position : nat) (args : ctor_args) : prog T (Vector T) nat :=
  let* v := get in
  if position =? end_ v then
    EmplaceBack args >>
    let* v' := get in
    minus_checked (end_ v') 1
  else
    let* index := minus_checked position (begin_ v) in
    if size_ v <? Capacity v then EmplaceEnoughtCapacity index args
    else EmplaceNoCapacity index args.

(** [iterator Insert(const_iterator position, const T& value)] and
    [iterator Insert(const_iterator position, T&& value)] *)
Definition Insert (position : nat) (value : ctor_args) : prog T (Vector T) nat :=
  Emplace position value.

(** [iterator Erase(const_iterator position)] *)
Definition Erase (position : nat) : prog T (Vector T) nat :=
  let* v := get in
  let* distance := minus_checked position (begin_ v) in
  in_data (std_move (begin_ v + distance + 1) (end_ v) (begin_ v + distance)) >>
  let* p := minus_checked (GetAddress (data_ v) + size_ v) 1 in
  in_data (destroy_at p) >>
  modify (fun v => set_size (size_ v - 1) v) >>
  ret (GetAddress (data_ v) + distance).

(** [static void Destroy(T* buf) noexcept] *)
Definition Destroy (buf : nat) : prog T block unit := destroy_at buf.

(** [static void DestroyN(T* buf, size_t n) noexcept] *)
Fixpoint DestroyN_loop (buf i n : nat) : prog T block unit :=
  match n with
  | 0 => ret tt
  | S n' => Destroy (buf + i) >> DestroyN_loop buf (S i) n'
  end.
Definition DestroyN (buf n : nat) : prog T block unit := DestroyN_loop buf 0 n.

(** [static void CopyConstruct(T* buf, const T& elem)] *)
Definition CopyConstruct (buf : nat) (elem : T) : prog T block unit :=
  let* x := copy_construct elem in place buf x.

(** [T& operator[](size_t index)]: the slot named, and the object read
    through the reference *)
Definition subscript (index : nat) : prog T (Vector T) nat :=
  let* v := get in
  assert (index <? size_ v) >>
  RawMemory_at (data_ v) index.

Definition element (index : nat) : prog T (Vector T) T :=
  let* i := subscript index in in_data (load i).
End Container.

(** ** Assignment between objects

    The assignment operators compare the addresses of their operands, so the
    vectors live in a store indexed by address. *)

Section Objects.
Context {T : Type} `{!Element T} `{!Allocator}.

Local Abbreviation block := (list (slot T)).
Local Abbreviation objects := (gmap nat (Vector T)).

(** run a program on two distinct objects of the store *)
Definition at2 {A} (a b : nat) (m : prog T (Vector T * Vector T) A)
    : prog T objects A :=
  fun st =>
    match st !! a, st !! b with
    | Some va, Some vb =>
        match m (va, vb) with
        | Ok r s l => Ok r (<[b := s.2]> (<[a := s.1]> st)) l
        | Throw s l => Throw (<[b := s.2]> (<[a := s.1]> st)) l
        | Fault => Fault
        end
    | _, _ => Fault
    end.

(** the object at an address must exist *)
Definition object_at (a : nat) : prog T objects (Vector T) :=
  fun st => match st !! a with Some v => Ok v st [] | None => Fault end.

(** the pair (block of [rhs.data_], block of [data_]) in the pair
    ([*this], [rhs]) *)
Definition rhs_to_this {A} (m : prog T (block * block) A)
    : prog T (Vector T * Vector T) A :=
  zoom (fun s => (buffer_ (data_ s.2), buffer_ (data_ s.1)))
       (fun bb s => (set_data (set_buffer bb.2 (data_ s.1)) s.1,
                     set_data (set_buffer bb.1 (data_ s.2)) s.2)) m.

(** [for (size_t i = 0; i < n; ++i) data_[i] = rhs.data_[i];] *)
Fixpoint assign_loop (this rhs : Vector T) (i n : nat)
    : prog T (block * block) unit :=
  match n with
  | 0 => ret tt
  | S n' =>
      let* j := RawMemory_at (data_ rhs) i in
      let* k := RawMemory_at (data_ this) i in
      let* x := on_src (load j) in
      let* y := on_dst (load k) in
      (if copy_assign_throws y x then throw
       else on_dst (store k x) >> emit (EvCopyAssign y x)) >>
      assign_loop this rhs (S i) n'
  end.

(** the body of [operator=(const Vector& rhs)] for [this != &rhs], on the
    pair ([*this], [rhs]) *)
Definition copy_assign_body : prog T (Vector T * Vector T) unit :=
  let* s := get in
  let this := s.1 in
  let rhs := s.2 in
  if RawMemory_Capacity (data_ this) <? size_ rhs then
    scoped (Vector_copy rhs) Vector_dtor
      (zoom (fun f => (f.2.1, f.1)) (fun p f => (p.2, (p.1, f.2.2))) Swap)
  else
    rhs_to_this (assign_loop this rhs 0 (Nat.min (size_ rhs) (size_ this))) >>
    (if size_ rhs <? size_ this
     then zoom fst (fun v s => (v, s.2))
            (in_data (destroy_n (GetAddress (data_ this) + size_ rhs)
                                (size_ this - size_ rhs)))
     else rhs_to_this
            (uninitialized_copy_n (GetAddress (data_ rhs) + size_ this)
               (size_ rhs - size_ this) (GetAddress (data_ this) + size_ this))) >>
    modify (fun s => (set_size (size_ rhs) s.1, s.2)).

(** [Vector& operator=(const Vector& rhs)] with [this] and [&rhs] given *)
Definition copy_assign (this rhs : nat) : prog T objects unit :=
  if decide (this = rhs) then object_at this >> ret tt
  else at2 this rhs copy_assign_body.

(** [Vector& operator=(Vector&& rhs) noexcept] *)
Definition move_assign (this rhs : nat) : prog T objects unit :=
  if decide (this = rhs) then object_at this >> ret tt
  else at2 this rhs Swap.

(** [Vector(Vector&& other)] creating a new object at the free address
    [this] *)
Definition move_construct (this other : nat) : prog T objects unit :=
  fun st =>
    match st !! this, st !! other with
    | None, Some vo =>
        match Vector_move vo with
        | Ok vt vo' l => Ok tt (<[this := vt]> (<[other := vo']> st)) l
        | _ => Fault
        end
    | _, _ => Fault
    end.

(** a member function called on the object at an address *)
Definition call {A} (this : nat) (m : prog T (Vector T) A) : prog T objects A :=
  fun st =>
    match st !! this with
    | Some v =>
        match m v with
        | Ok r v' l => Ok r (<[this := v']> st) l
        | Throw v' l => Throw (<[this := v']> st) l
        | Fault => Fault
        end
    | None => Fault
    end.
End Objects.

(** ** Vocabulary of the specification *)

Section Vocabulary.
Context {T : Type} `{!Element T}.

(** the vector holding the objects [xs] in a block of [cap] slots *)
Definition vec (xs : list T) (cap : nat) : Vector T :=
  {| data_ := {| buffer_ := (Live <$> xs) ++ replicate (cap - length xs) Raw;
                 capacity_ := cap |};
     size_ := length xs |}.

(** the same with a block of [slots] slots behind a [capacity_] of [cap]:
    what a vector is when the block it was given is shorter than asked *)
Definition vec_in (xs : list T) (slots cap : nat) : Vector T :=
  {| data_ := {| buffer_ := (Live <$> xs) ++ replicate (slots - length xs) Raw;
                 capacity_ := cap |};
     size_ := length xs |}.

(** the elements of a vector, first to last *)
Definition contents (v : Vector T) : list T :=
  live_objects (take (size_ v) (buffer_ (data_ v))).

Definition is_live (s : slot T) : bool :=
  match s with Live _ => true | Raw => false end.
Definition is_raw (s : slot T) : bool :=
  match s with Live _ => false | Raw => true end.

(** [size_ <= capacity_], the block has [capacity_] slots, the first [size_]
    of them hold objects and the others are raw *)
Definition invariant (v : Vector T) : bool :=
  (size_ v <=? capacity_ (data_ v)) &&
  (length (buffer_ (data_ v)) =? capacity_ (data_ v)) &&
  forallb is_live (take (size_ v) (buffer_ (data_ v))) &&
  forallb is_raw (drop (size_ v) (buffer_ (data_ v))).

(** the objects handled before the first one on which [throws] holds *)
Fixpoint before_throw (throws : T -> bool) (xs : list T) : list T :=
  match xs with
  | [] => []
  | x :: xs' => if throws x then [] else x :: before_throw throws xs'
  end.

Definition none_throws (throws : T -> bool) (xs : list T) : bool :=
  forallb (fun x => negb (throws x)) xs.

(** a range of objects after an attempt to move all of them away *)
Fixpoint after_moves (xs : list T) : list T :=
  match xs with
  | [] => []
  | x :: xs' =>
      if move_ctor_throws x then x :: xs' else moved_from x :: after_moves xs'
  end.

(** the relocation of [xs] to a new block as the container performs it:
    whether it goes through, what it logs, and what it leaves in the old
    block *)
Definition relocation_ok (xs : list T) : bool :=
  if relocate_by_move then none_throws move_ctor_throws xs
  else none_throws copy_ctor_throws xs.

Definition relocation_log (xs : list T) : list (event T) :=
  if relocate_by_move then EvMoveCtor <$> xs else EvCopyCtor <$> xs.

Definition relocation_undo_log (xs : list T) : list (event T) :=
  if relocate_by_move
  then (EvMoveCtor <$> before_throw move_ctor_throws xs) ++
       (EvDestroy <$> before_throw move_ctor_throws xs)
  else (EvCopyCtor <$> before_throw copy_ctor_throws xs) ++
       (EvDestroy <$> before_throw copy_ctor_throws xs).

(** how many elements a relocation of [xs] constructs in the new block
    before it stops *)
Definition relocated_count (xs : list T) : nat :=
  if relocate_by_move then length (before_throw move_ctor_throws xs)
  else length (before_throw copy_ctor_throws xs).

Definition relocated_from (xs : list T) : list T :=
  if relocate_by_move then after_moves xs else xs.

(** A run of move assignments in which every source becomes the next
    target, as in [std::move] towards the front and [std::move_backward]
    towards the back: [t] is the first target and [ys] the sources in the
    order they are visited.  Whether it goes through, what it logs, and the
    object left in the last source. *)
Fixpoint shift_ok (t : T) (ys : list T) : bool :=
  match ys with
  | [] => true
  | y :: ys' => negb (move_assign_throws t y) && shift_ok (moved_from y) ys'
  end.

Fixpoint shift_log (t : T) (ys : list T) : list (event T) :=
  match ys with
  | [] => []
  | y :: ys' => EvMoveAssign t y :: shift_log (moved_from y) ys'
  end.

Fixpoint shift_last (t : T) (ys : list T) : T :=
  match ys with
  | [] => t
  | y :: ys' => shift_last (moved_from y) ys'
  end.

(** the block of a vector [pre ++ suf ++ [z]] with [k] more raw slots, once
    the in-place insertion before [suf] has opened the gap: this is the block
    the constructor arguments are evaluated against *)
Definition gap_block (pre suf : list T) (z : T) (k : nat) : list (slot T) :=
  (Live <$> pre) ++ Live (shift_last (moved_from z) (reverse suf)) ::
  (Live <$> suf) ++ Live z :: replicate k Raw.

(** the elements [Resize(n)] leaves when it returns: the first [n] of [xs],
    filled up with value-initialised objects *)
Definition resized (xs : list T) (n : nat) : list T :=
  take n xs ++
  match value_init with
  | Some x => replicate (n - length xs) x
  | None => []
  end.

(** an exit of a member function that leaves a vector satisfying the
    invariant: a return or an exception, not a fault *)
Definition safe_exit {A} (r : outcome T (Vector T) A) : bool :=
  match r with
  | Ok _ v _ => invariant v
  | Throw v _ => invariant v
  | Fault => false
  end.

(** the constructor arguments name an element of the vector, if they name a
    slot at all *)
Definition args_valid (args : @ctor_args T) (v : Vector T) : bool :=
  match args with
  | RefToSlot i => i <? size_ v
  | _ => true
  end.

(** [Capacity() == 0 ? 1 : size_ * 2] *)
Definition grown (size capacity : nat) : nat :=
  if capacity =? 0 then 1 else size * 2.

(** what the specification says a relocation of [xs] does, in its order:
    moves followed by the destruction of the moved-from originals when the
    move cannot fail or there is no copy, copies followed by the destruction
    of the untouched originals otherwise *)
Definition spec_relocation_events (xs : list T) : list (event T) :=
  if is_nothrow_move_constructible || negb is_copy_constructible
  then (EvMoveCtor <$> xs) ++ (EvDestroy <$> (moved_from <$> xs))
  else (EvCopyCtor <$> xs) ++ (EvDestroy <$> xs).

(** what acquiring a block of [n] slots logs: [Allocate] does not call
    [operator new] for [n = 0] *)
Definition allocation_log (n : nat) : list (event T) :=
  if n =? 0 then [] else [EvAllocate n].

(** the number of blocks a log records as acquired *)
Fixpoint allocations (log : list (event T)) : nat :=
  match log with
  | [] => 0
  | EvAllocate _ :: log' => S (allocations log')
  | _ :: log' => allocations log'
  end.

(** the objects a log records as still constructed in a block when the
    block was released: their destructors never run *)
Fixpoint abandoned (log : list (event T)) : list T :=
  match log with
  | [] => []
  | EvDeallocate xs :: log' => xs ++ abandoned log'
  | _ :: log' => abandoned log'
  end.

(** A run of copy assignments [xs[i] = ys[i]] over two ranges, first to
    last, stopping at the first one that throws: whether it goes through,
    what it logs, and what the targets hold afterwards. *)
Fixpoint assign_ok (xs ys : list T) : bool :=
  match xs, ys with
  | x :: xs', y :: ys' => negb (copy_assign_throws x y) && assign_ok xs' ys'
  | _, _ => true
  end.

Fixpoint assign_log (xs ys : list T) : list (event T) :=
  match xs, ys with
  | x :: xs', y :: ys' =>
      if copy_assign_throws x y then []
      else EvCopyAssign x y :: assign_log xs' ys'
  | _, _ => []
  end.

Fixpoint assigned (xs ys : list T) : list T :=
  match xs, ys with
  | x :: xs', y :: ys' =>
      if copy_assign_throws x y then x :: xs' else y :: assigned xs' ys'
  | _, _ => xs
  end.
End Vocabulary.

Section Runs.
Context {T : Type} `{!Element T} `{!Allocator}.

(** [PushBack(y)] for every [y] of a list, first to last *)
Fixpoint PushBack_all (ys : list T) : prog T (Vector T) unit :=
  match ys with
  | [] => ret tt
  | y :: ys' => PushBack (ByValue y) >> PushBack_all ys'
  end.

(** the capacity after each of the appends of [ys]; [None] when one of them
    does not return *)
Fixpoint append_capacities (ys : list T) (v : Vector T) : option (list nat) :=
  match ys with
  | [] => Some []
  | y :: ys' =>
      match PushBack (ByValue y) v with
      | Ok _ v' _ =>
          match append_capacities ys' v' with
          | Some cs => Some (Capacity v' :: cs)
          | None => None
          end
      | _ => None
      end
  end.
End Runs.

(** * Properties *)

(** ** The slot operations on a block split around the slot *)

(** rewrite with an instance of a lemma stated for a slot in the middle of a
    block, after computing the lengths and appends of its closed parts *)
Ltac rew lem :=
  let R := fresh "R" in
  pose proof lem as R; cbn [length app] in R; rewrite R; clear R.

Ltac norm_state :=
  unfold set_data, set_buffer, set_size, begin_, end_, GetAddress;
  cbn [data_ buffer_ capacity_ size_ fst snd Nat.add].

Ltac norm_log := rewrite ?app_nil_r, <- ?app_assoc; cbn [app].

Ltac len :=
  rewrite ?length_app, ?length_fmap, ?length_replicate, ?length_app,
    ?length_take, ?length_drop;
  cbn [length]; lia.

Section BlockLemmas.
Context {T : Type} `{!Element T} `{!Allocator}.

Local Abbreviation block := (list (slot T)).

Lemma insert_middle (pre post : block) (x y : slot T) :
  <[length pre := y]> (pre ++ x :: post) = pre ++ y :: post.
Proof.
  rewrite <- (Nat.add_0_r (length pre)). by rewrite insert_app_r.
Qed.

Lemma load_middle (pre post : block) x :
  load (length pre) (pre ++ Live x :: post) = Ok x (pre ++ Live x :: post) [].
Proof. unfold load. by rewrite list_lookup_middle. Qed.

Lemma store_middle (pre post : block) x y :
  store (length pre) y (pre ++ Live x :: post) = Ok tt (pre ++ Live y :: post) [].
Proof. unfold store. by rewrite list_lookup_middle, insert_middle. Qed.

Lemma place_middle (pre post : block) y :
  place (length pre) y (pre ++ Raw :: post) = Ok tt (pre ++ Live y :: post) [].
Proof. unfold place. by rewrite list_lookup_middle, insert_middle. Qed.

Lemma place_at (pre post : block) y i :
  i = length pre ->
  place i y (pre ++ Raw :: post) = Ok tt (pre ++ Live y :: post) [].
Proof. intros ->. apply place_middle. Qed.

Lemma destroy_at_middle (pre post : block) x :
  destroy_at (length pre) (pre ++ Live x :: post)
  = Ok tt (pre ++ Raw :: post) [EvDestroy x].
Proof. unfold destroy_at. by rewrite list_lookup_middle, insert_middle. Qed.

Lemma snoc_middle {A} (pre post : list A) x :
  pre ++ x :: post = (pre ++ [x]) ++ post.
Proof. by rewrite <- app_assoc. Qed.

Lemma length_snoc {A} (pre : list A) x : length (pre ++ [x]) = S (length pre).
Proof. rewrite length_app. simpl. lia. Qed.

Lemma destroy_n_spec (pre post : block) xs :
  destroy_n (length pre) (length xs) (pre ++ (Live <$> xs) ++ post)
  = Ok tt (pre ++ replicate (length xs) Raw ++ post) (EvDestroy <$> xs).
Proof.
  revert pre. induction xs as [|x xs IH]; intros pre; [done|].
  simpl. unfold bind. rewrite destroy_at_middle.
  rewrite (snoc_middle pre), <- (length_snoc pre Raw), IH.
  by rewrite <- app_assoc.
Qed.


Lemma after_moves_length xs : length (after_moves xs) = length xs.
Proof.
  induction xs as [|x xs IH]; [done|]. simpl.
  destruct (move_ctor_throws x); simpl; congruence.
Qed.

Lemma after_moves_ok xs :
  none_throws move_ctor_throws xs = true -> after_moves xs = moved_from <$> xs.
Proof.
  induction xs as [|x xs IH]; [done|]. simpl. intros [Hx Hxs]%andb_prop.
  apply negb_true_iff in Hx. rewrite Hx. by rewrite IH.
Qed.

Lemma before_throw_ok (f : T -> bool) xs :
  none_throws f xs = true -> before_throw f xs = xs.
Proof.
  induction xs as [|x xs IH]; [done|]. cbn [none_throws forallb before_throw].
  intros [Hx Hxs]%andb_prop. apply negb_true_iff in Hx. rewrite Hx.
  f_equal. by apply IH.
Qed.

Lemma before_throw_length (f : T -> bool) xs :
  none_throws f xs = false -> length (before_throw f xs) < length xs.
Proof.
  induction xs as [|x xs IH]; [done|]. cbn [none_throws forallb before_throw].
  destruct (f x); cbn [negb andb length]; [lia|].
  intros Hxs. apply IH in Hxs. lia.
Qed.

(** The copy loop with [done] already constructed and [k] raw slots to go.
    When the raw slots are too few they are the end of the block. *)
Lemma uninitialized_copy_loop_spec (spre spost dpre dpost : block) done xs k :
  (k < length xs -> dpost = []) ->
  uninitialized_copy_loop (length spre) (length xs) (length dpre)
    (length dpre + length done)
    (spre ++ (Live <$> xs) ++ spost,
     dpre ++ (Live <$> done) ++ replicate k Raw ++ dpost)
  = if none_throws copy_ctor_throws xs then
      if length xs <=? k
      then Ok tt (spre ++ (Live <$> xs) ++ spost,
                  dpre ++ (Live <$> done ++ xs) ++
                  replicate (k - length xs) Raw ++ dpost)
             (EvCopyCtor <$> xs)
      else Fault
    else if length (before_throw copy_ctor_throws xs) <=? k
    then Throw (spre ++ (Live <$> xs) ++ spost,
                dpre ++ replicate (length done + k) Raw ++ dpost)
           ((EvCopyCtor <$> before_throw copy_ctor_throws xs) ++
            (EvDestroy <$> done ++ before_throw copy_ctor_throws xs))
    else Fault.
Proof.
  revert spre done k. induction xs as [|x xs IH]; intros spre done k Hend.
  { cbn. by rewrite !app_nil_r, Nat.sub_0_r. }
  cbn [uninitialized_copy_loop length fmap list_fmap app
       none_throws forallb before_throw].
  unfold bind at 1, on_src at 1, zoom at 1. cbn [fst snd].
  rewrite load_middle.
  unfold bind at 1, on_throw at 1, copy_construct at 1.
  destruct (copy_ctor_throws x) eqn:Hx.
  { cbn [negb andb length]. unfold throw, on_dst, zoom. cbn [fst snd].
    replace (length dpre + length done - length dpre) with (length done) by lia.
    rewrite destroy_n_spec. cbn [app fmap list_fmap]. rewrite app_nil_r.
    by rewrite (app_assoc (replicate _ _)), <- replicate_add. }
  cbn [negb andb]. fold (none_throws copy_ctor_throws xs).
  unfold bind at 1, emit, ret. cbn [app].
  unfold bind at 1, on_dst at 1, zoom at 1. cbn [fst snd].
  destruct k as [|k].
  { rewrite (Hend ltac:(cbn [length]; lia)). cbn [replicate app].
    unfold place. rewrite app_nil_r.
    rewrite lookup_ge_None_2 by len.
    cbn [length]. by destruct (none_throws copy_ctor_throws xs). }
  cbn [replicate app].
  rewrite (app_assoc dpre), (place_at (dpre ++ (Live <$> done))) by len.
  rewrite <- (app_assoc dpre).
  replace ((Live <$> done) ++ Live x :: replicate k Raw ++ dpost)
    with ((Live <$> done ++ [x]) ++ replicate k Raw ++ dpost)
    by (by rewrite fmap_app, <- app_assoc).
  rewrite (snoc_middle spre).
  pose proof (IH (spre ++ [Live x]) (done ++ [x]) k) as IH'.
  rewrite !length_snoc in IH'.
  replace (S (length dpre + length done)) with (length dpre + S (length done)) by lia.
  rewrite IH' by (intros; apply Hend; cbn [length]; lia). clear IH'.
  cbn [length Nat.leb].
  destruct (none_throws copy_ctor_throws xs).
  - destruct (length xs <=? k); [|done].
    cbn [app Nat.sub]. by rewrite <- !app_assoc.
  - destruct (length (before_throw copy_ctor_throws xs) <=? k); [|done].
    cbn [app fmap list_fmap]. rewrite <- !app_assoc. cbn [app].
    by replace (S (length done) + k) with (length done + S k) by lia.
Qed.

Lemma uninitialized_copy_n_spec (spre spost dpre dpost : block) xs :
  uninitialized_copy_n (length spre) (length xs) (length dpre)
    (spre ++ (Live <$> xs) ++ spost, dpre ++ replicate (length xs) Raw ++ dpost)
  = if none_throws copy_ctor_throws xs
    then Ok tt (spre ++ (Live <$> xs) ++ spost, dpre ++ (Live <$> xs) ++ dpost)
            (EvCopyCtor <$> xs)
    else Throw (spre ++ (Live <$> xs) ++ spost,
                dpre ++ replicate (length xs) Raw ++ dpost)
            ((EvCopyCtor <$> before_throw copy_ctor_throws xs) ++
             (EvDestroy <$> before_throw copy_ctor_throws xs)).
Proof.
  unfold uninitialized_copy_n.
  pose proof (uninitialized_copy_loop_spec spre spost dpre dpost [] xs (length xs))
    as Hloop.
  cbn [length fmap list_fmap app] in Hloop. rewrite Nat.add_0_r in Hloop.
  rewrite Hloop by lia. clear Hloop.
  rewrite Nat.leb_refl, Nat.sub_diag. cbn [replicate app].
  destruct (none_throws copy_ctor_throws xs) eqn:Hok; [done|].
  by replace (length (before_throw copy_ctor_throws xs) <=? length xs) with true
    by (symmetry; apply Nat.leb_le; apply before_throw_length in Hok; lia).
Qed.

(** the same when the destination is the end of a block that is too short *)
Lemma uninitialized_copy_n_short (spre spost dpre : block) xs k :
  k < length xs ->
  uninitialized_copy_n (length spre) (length xs) (length dpre)
    (spre ++ (Live <$> xs) ++ spost, dpre ++ replicate k Raw)
  = if negb (none_throws copy_ctor_throws xs) &&
       (length (before_throw copy_ctor_throws xs) <=? k)
    then Throw (spre ++ (Live <$> xs) ++ spost, dpre ++ replicate k Raw)
           ((EvCopyCtor <$> before_throw copy_ctor_throws xs) ++
            (EvDestroy <$> before_throw copy_ctor_throws xs))
    else Fault.
Proof.
  intros Hk. unfold uninitialized_copy_n.
  pose proof (uninitialized_copy_loop_spec spre spost dpre [] [] xs k) as Hloop.
  cbn [length fmap list_fmap app] in Hloop.
  rewrite Nat.add_0_r, !app_nil_r in Hloop.
  rewrite Hloop by done. clear Hloop.
  replace (length xs <=? k) with false by (symmetry; apply Nat.leb_gt; lia).
  by destruct (none_throws copy_ctor_throws xs).
Qed.

Lemma uninitialized_move_loop_spec (spre spost dpre dpost : block) done xs k :
  (k < length xs -> dpost = []) ->
  uninitialized_move_loop (length spre) (length xs) (length dpre)
    (length dpre + length done)
    (spre ++ (Live <$> xs) ++ spost,
     dpre ++ (Live <$> done) ++ replicate k Raw ++ dpost)
  = if none_throws move_ctor_throws xs then
      if length xs <=? k
      then Ok tt (spre ++ (Live <$> after_moves xs) ++ spost,
                  dpre ++ (Live <$> done ++ xs) ++
                  replicate (k - length xs) Raw ++ dpost)
             (EvMoveCtor <$> xs)
      else Fault
    else if length (before_throw move_ctor_throws xs) <=? k
    then Throw (spre ++ (Live <$> after_moves xs) ++ spost,
                dpre ++ replicate (length done + k) Raw ++ dpost)
           ((EvMoveCtor <$> before_throw move_ctor_throws xs) ++
            (EvDestroy <$> done ++ before_throw move_ctor_throws xs))
    else Fault.
Proof.
  revert spre done k. induction xs as [|x xs IH]; intros spre done k Hend.
  { cbn. by rewrite !app_nil_r, Nat.sub_0_r. }
  cbn [uninitialized_move_loop length fmap list_fmap app
       none_throws forallb before_throw after_moves].
  unfold bind at 1, on_throw at 1, on_src at 1, zoom at 1. cbn [fst snd].
  unfold move_construct_from, bind at 1. rewrite load_middle.
  destruct (move_ctor_throws x) eqn:Hx.
  { cbn [negb andb length]. unfold throw, on_dst, zoom. cbn [fst snd].
    replace (length dpre + length done - length dpre) with (length done) by lia.
    rewrite destroy_n_spec. cbn [app fmap list_fmap]. rewrite app_nil_r.
    by rewrite (app_assoc (replicate _ _)), <- replicate_add. }
  cbn [negb andb]. fold (none_throws move_ctor_throws xs).
  unfold bind at 1. rewrite store_middle.
  unfold bind at 1, emit, ret. cbn [app fst snd].
  unfold bind at 1, on_dst at 1, zoom at 1. cbn [fst snd].
  destruct k as [|k].
  { rewrite (Hend ltac:(cbn [length]; lia)). cbn [replicate app].
    unfold place. rewrite app_nil_r.
    rewrite lookup_ge_None_2 by len.
    cbn [length]. by destruct (none_throws move_ctor_throws xs). }
  cbn [replicate app].
  rewrite (app_assoc dpre), (place_at (dpre ++ (Live <$> done))) by len.
  rewrite <- (app_assoc dpre).
  replace ((Live <$> done) ++ Live x :: replicate k Raw ++ dpost)
    with ((Live <$> done ++ [x]) ++ replicate k Raw ++ dpost)
    by (by rewrite fmap_app, <- app_assoc).
  rewrite (snoc_middle spre).
  pose proof (IH (spre ++ [Live (moved_from x)]) (done ++ [x]) k) as IH'.
  rewrite !length_snoc in IH'.
  replace (S (length dpre + length done)) with (length dpre + S (length done)) by lia.
  rewrite IH' by (intros; apply Hend; cbn [length]; lia). clear IH'.
  cbn [length Nat.leb].
  destruct (none_throws move_ctor_throws xs).
  - destruct (length xs <=? k); [|done].
    cbn [app Nat.sub]. by rewrite <- !app_assoc.
  - destruct (length (before_throw move_ctor_throws xs) <=? k); [|done].
    cbn [app fmap list_fmap]. rewrite <- !app_assoc. cbn [app].
    by replace (S (length done) + k) with (length done + S k) by lia.
Qed.

Lemma uninitialized_move_n_spec (spre spost dpre dpost : block) xs :
  uninitialized_move_n (length spre) (length xs) (length dpre)
    (spre ++ (Live <$> xs) ++ spost, dpre ++ replicate (length xs) Raw ++ dpost)
  = if none_throws move_ctor_throws xs
    then Ok tt (spre ++ (Live <$> after_moves xs) ++ spost,
                dpre ++ (Live <$> xs) ++ dpost)
            (EvMoveCtor <$> xs)
    else Throw (spre ++ (Live <$> after_moves xs) ++ spost,
                dpre ++ replicate (length xs) Raw ++ dpost)
            ((EvMoveCtor <$> before_throw move_ctor_throws xs) ++
             (EvDestroy <$> before_throw move_ctor_throws xs)).
Proof.
  unfold uninitialized_move_n.
  pose proof (uninitialized_move_loop_spec spre spost dpre dpost [] xs (length xs))
    as Hloop.
  cbn [length fmap list_fmap app] in Hloop. rewrite Nat.add_0_r in Hloop.
  rewrite Hloop by lia. clear Hloop.
  rewrite Nat.leb_refl, Nat.sub_diag. cbn [replicate app].
  destruct (none_throws move_ctor_throws xs) eqn:Hok; [done|].
  by replace (length (before_throw move_ctor_throws xs) <=? length xs) with true
    by (symmetry; apply Nat.leb_le; apply before_throw_length in Hok; lia).
Qed.

Lemma uninitialized_move_n_short (spre spost dpre : block) xs k :
  k < length xs ->
  uninitialized_move_n (length spre) (length xs) (length dpre)
    (spre ++ (Live <$> xs) ++ spost, dpre ++ replicate k Raw)
  = if negb (none_throws move_ctor_throws xs) &&
       (length (before_throw move_ctor_throws xs) <=? k)
    then Throw (spre ++ (Live <$> after_moves xs) ++ spost, dpre ++ replicate k Raw)
           ((EvMoveCtor <$> before_throw move_ctor_throws xs) ++
            (EvDestroy <$> before_throw move_ctor_throws xs))
    else Fault.
Proof.
  intros Hk. unfold uninitialized_move_n.
  pose proof (uninitialized_move_loop_spec spre spost dpre [] [] xs k) as Hloop.
  cbn [length fmap list_fmap app] in Hloop.
  rewrite Nat.add_0_r, !app_nil_r in Hloop.
  rewrite Hloop by done. clear Hloop.
  replace (length xs <=? k) with false by (symmetry; apply Nat.leb_gt; lia).
  by destruct (none_throws move_ctor_throws xs).
Qed.

Lemma destroy_n_at (pre post : block) xs n :
  n = length xs ->
  destroy_n (length pre) n (pre ++ (Live <$> xs) ++ post)
  = Ok tt (pre ++ replicate n Raw ++ post) (EvDestroy <$> xs).
Proof. intros ->. apply destroy_n_spec. Qed.

Lemma live_objects_app (a b : block) :
  live_objects (a ++ b) = live_objects a ++ live_objects b.
Proof.
  induction a as [|[|x] a IH]; simpl; [done|done|]. by rewrite IH.
Qed.

Lemma live_objects_raw n : live_objects (replicate n (@Raw T)) = [].
Proof. by induction n. Qed.

Lemma live_objects_live (xs : list T) : live_objects (Live <$> xs) = xs.
Proof. induction xs as [|x xs IH]; [done|]. simpl. f_equal. apply IH. Qed.

Lemma relocated_from_length xs : length (relocated_from xs) = length xs.
Proof.
  unfold relocated_from. destruct relocate_by_move; [|done].
  apply after_moves_length.
Qed.

Lemma relocate_spec (spre spost dpre dpost : block) xs c C n :
  (if relocate_by_move
   then old_to_new (uninitialized_move_n (length spre) (length xs) (length dpre))
   else old_to_new (uninitialized_copy_n (length spre) (length xs) (length dpre)))
    ({| buffer_ := dpre ++ replicate (length xs) Raw ++ dpost; capacity_ := C |},
     {| data_ := {| buffer_ := spre ++ (Live <$> xs) ++ spost; capacity_ := c |};
        size_ := n |})
  = if relocation_ok xs
    then Ok tt
           ({| buffer_ := dpre ++ (Live <$> xs) ++ dpost; capacity_ := C |},
            {| data_ := {| buffer_ := spre ++ (Live <$> relocated_from xs) ++ spost;
                           capacity_ := c |};
               size_ := n |})
           (relocation_log xs)
    else Throw
           ({| buffer_ := dpre ++ replicate (length xs) Raw ++ dpost;
               capacity_ := C |},
            {| data_ := {| buffer_ := spre ++ (Live <$> relocated_from xs) ++ spost;
                           capacity_ := c |};
               size_ := n |})
           (relocation_undo_log xs).
Proof.
  unfold relocation_ok, relocated_from, relocation_log, relocation_undo_log.
  destruct relocate_by_move; unfold old_to_new, zoom; cbn [fst snd data_ buffer_].
  - rewrite uninitialized_move_n_spec.
    by destruct (none_throws move_ctor_throws xs).
  - rewrite uninitialized_copy_n_spec.
    by destruct (none_throws copy_ctor_throws xs).
Qed.

(** the same when the destination is the end of a block that is too short *)
Lemma relocate_short (spre spost dpre : block) xs k c C n :
  k < length xs ->
  (if relocate_by_move
   then old_to_new (uninitialized_move_n (length spre) (length xs) (length dpre))
   else old_to_new (uninitialized_copy_n (length spre) (length xs) (length dpre)))
    ({| buffer_ := dpre ++ replicate k Raw; capacity_ := C |},
     {| data_ := {| buffer_ := spre ++ (Live <$> xs) ++ spost; capacity_ := c |};
        size_ := n |})
  = if negb (relocation_ok xs) && (relocated_count xs <=? k)
    then Throw
           ({| buffer_ := dpre ++ replicate k Raw; capacity_ := C |},
            {| data_ := {| buffer_ := spre ++ (Live <$> relocated_from xs) ++ spost;
                           capacity_ := c |};
               size_ := n |})
           (relocation_undo_log xs)
    else Fault.
Proof.
  intros Hk.
  unfold relocation_ok, relocated_from, relocation_undo_log, relocated_count.
  destruct relocate_by_move; unfold old_to_new, zoom; cbn [fst snd data_ buffer_].
  - rewrite uninitialized_move_n_short by done.
    by destruct (negb _ && _).
  - rewrite uninitialized_copy_n_short by done.
    by destruct (negb _ && _).
Qed.

Lemma wraps_alloc_fails n :
  wraps n = false ->
  alloc_fails n = match operator_new n with NewThrows => true | NewBlock _ => false end
  /\ forall k, operator_new n = NewBlock k -> k = n.
Proof.
  unfold wraps, alloc_fails. destruct (operator_new n) as [|k]; [done|].
  intros Hk. split; [done|]. intros k' [= <-].
  apply negb_false_iff in Hk. by apply Nat.eqb_eq.
Qed.

Lemma alloc_fails_wraps n : alloc_fails n = false -> wraps n = false.
Proof. unfold wraps, alloc_fails. by destruct (operator_new n). Qed.

Lemma alloc_fails_block n : alloc_fails n = false -> operator_new n = NewBlock n.
Proof.
  unfold alloc_fails. destruct (operator_new n) as [|k]; [done|].
  intros Hk. apply negb_false_iff in Hk. by apply Nat.eqb_eq in Hk as ->.
Qed.

Lemma wraps_block n :
  wraps n = true -> exists k, operator_new n = NewBlock k /\ k < n.
Proof.
  unfold wraps. destruct (operator_new n) as [|k] eqn:Hnew; [done|].
  intros Hk%negb_true_iff%Nat.eqb_neq. exists k. split; [done|].
  apply operator_new_le in Hnew. lia.
Qed.

Lemma vec_in_vec (xs : list T) cap : vec_in xs cap cap = vec xs cap.
Proof. done. Qed.

(** [Reserve] within the capacity *)
Lemma Reserve_no_op (v : Vector T) n :
  n <= Capacity v -> Reserve n v = Ok tt v [].
Proof.
  intros Hn. unfold Reserve, bind at 1, get.
  unfold Capacity in Hn.
  by replace (n <=? RawMemory_Capacity (data_ v)) with true
    by (symmetry; by apply Nat.leb_le).
Qed.

Lemma Reserve_within (xs : list T) cap n :
  n <= cap -> Reserve n (vec xs cap) = Ok tt (vec xs cap) [].
Proof. intros Hn. by apply Reserve_no_op. Qed.

(** [Reserve] beyond the capacity when the allocation throws, and when it
    returns a block of [k] slots *)
Lemma Reserve_throws xs cap n :
  cap < n -> operator_new n = NewThrows ->
  Reserve n (vec xs cap) = Throw (vec xs cap) [].
Proof.
  intros Hn Hnew. unfold Reserve, bind at 1, get.
  cbn [vec data_ capacity_ RawMemory_Capacity size_].
  replace (n <=? cap) with false by (symmetry; by apply Nat.leb_gt).
  unfold scoped, RawMemory_ctor, bind at 1, Allocate.
  replace (n =? 0) with false by (symmetry; apply Nat.eqb_neq; lia).
  by rewrite Hnew.
Qed.

Lemma Reserve_block xs cap n k :
  length xs <= cap -> cap < n -> operator_new n = NewBlock k ->
  Reserve n (vec xs cap)
  = if relocation_ok xs then
      if length xs <=? k
      then Ok tt (vec_in xs k n)
             (EvAllocate n :: relocation_log xs ++
              (EvDestroy <$> relocated_from xs) ++ [EvDeallocate []])
      else Fault
    else if (length xs <=? k) || (relocated_count xs <=? k)
    then Throw (vec (relocated_from xs) cap)
           (EvAllocate n :: relocation_undo_log xs ++ [EvDeallocate []])
    else Fault.
Proof.
  intros Hle Hn Hnew. unfold Reserve, bind at 1, get.
  cbn [vec data_ capacity_ RawMemory_Capacity size_].
  replace (n <=? cap) with false by (symmetry; by apply Nat.leb_gt).
  unfold scoped, RawMemory_ctor, bind at 1, Allocate.
  replace (n =? 0) with false by (symmetry; apply Nat.eqb_neq; lia).
  rewrite Hnew. cbn.
  change (GetAddress _) with 0.
  unfold bind at 1, vec at 1.
  destruct (length xs <=? k) eqn:Hk.
  - apply Nat.leb_le in Hk.
    replace (replicate k (@Raw T))
      with (replicate (length xs) (@Raw T) ++ replicate (k - length xs) Raw)
      by (rewrite <- replicate_add; f_equal; lia).
    rew (relocate_spec [] (replicate (cap - length xs) Raw) []
               (replicate (k - length xs) Raw) xs cap n (length xs)).
    destruct (relocation_ok xs) eqn:Hok.
    + unfold bind at 1, in_this at 1, zoom at 1, in_data at 1, zoom at 1.
      cbn [fst snd data_ buffer_ app size_].
      rew (destroy_n_at [] (replicate (cap - length xs) Raw) (relocated_from xs)
             (length xs) (eq_sym (relocated_from_length xs))).
      cbn. rewrite !live_objects_app, !live_objects_raw. by norm_log.
    + cbn. rewrite live_objects_app, !live_objects_raw.
      unfold vec. by rewrite relocated_from_length.
  - apply Nat.leb_gt in Hk.
    rew (relocate_short [] (replicate (cap - length xs) Raw) [] xs k cap n
           (length xs) Hk).
    destruct (relocation_ok xs) eqn:Hok; [done|]. cbn [negb andb orb].
    destruct (relocated_count xs <=? k); [|done].
    cbn. rewrite !live_objects_raw.
    unfold vec. by rewrite relocated_from_length.
Qed.

Lemma Reserve_spec xs cap n :
  length xs <= cap -> wraps n = false ->
  Reserve n (vec xs cap)
  = if n <=? cap then Ok tt (vec xs cap) []
    else if alloc_fails n then Throw (vec xs cap) []
    else if relocation_ok xs
    then Ok tt (vec xs n)
           (EvAllocate n :: relocation_log xs ++
            (EvDestroy <$> relocated_from xs) ++ [EvDeallocate []])
    else Throw (vec (relocated_from xs) cap)
           (EvAllocate n :: relocation_undo_log xs ++ [EvDeallocate []]).
Proof.
  intros Hle [Hf Hk]%wraps_alloc_fails.
  destruct (n <=? cap) eqn:Hn.
  { unfold Reserve, bind at 1, get.
    cbn [vec data_ capacity_ RawMemory_Capacity size_]. by rewrite Hn. }
  apply Nat.leb_gt in Hn. rewrite Hf.
  destruct (operator_new n) as [|k] eqn:Hnew; [by apply Reserve_throws|].
  rewrite (Reserve_block xs cap n k) by done.
  rewrite (Hk k eq_refl).
  replace (length xs <=? n) with true by (symmetry; apply Nat.leb_le; lia).
  by destruct (relocation_ok xs).
Qed.

Lemma load_live (xs : list T) (post : block) i x :
  xs !! i = Some x ->
  load i ((Live <$> xs) ++ post) = Ok x ((Live <$> xs) ++ post) [].
Proof.
  intros Hx. unfold load.
  by rewrite (lookup_app_l_Some _ _ _ (Live x)); [|rewrite list_lookup_fmap, Hx].
Qed.

Lemma load_not_live (xs : list T) k i :
  xs !! i = None ->
  load i ((Live <$> xs) ++ replicate k Raw) = Fault.
Proof.
  intros Hx. unfold load. apply lookup_ge_None in Hx.
  rewrite lookup_app_r by (rewrite length_fmap; lia).
  destruct (replicate k Raw !! _) as [s|] eqn:Hs; [|done].
  by apply lookup_replicate in Hs as [-> _].
Qed.

Lemma construct_state args (b : block) :
  construct args b
  = match construct args b with
    | Ok x _ l => Ok x b l
    | Throw _ l => Throw b l
    | Fault => Fault
    end.
Proof.
  destruct args as [x| |i]; cbn; [done|done|].
  unfold bind, load. destruct (b !! i) as [[|y]|]; [done| |done].
  unfold copy_construct. destruct (copy_ctor_throws y); done.
Qed.

Lemma vec_eq (xs : list T) (b : block) cap k n :
  b = (Live <$> xs) ++ replicate k Raw -> cap = length xs + k -> n = length xs ->
  {| data_ := {| buffer_ := b; capacity_ := cap |}; size_ := n |} = vec xs cap.
Proof.
  intros -> -> ->. unfold vec.
  by replace (length xs + k - length xs) with k by lia.
Qed.

Lemma replicate_S_sub n : 0 < n -> replicate n (@Raw T) = Raw :: replicate (n - 1) Raw.
Proof. destruct n; [lia|]. intros _. simpl. by rewrite Nat.sub_0_r. Qed.

Lemma place_new_data {S} (pre post : block) x i C (s : S) :
  i = length pre ->
  in_new_data (place i x) ({| buffer_ := pre ++ Raw :: post; capacity_ := C |}, s)
  = Ok tt ({| buffer_ := pre ++ Live x :: post; capacity_ := C |}, s) [].
Proof.
  intros ->. unfold in_new_data, zoom. cbn [fst snd buffer_].
  by rewrite place_middle.
Qed.

Lemma destroy_old (pre post : block) xs k c n (nd : RawMemory T) :
  k = length xs ->
  in_this (in_data (destroy_n (length pre) k))
    (nd, {| data_ := {| buffer_ := pre ++ (Live <$> xs) ++ post; capacity_ := c |};
            size_ := n |})
  = Ok tt
      (nd, {| data_ := {| buffer_ := pre ++ replicate k Raw ++ post; capacity_ := c |};
              size_ := n |})
      (EvDestroy <$> xs).
Proof.
  intros ->. unfold in_this, in_data, zoom. cbn [fst snd data_ buffer_].
  by rewrite destroy_n_spec.
Qed.

Lemma replicate_split n k :
  k <= n -> replicate n (@Raw T) = replicate k Raw ++ replicate (n - k) Raw.
Proof. intros. rewrite <- replicate_add. f_equal. lia. Qed.

Lemma minus_checked_ok {S} a b (s : S) :
  b <= a -> @minus_checked T S a b s = Ok (a - b) s [].
Proof.
  intros Hb. unfold minus_checked.
  by replace (b <=? a) with true by (symmetry; by apply Nat.leb_le).
Qed.

Lemma vec_snoc (xs : list T) x n :
  vec (xs ++ [x]) n
  = {| data_ := {| buffer_ := (Live <$> xs) ++ Live x :: replicate (n - length xs - 1) Raw;
                   capacity_ := n |};
       size_ := length xs + 1 |}.
Proof.
  unfold vec. rewrite fmap_app, length_app, <- app_assoc. cbn [length fmap list_fmap app].
  by rewrite Nat.sub_add_distr.
Qed.

Lemma vec_in_snoc (xs : list T) x k n :
  vec_in (xs ++ [x]) k n
  = {| data_ := {| buffer_ := (Live <$> xs) ++ Live x :: replicate (k - length xs - 1) Raw;
                   capacity_ := n |};
       size_ := length xs + 1 |}.
Proof.
  unfold vec_in. rewrite fmap_app, length_app, <- app_assoc.
  cbn [length fmap list_fmap app]. by rewrite Nat.sub_add_distr.
Qed.

Lemma grown_more (size : nat) : size < grown size size.
Proof.
  unfold grown. destruct (size =? 0) eqn:H0;
    [apply Nat.eqb_eq in H0|apply Nat.eqb_neq in H0]; lia.
Qed.

(** an append with room in the block *)
Lemma EmplaceBack_room args xs cap :
  length xs < cap ->
  EmplaceBack args (vec xs cap)
  = match construct args (buffer_ (data_ (vec xs cap))) with
    | Ok x _ lc => Ok (length xs) (vec (xs ++ [x]) cap) lc
    | Throw _ lc => Throw (vec xs cap) lc
    | Fault => Fault
    end.
Proof.
  intros Hle. unfold EmplaceBack, bind at 1, get.
  cbn [vec data_ capacity_ Capacity RawMemory_Capacity size_ buffer_].
  replace (length xs =? cap) with false by (symmetry; apply Nat.eqb_neq; lia).
  unfold bind at 1. unfold bind at 1, RawMemory_plus, assert.
  cbn [capacity_].
  replace (length xs <=? cap) with true by (symmetry; apply Nat.leb_le; lia).
  unfold bind at 1, ret. cbn [app].
  unfold bind at 1, in_data at 1, zoom at 1. norm_state.
  rewrite construct_state.
  destruct (construct args _) as [x _b lc|_b lc|]; [| |done].
  + rewrite vec_snoc. unfold vec. norm_state.
    rewrite (replicate_S_sub (cap - length xs)) by lia.
    unfold in_data, zoom. norm_state.
    rew (place_at (Live <$> xs) (replicate (cap - length xs - 1) Raw) x
           (length xs) (eq_sym (length_fmap _ _))).
    cbn. rewrite minus_checked_ok by lia.
    norm_log. f_equal. lia.
  + done.
Qed.

(** an append to a full block when the allocation throws, and when it
    returns a block of [k] slots *)
Lemma EmplaceBack_full_throws args xs :
  operator_new (grown (length xs) (length xs)) = NewThrows ->
  EmplaceBack args (vec xs (length xs)) = Throw (vec xs (length xs)) [].
Proof.
  intros Hnew. unfold EmplaceBack, bind at 1, get.
  cbn [vec data_ capacity_ Capacity RawMemory_Capacity size_ buffer_].
  fold (grown (length xs) (length xs)). rewrite Nat.eqb_refl.
  pose proof (grown_more (length xs)) as Hg.
  set (n := grown (length xs) (length xs)) in *.
  unfold bind at 1, scoped, RawMemory_ctor, bind at 1, Allocate.
  replace (n =? 0) with false by (symmetry; apply Nat.eqb_neq; lia).
  by rewrite Hnew.
Qed.

Lemma EmplaceBack_full_block args xs k :
  let n := grown (length xs) (length xs) in
  operator_new n = NewBlock k ->
  EmplaceBack args (vec xs (length xs))
  = match construct args (buffer_ (data_ (vec xs (length xs)))) with
    | Ok x _ lc =>
        if length xs <? k then
          if relocation_ok xs
          then Ok (length xs) (vec_in (xs ++ [x]) k n)
                 (EvAllocate n :: lc ++ relocation_log xs ++
                  (EvDestroy <$> relocated_from xs) ++ [EvDeallocate []])
          else Throw (vec (relocated_from xs) (length xs))
                 (EvAllocate n :: lc ++ relocation_undo_log xs ++ [EvDeallocate [x]])
        else Fault
    | Throw _ lc =>
        Throw (vec xs (length xs)) (EvAllocate n :: lc ++ [EvDeallocate []])
    | Fault => Fault
    end.
Proof.
  intros n Hnew. unfold EmplaceBack, bind at 1, get.
  cbn [vec data_ capacity_ Capacity RawMemory_Capacity size_ buffer_].
  fold (grown (length xs) (length xs)). rewrite Nat.eqb_refl.
  pose proof (grown_more (length xs)) as Hg. fold n in Hg |- *.
  unfold bind at 1, scoped, RawMemory_ctor, bind at 1, Allocate.
  replace (n =? 0) with false by (symmetry; apply Nat.eqb_neq; lia).
  rewrite Hnew.
  cbn [bind emit ret app]. unfold bind at 2. unfold bind at 2. cbn [app].
  unfold bind at 1, get. unfold bind at 1, RawMemory_plus, assert.
  cbn [fst snd capacity_].
  replace (length xs <=? n) with true by (symmetry; apply Nat.leb_le; lia).
  unfold bind at 1, ret. cbn [app].
  unfold bind at 1, in_this at 1, zoom at 1, in_data at 1, zoom at 1.
  cbn [fst snd data_ buffer_].
  rewrite construct_state.
  destruct (construct args _) as [x _b lc|_b lc|]; [| |done].
  - destruct (length xs <? k) eqn:Hk.
    + apply Nat.ltb_lt in Hk.
      rewrite vec_in_snoc. unfold vec. norm_state.
      rewrite Nat.sub_diag. cbn [replicate].
      rewrite (replicate_split k (length xs)) by lia.
      rewrite (replicate_S_sub (k - length xs)) by lia.
      unfold bind at 1.
      rew (place_new_data (replicate (length xs) Raw)
             (replicate (k - length xs - 1) Raw) x (length xs) n
             {| data_ := {| buffer_ := (Live <$> xs) ++ []; capacity_ := length xs |};
                size_ := length xs |} (eq_sym (length_replicate _ _))).
      change (GetAddress _) with 0.
      unfold bind at 1.
      rew (relocate_spec [] [] [] (Live x :: replicate (k - length xs - 1) Raw)
             xs (length xs) n (length xs)).
      destruct (relocation_ok xs).
      * rew (destroy_old [] [] (relocated_from xs) (length xs) (length xs) (length xs)
               {| buffer_ := (Live <$> xs) ++ Live x :: replicate (k - length xs - 1) Raw;
                  capacity_ := n |} (eq_sym (relocated_from_length xs))).
        cbn. rewrite minus_checked_ok by lia.
        rewrite live_objects_app, live_objects_raw.
        norm_log. f_equal. lia.
      * cbn. rewrite live_objects_app, live_objects_raw. cbn [live_objects app].
        rewrite live_objects_raw, relocated_from_length, Nat.sub_diag.
        by norm_log.
    + apply Nat.ltb_ge in Hk. unfold bind at 1, in_new_data, zoom.
      cbn [fst snd buffer_]. unfold place.
      by rewrite lookup_ge_None_2 by len.
  - cbn. unfold vec. rewrite live_objects_raw, Nat.sub_diag. by norm_log.
Qed.

Lemma EmplaceBack_spec args xs cap :
  length xs <= cap -> wraps (grown (length xs) cap) = false ->
  EmplaceBack args (vec xs cap)
  = if length xs =? cap then
      if alloc_fails (grown (length xs) cap) then Throw (vec xs cap) []
      else
        match construct args (buffer_ (data_ (vec xs cap))) with
        | Ok x _ lc =>
            if relocation_ok xs
            then Ok (length xs) (vec (xs ++ [x]) (grown (length xs) cap))
                   (EvAllocate (grown (length xs) cap) :: lc ++ relocation_log xs ++
                    (EvDestroy <$> relocated_from xs) ++ [EvDeallocate []])
            else Throw (vec (relocated_from xs) cap)
                   (EvAllocate (grown (length xs) cap) :: lc ++
                    relocation_undo_log xs ++ [EvDeallocate [x]])
        | Throw _ lc =>
            Throw (vec xs cap)
              (EvAllocate (grown (length xs) cap) :: lc ++ [EvDeallocate []])
        | Fault => Fault
        end
    else
      match construct args (buffer_ (data_ (vec xs cap))) with
      | Ok x _ lc => Ok (length xs) (vec (xs ++ [x]) cap) lc
      | Throw _ lc => Throw (vec xs cap) lc
      | Fault => Fault
      end.
Proof.
  intros Hle Hw. destruct (length xs =? cap) eqn:Hfull.
  - apply Nat.eqb_eq in Hfull. subst cap.
    apply wraps_alloc_fails in Hw as [Hf Hk]. rewrite Hf.
    destruct (operator_new _) as [|k] eqn:Hnew; [by apply EmplaceBack_full_throws|].
    pose proof (EmplaceBack_full_block args xs k) as Hrun. cbn zeta in Hrun.
    rewrite Hrun by done. rewrite (Hk k eq_refl).
    replace (length xs <? grown (length xs) (length xs)) with true
      by (symmetry; apply Nat.ltb_lt; apply grown_more).
    done.
  - apply Nat.eqb_neq in Hfull. apply EmplaceBack_room. lia.
Qed.

(** whatever block the allocation delivers, an append that returns names
    the slot behind the old elements and has counted one element more *)
Lemma EmplaceBack_index args xs cap :
  length xs <= cap ->
  match EmplaceBack args (vec xs cap) with
  | Ok r v' _ => r = length xs /\ size_ v' = length xs + 1
  | _ => True
  end.
Proof.
  intros Hle. destruct (decide (length xs = cap)) as [<-|Hne].
  - destruct (operator_new (grown (length xs) (length xs))) as [|k] eqn:Hnew.
    + by rewrite EmplaceBack_full_throws.
    + pose proof (EmplaceBack_full_block args xs k) as Hrun. cbn zeta in Hrun.
      rewrite Hrun by done.
      destruct (construct args _) as [x ? lc| |]; [|done|done].
      destruct (length xs <? k); [|done].
      destruct (relocation_ok xs); [|done].
      cbn [vec_in size_]. rewrite length_app. by cbn [length].
  - rewrite EmplaceBack_room by lia.
    destruct (construct args _) as [x ? lc| |]; [|done|done].
    cbn [vec size_]. rewrite length_app. by cbn [length].
Qed.
End BlockLemmas.

Section InsertLemmas.
Context {T : Type} `{!Element T} `{!Allocator}.

Local Abbreviation block := (list (slot T)).

Lemma old_to_new_move (spre spost dpre dpost : block) xs c C n :
  old_to_new (uninitialized_move_n (length spre) (length xs) (length dpre))
    ({| buffer_ := dpre ++ replicate (length xs) Raw ++ dpost; capacity_ := C |},
     {| data_ := {| buffer_ := spre ++ (Live <$> xs) ++ spost; capacity_ := c |};
        size_ := n |})
  = if none_throws move_ctor_throws xs
    then Ok tt
           ({| buffer_ := dpre ++ (Live <$> xs) ++ dpost; capacity_ := C |},
            {| data_ := {| buffer_ := spre ++ (Live <$> after_moves xs) ++ spost;
                           capacity_ := c |};
               size_ := n |})
           (EvMoveCtor <$> xs)
    else Throw
           ({| buffer_ := dpre ++ replicate (length xs) Raw ++ dpost;
               capacity_ := C |},
            {| data_ := {| buffer_ := spre ++ (Live <$> after_moves xs) ++ spost;
                           capacity_ := c |};
               size_ := n |})
           ((EvMoveCtor <$> before_throw move_ctor_throws xs) ++
            (EvDestroy <$> before_throw move_ctor_throws xs)).
Proof.
  unfold old_to_new, zoom; cbn [fst snd data_ buffer_].
  rewrite uninitialized_move_n_spec.
  by destruct (none_throws move_ctor_throws xs).
Qed.

Lemma old_to_new_copy (spre spost dpre dpost : block) xs c C n :
  old_to_new (uninitialized_copy_n (length spre) (length xs) (length dpre))
    ({| buffer_ := dpre ++ replicate (length xs) Raw ++ dpost; capacity_ := C |},
     {| data_ := {| buffer_ := spre ++ (Live <$> xs) ++ spost; capacity_ := c |};
        size_ := n |})
  = if none_throws copy_ctor_throws xs
    then Ok tt
           ({| buffer_ := dpre ++ (Live <$> xs) ++ dpost; capacity_ := C |},
            {| data_ := {| buffer_ := spre ++ (Live <$> xs) ++ spost;
                           capacity_ := c |};
               size_ := n |})
           (EvCopyCtor <$> xs)
    else Throw
           ({| buffer_ := dpre ++ replicate (length xs) Raw ++ dpost;
               capacity_ := C |},
            {| data_ := {| buffer_ := spre ++ (Live <$> xs) ++ spost;
                           capacity_ := c |};
               size_ := n |})
           ((EvCopyCtor <$> before_throw copy_ctor_throws xs) ++
            (EvDestroy <$> before_throw copy_ctor_throws xs)).
Proof.
  unfold old_to_new, zoom; cbn [fst snd data_ buffer_].
  rewrite uninitialized_copy_n_spec.
  by destruct (none_throws copy_ctor_throws xs).
Qed.

Lemma old_to_new_move_at (spre spost dpre dpost : block) xs c C n i k j :
  i = length spre -> k = length xs -> j = length dpre ->
  old_to_new (uninitialized_move_n i k j)
    ({| buffer_ := dpre ++ replicate k Raw ++ dpost; capacity_ := C |},
     {| data_ := {| buffer_ := spre ++ (Live <$> xs) ++ spost; capacity_ := c |};
        size_ := n |})
  = if none_throws move_ctor_throws xs
    then Ok tt
           ({| buffer_ := dpre ++ (Live <$> xs) ++ dpost; capacity_ := C |},
            {| data_ := {| buffer_ := spre ++ (Live <$> after_moves xs) ++ spost;
                           capacity_ := c |};
               size_ := n |})
           (EvMoveCtor <$> xs)
    else Throw
           ({| buffer_ := dpre ++ replicate k Raw ++ dpost;
               capacity_ := C |},
            {| data_ := {| buffer_ := spre ++ (Live <$> after_moves xs) ++ spost;
                           capacity_ := c |};
               size_ := n |})
           ((EvMoveCtor <$> before_throw move_ctor_throws xs) ++
            (EvDestroy <$> before_throw move_ctor_throws xs)).
Proof. intros -> -> ->. apply old_to_new_move. Qed.

Lemma old_to_new_copy_at (spre spost dpre dpost : block) xs c C n i k j :
  i = length spre -> k = length xs -> j = length dpre ->
  old_to_new (uninitialized_copy_n i k j)
    ({| buffer_ := dpre ++ replicate k Raw ++ dpost; capacity_ := C |},
     {| data_ := {| buffer_ := spre ++ (Live <$> xs) ++ spost; capacity_ := c |};
        size_ := n |})
  = if none_throws copy_ctor_throws xs
    then Ok tt
           ({| buffer_ := dpre ++ (Live <$> xs) ++ dpost; capacity_ := C |},
            {| data_ := {| buffer_ := spre ++ (Live <$> xs) ++ spost;
                           capacity_ := c |};
               size_ := n |})
           (EvCopyCtor <$> xs)
    else Throw
           ({| buffer_ := dpre ++ replicate k Raw ++ dpost;
               capacity_ := C |},
            {| data_ := {| buffer_ := spre ++ (Live <$> xs) ++ spost;
                           capacity_ := c |};
               size_ := n |})
           ((EvCopyCtor <$> before_throw copy_ctor_throws xs) ++
            (EvDestroy <$> before_throw copy_ctor_throws xs)).
Proof. intros -> -> ->. apply old_to_new_copy. Qed.

Lemma destroy_old_at (pre post : block) xs i k c n (nd : RawMemory T) :
  i = length pre -> k = length xs ->
  in_this (in_data (destroy_n i k))
    (nd, {| data_ := {| buffer_ := pre ++ (Live <$> xs) ++ post; capacity_ := c |};
            size_ := n |})
  = Ok tt
      (nd, {| data_ := {| buffer_ := pre ++ replicate k Raw ++ post; capacity_ := c |};
              size_ := n |})
      (EvDestroy <$> xs).
Proof. intros -> ->. by apply destroy_old. Qed.

Lemma vec_insert (pre suf : list T) x n :
  vec (pre ++ x :: suf) n
  = {| data_ := {| buffer_ := (Live <$> pre) ++ Live x :: (Live <$> suf) ++
                              replicate (n - length (pre ++ suf) - 1) Raw;
                   capacity_ := n |};
       size_ := length (pre ++ suf) + 1 |}.
Proof.
  unfold vec. rewrite fmap_app, !length_app, <- app_assoc.
  cbn [length fmap list_fmap app].
  replace (n - (length pre + S (length suf)))
    with (n - (length pre + length suf) - 1) by lia.
  by replace (length pre + S (length suf))
    with (length pre + length suf + 1) by lia.
Qed.

Lemma old_to_new_move_short_at (spre spost dpre : block) xs k c C n i m j :
  i = length spre -> m = length xs -> j = length dpre -> k < length xs ->
  old_to_new (uninitialized_move_n i m j)
    ({| buffer_ := dpre ++ replicate k Raw; capacity_ := C |},
     {| data_ := {| buffer_ := spre ++ (Live <$> xs) ++ spost; capacity_ := c |};
        size_ := n |})
  = if negb (none_throws move_ctor_throws xs) &&
       (length (before_throw move_ctor_throws xs) <=? k)
    then Throw
           ({| buffer_ := dpre ++ replicate k Raw; capacity_ := C |},
            {| data_ := {| buffer_ := spre ++ (Live <$> after_moves xs) ++ spost;
                           capacity_ := c |};
               size_ := n |})
           ((EvMoveCtor <$> before_throw move_ctor_throws xs) ++
            (EvDestroy <$> before_throw move_ctor_throws xs))
    else Fault.
Proof.
  intros -> -> -> Hk. unfold old_to_new, zoom; cbn [fst snd data_ buffer_].
  rewrite uninitialized_move_n_short by done.
  by destruct (negb _ && _).
Qed.

Lemma old_to_new_copy_short_at (spre spost dpre : block) xs k c C n i m j :
  i = length spre -> m = length xs -> j = length dpre -> k < length xs ->
  old_to_new (uninitialized_copy_n i m j)
    ({| buffer_ := dpre ++ replicate k Raw; capacity_ := C |},
     {| data_ := {| buffer_ := spre ++ (Live <$> xs) ++ spost; capacity_ := c |};
        size_ := n |})
  = if negb (none_throws copy_ctor_throws xs) &&
       (length (before_throw copy_ctor_throws xs) <=? k)
    then Throw
           ({| buffer_ := dpre ++ replicate k Raw; capacity_ := C |},
            {| data_ := {| buffer_ := spre ++ (Live <$> xs) ++ spost;
                           capacity_ := c |};
               size_ := n |})
           ((EvCopyCtor <$> before_throw copy_ctor_throws xs) ++
            (EvDestroy <$> before_throw copy_ctor_throws xs))
    else Fault.
Proof.
  intros -> -> -> Hk. unfold old_to_new, zoom; cbn [fst snd data_ buffer_].
  rewrite uninitialized_copy_n_short by done.
  by destruct (negb _ && _).
Qed.

Lemma vec_in_insert (pre suf : list T) x k n :
  vec_in (pre ++ x :: suf) k n
  = {| data_ := {| buffer_ := (Live <$> pre) ++ Live x :: (Live <$> suf) ++
                              replicate (k - length (pre ++ suf) - 1) Raw;
                   capacity_ := n |};
       size_ := length (pre ++ suf) + 1 |}.
Proof.
  unfold vec_in. rewrite fmap_app, !length_app, <- app_assoc.
  cbn [length fmap list_fmap app].
  replace (k - (length pre + S (length suf)))
    with (k - (length pre + length suf) - 1) by lia.
  by replace (length pre + S (length suf))
    with (length pre + length suf + 1) by lia.
Qed.

(** a positional insert into a full block when the allocation throws, and
    when it returns a block of [k] slots *)
Lemma EmplaceNoCapacity_throws args pre suf :
  let xs := pre ++ suf in
  operator_new (grown (length xs) (length xs)) = NewThrows ->
  EmplaceNoCapacity (length pre) args (vec xs (length xs))
  = Throw (vec xs (length xs)) [].
Proof.
  intros xs Hnew. pose proof (grown_more (length xs)) as Hg.
  unfold EmplaceNoCapacity, bind at 1, get.
  cbn [vec data_ capacity_ Capacity RawMemory_Capacity size_ buffer_].
  fold (grown (length xs) (length xs)).
  set (n := grown (length xs) (length xs)) in *.
  unfold bind at 1, scoped, RawMemory_ctor, bind at 1, Allocate.
  replace (n =? 0) with false by (symmetry; apply Nat.eqb_neq; lia).
  by rewrite Hnew.
Qed.

Lemma EmplaceNoCapacity_block args pre suf k :
  let xs := pre ++ suf in
  let n := grown (length xs) (length xs) in
  operator_new n = NewBlock k ->
  EmplaceNoCapacity (length pre) args (vec xs (length xs))
  = match construct args (buffer_ (data_ (vec xs (length xs)))) with
    | Ok x _ lc =>
        if length pre <? k then
          if relocation_ok pre then
            if relocation_ok suf then
              if length xs <? k
              then Ok (length pre) (vec_in (pre ++ x :: suf) k n)
                     (EvAllocate n :: lc ++ relocation_log pre ++ relocation_log suf ++
                      (EvDestroy <$> relocated_from pre ++ relocated_from suf) ++
                      [EvDeallocate []])
              else Fault
            else if (length xs <? k) ||
                    (relocated_count suf <=? k - length pre - 1)
            then Throw (vec (relocated_from pre ++ relocated_from suf) (length xs))
                   (EvAllocate n :: lc ++ relocation_log pre ++
                    relocation_undo_log suf ++ [EvDeallocate (pre ++ [x])])
            else Fault
          else Throw (vec (relocated_from pre ++ suf) (length xs))
                 (EvAllocate n :: lc ++ relocation_undo_log pre ++ [EvDeallocate [x]])
        else Fault
    | Throw _ lc =>
        Throw (vec xs (length xs)) (EvAllocate n :: lc ++ [EvDeallocate []])
    | Fault => Fault
    end.
Proof.
  intros xs n Hnew.
  assert (Hg : length xs < n) by apply grown_more.
  assert (Hlen : length xs = length pre + length suf) by apply length_app.
  unfold EmplaceNoCapacity, bind at 1, get.
  cbn [vec data_ capacity_ Capacity RawMemory_Capacity size_ buffer_].
  fold (grown (length xs) (length xs)). fold n.
  unfold bind at 1, scoped, RawMemory_ctor, bind at 1, Allocate.
  replace (n =? 0) with false by (symmetry; apply Nat.eqb_neq; lia).
  rewrite Hnew.
  cbn [bind emit ret app]. unfold bind at 2. unfold bind at 2. cbn [app].
  unfold relocation_ok, relocation_log, relocation_undo_log, relocated_from,
    relocated_count.
  destruct relocate_by_move.
  - unfold bind at 1. unfold bind at 1, in_this at 1, zoom at 1, in_data at 1, zoom at 1.
    rewrite construct_state.
    destruct (construct args _) as [x _b lc|_b lc|]; [| |done].
    2:{ cbn. rewrite live_objects_raw. by norm_log. }
    destruct (length pre <? k) eqn:Hpk;
      [apply Nat.ltb_lt in Hpk|apply Nat.ltb_ge in Hpk].
    2:{ unfold bind at 1, in_new_data, zoom. cbn [fst snd buffer_ Nat.add].
        unfold place. by rewrite lookup_ge_None_2 by len. }
    unfold vec. norm_state.
    rewrite Nat.sub_diag. cbn [replicate].
    change (Live <$> xs) with (Live <$> (pre ++ suf)).
    rewrite fmap_app, <- !app_assoc.
    replace (replicate k (@Raw T))
      with (replicate (length pre) (@Raw T) ++ Raw :: replicate (k - length pre - 1) Raw).
    2:{ rewrite <- replicate_S, <- replicate_add. f_equal. lia. }
    unfold bind at 1.
    rew (place_new_data (replicate (length pre) Raw)
           (replicate (k - length pre - 1) Raw)
           x (length pre) n
           {| data_ := {| buffer_ := (Live <$> pre) ++ (Live <$> suf) ++ [];
                          capacity_ := length xs |};
              size_ := length xs |} ltac:(len)).
    unfold bind at 1.
    rew (old_to_new_move_at [] ((Live <$> suf) ++ []) []
           (Live x :: replicate (k - length pre - 1) Raw)
           pre (length xs) n (length xs) 0 (length pre) 0
           ltac:(len) ltac:(len) ltac:(len)).
    destruct (none_throws move_ctor_throws pre) eqn:Hpre.
    2:{ cbn. rewrite !live_objects_app, !live_objects_raw.
        rewrite length_app, !after_moves_length, <- Hlen, Nat.sub_diag, fmap_app.
        cbn [replicate live_objects]. rewrite ?live_objects_app, ?live_objects_raw.
        by norm_log. }
    unfold bind at 1. rewrite minus_checked_ok by lia.
    replace (length xs - length pre) with (length suf) by lia.
    replace (length pre + 1) with (S (length pre)) by lia.
    rewrite (snoc_middle (Live <$> pre) _ (Live x)).
    destruct (length xs <? k) eqn:Hxk;
      [apply Nat.ltb_lt in Hxk|apply Nat.ltb_ge in Hxk].
    + rewrite (replicate_split (k - length pre - 1) (length suf)) by lia.
      replace (k - length pre - 1 - length suf) with (k - length xs - 1) by lia.
      rew (old_to_new_move_at (Live <$> after_moves pre) [] ((Live <$> pre) ++ [Live x])
             (replicate (k - length xs - 1) Raw)
             suf (length xs) n (length xs) (length pre) (length suf) (S (length pre))
             ltac:(rewrite length_fmap; apply eq_sym, after_moves_length)
             ltac:(len) ltac:(len)).
      cbn [orb].
      destruct (none_throws move_ctor_throws suf) eqn:Hsuf.
      * rewrite (app_assoc (Live <$> after_moves pre)), <- fmap_app.
        rew (destroy_old_at [] [] (after_moves pre ++ after_moves suf) 0 (length xs)
               (length xs) (length xs)
               {| buffer_ := ((Live <$> pre) ++ [Live x]) ++ (Live <$> suf) ++
                             replicate (k - length xs - 1) Raw;
                  capacity_ := n |}
               ltac:(len) ltac:(rewrite length_app, !after_moves_length; lia)).
        cbn. rewrite live_objects_app, live_objects_raw.
        norm_log. f_equal. rewrite vec_in_insert. fold xs. done.
      * cbn. rewrite !live_objects_app, !live_objects_raw, live_objects_live.
        rewrite length_app, !after_moves_length, <- Hlen, Nat.sub_diag, fmap_app.
        cbn [replicate live_objects]. by norm_log.
    + rew (old_to_new_move_short_at (Live <$> after_moves pre) []
             ((Live <$> pre) ++ [Live x]) suf (k - length pre - 1)
             (length xs) n (length xs) (length pre) (length suf) (S (length pre))
             ltac:(rewrite length_fmap; apply eq_sym, after_moves_length)
             ltac:(len) ltac:(len) ltac:(lia)).
      cbn [orb].
      destruct (none_throws move_ctor_throws suf) eqn:Hsuf; [done|]. cbn [negb andb].
      destruct (length (before_throw move_ctor_throws suf) <=? k - length pre - 1);
        [|done].
      cbn. rewrite !live_objects_app, !live_objects_raw, live_objects_live.
      rewrite length_app, !after_moves_length, <- Hlen, Nat.sub_diag, fmap_app.
      cbn [replicate live_objects]. by norm_log.
  - unfold bind at 1. unfold bind at 1, in_this at 1, zoom at 1, in_data at 1, zoom at 1.
    rewrite construct_state.
    destruct (construct args _) as [x _b lc|_b lc|]; [| |done].
    2:{ cbn. rewrite live_objects_raw. by norm_log. }
    destruct (length pre <? k) eqn:Hpk;
      [apply Nat.ltb_lt in Hpk|apply Nat.ltb_ge in Hpk].
    2:{ unfold bind at 1, in_new_data, zoom. cbn [fst snd buffer_ Nat.add].
        unfold place. by rewrite lookup_ge_None_2 by len. }
    unfold vec. norm_state.
    rewrite Nat.sub_diag. cbn [replicate].
    change (Live <$> xs) with (Live <$> (pre ++ suf)).
    rewrite fmap_app, <- !app_assoc.
    replace (replicate k (@Raw T))
      with (replicate (length pre) (@Raw T) ++ Raw :: replicate (k - length pre - 1) Raw).
    2:{ rewrite <- replicate_S, <- replicate_add. f_equal. lia. }
    unfold bind at 1.
    rew (place_new_data (replicate (length pre) Raw)
           (replicate (k - length pre - 1) Raw)
           x (length pre) n
           {| data_ := {| buffer_ := (Live <$> pre) ++ (Live <$> suf) ++ [];
                          capacity_ := length xs |};
              size_ := length xs |} ltac:(len)).
    unfold bind at 1.
    rew (old_to_new_copy_at [] ((Live <$> suf) ++ []) []
           (Live x :: replicate (k - length pre - 1) Raw)
           pre (length xs) n (length xs) 0 (length pre) 0
           ltac:(len) ltac:(len) ltac:(len)).
    destruct (none_throws copy_ctor_throws pre) eqn:Hpre.
    2:{ cbn. rewrite !live_objects_app, !live_objects_raw.
        rewrite ?length_app, <- ?Hlen, ?Nat.sub_diag, ?fmap_app.
        cbn [replicate live_objects]. rewrite ?live_objects_app, ?live_objects_raw.
        by norm_log. }
    unfold bind at 1. rewrite minus_checked_ok by lia.
    replace (length xs - length pre) with (length suf) by lia.
    replace (length pre + 1) with (S (length pre)) by lia.
    rewrite (snoc_middle (Live <$> pre) _ (Live x)).
    destruct (length xs <? k) eqn:Hxk;
      [apply Nat.ltb_lt in Hxk|apply Nat.ltb_ge in Hxk].
    + rewrite (replicate_split (k - length pre - 1) (length suf)) by lia.
      replace (k - length pre - 1 - length suf) with (k - length xs - 1) by lia.
      rew (old_to_new_copy_at (Live <$> pre) [] ((Live <$> pre) ++ [Live x])
             (replicate (k - length xs - 1) Raw)
             suf (length xs) n (length xs) (length pre) (length suf) (S (length pre))
             ltac:(len)
             ltac:(len) ltac:(len)).
      cbn [orb].
      destruct (none_throws copy_ctor_throws suf) eqn:Hsuf.
      * rewrite (app_assoc (Live <$> pre) (Live <$> suf)), <- fmap_app.
        unfold bind at 1.
        rew (destroy_old_at [] [] (pre ++ suf) 0 (length xs)
               (length xs) (length xs)
               {| buffer_ := ((Live <$> pre) ++ [Live x]) ++ (Live <$> suf) ++
                             replicate (k - length xs - 1) Raw;
                  capacity_ := n |}
               ltac:(len) ltac:(len)).
        cbn. rewrite live_objects_app, live_objects_raw.
        norm_log. f_equal. rewrite vec_in_insert. fold xs. done.
      * cbn. rewrite !live_objects_app, !live_objects_raw, live_objects_live.
        rewrite ?length_app, <- ?Hlen, ?Nat.sub_diag, ?fmap_app.
        cbn [replicate live_objects]. by norm_log.
    + rew (old_to_new_copy_short_at (Live <$> pre) []
             ((Live <$> pre) ++ [Live x]) suf (k - length pre - 1)
             (length xs) n (length xs) (length pre) (length suf) (S (length pre))
             ltac:(len)
             ltac:(len) ltac:(len) ltac:(lia)).
      cbn [orb].
      destruct (none_throws copy_ctor_throws suf) eqn:Hsuf; [done|]. cbn [negb andb].
      destruct (length (before_throw copy_ctor_throws suf) <=? k - length pre - 1);
        [|done].
      cbn. rewrite !live_objects_app, !live_objects_raw, live_objects_live.
      rewrite ?length_app, <- ?Hlen, ?Nat.sub_diag, ?fmap_app.
      cbn [replicate live_objects]. by norm_log.
Qed.

Lemma EmplaceNoCapacity_spec args pre suf :
  let xs := pre ++ suf in
  let n := grown (length xs) (length xs) in
  wraps n = false ->
  EmplaceNoCapacity (length pre) args (vec xs (length xs))
  = if alloc_fails n then Throw (vec xs (length xs)) []
    else
      match construct args (buffer_ (data_ (vec xs (length xs)))) with
      | Ok x _ lc =>
          if relocation_ok pre then
            if relocation_ok suf
            then Ok (length pre) (vec (pre ++ x :: suf) n)
                   (EvAllocate n :: lc ++ relocation_log pre ++ relocation_log suf ++
                    (EvDestroy <$> relocated_from pre ++ relocated_from suf) ++
                    [EvDeallocate []])
            else Throw (vec (relocated_from pre ++ relocated_from suf) (length xs))
                   (EvAllocate n :: lc ++ relocation_log pre ++
                    relocation_undo_log suf ++ [EvDeallocate (pre ++ [x])])
          else Throw (vec (relocated_from pre ++ suf) (length xs))
                 (EvAllocate n :: lc ++ relocation_undo_log pre ++ [EvDeallocate [x]])
      | Throw _ lc =>
          Throw (vec xs (length xs)) (EvAllocate n :: lc ++ [EvDeallocate []])
      | Fault => Fault
      end.
Proof.
  intros xs n [Hf Hk]%wraps_alloc_fails. rewrite Hf.
  assert (Hg : length xs < n) by apply grown_more.
  assert (Hlen : length xs = length pre + length suf) by apply length_app.
  destruct (operator_new n) as [|k] eqn:Hnew;
    [by apply EmplaceNoCapacity_throws|].
  pose proof (EmplaceNoCapacity_block args pre suf k) as Hrun.
  cbn zeta in Hrun. fold xs in Hrun. fold n in Hrun.
  rewrite Hrun by done. rewrite (Hk k eq_refl).
  replace (length pre <? n) with true by (symmetry; apply Nat.ltb_lt; lia).
  replace (length xs <? n) with true by (symmetry; by apply Nat.ltb_lt).
  cbn [orb]. done.
Qed.
End InsertLemmas.

Section InPlaceLemmas.
Context {T : Type} `{!Element T} `{!Allocator}.

Local Abbreviation block := (list (slot T)).

Lemma store_at (pre post : block) x y i :
  i = length pre ->
  store i y (pre ++ Live x :: post) = Ok tt (pre ++ Live y :: post) [].
Proof. intros ->. apply store_middle. Qed.

Lemma load_at (pre post : block) x i :
  i = length pre ->
  load i (pre ++ Live x :: post) = Ok x (pre ++ Live x :: post) [].
Proof. intros ->. apply load_middle. Qed.

Lemma lookup_second (pre post : block) a b :
  (pre ++ a :: b :: post) !! S (length pre) = Some b.
Proof. rewrite (snoc_middle pre). apply list_lookup_middle. len. Qed.

Lemma insert_second (pre post : block) a b c :
  <[S (length pre) := c]> (pre ++ a :: b :: post) = pre ++ a :: c :: post.
Proof.
  rewrite (snoc_middle pre), <- (length_snoc pre a), insert_middle.
  by rewrite <- app_assoc.
Qed.

(** moving the object of a slot into its left neighbour *)
Lemma move_assign_left (pre post : block) x y :
  move_assign_slot (S (length pre)) (length pre) (pre ++ Live x :: Live y :: post)
  = if move_assign_throws x y
    then Throw (pre ++ Live x :: Live y :: post) []
    else Ok tt (pre ++ Live y :: Live (moved_from y) :: post) [EvMoveAssign x y].
Proof.
  unfold move_assign_slot, bind at 1, load at 1. rewrite lookup_second.
  unfold bind at 1. rewrite load_middle.
  destruct (move_assign_throws x y); [done|].
  unfold bind at 1. rewrite store_middle.
  unfold bind at 1, store. by rewrite lookup_second, insert_second.
Qed.

(** moving the object of a slot into its right neighbour *)
Lemma move_assign_right (pre post : block) y z :
  move_assign_slot (length pre) (S (length pre)) (pre ++ Live y :: Live z :: post)
  = if move_assign_throws z y
    then Throw (pre ++ Live y :: Live z :: post) []
    else Ok tt (pre ++ Live (moved_from y) :: Live y :: post) [EvMoveAssign z y].
Proof.
  unfold move_assign_slot, bind at 1. rewrite load_middle.
  unfold bind at 1, load at 1. rewrite lookup_second.
  destruct (move_assign_throws z y); [done|].
  unfold bind at 1, store at 1. rewrite lookup_second, insert_second.
  unfold bind at 1. by rewrite store_middle.
Qed.

Lemma std_move_loop_spec (pre post : block) x ys :
  shift_ok x ys = true ->
  std_move_loop (S (length pre)) (length pre) (length ys)
    (pre ++ Live x :: (Live <$> ys) ++ post)
  = Ok tt (pre ++ (Live <$> ys) ++ Live (shift_last x ys) :: post) (shift_log x ys).
Proof.
  revert pre x. induction ys as [|y ys IH]; intros pre x Hok; [done|].
  cbn [shift_ok] in Hok. apply andb_prop in Hok as [Hx Hys].
  apply negb_true_iff in Hx.
  cbn [std_move_loop length fmap list_fmap app shift_last shift_log].
  unfold bind at 1. rewrite move_assign_left, Hx.
  rewrite (snoc_middle pre), <- (length_snoc pre (Live y)), IH by done.
  by rewrite <- app_assoc.
Qed.

Lemma std_move_loop_throws (pre post : block) x ys :
  shift_ok x ys = false ->
  exists zs l,
    length zs = S (length ys) /\
    std_move_loop (S (length pre)) (length pre) (length ys)
      (pre ++ Live x :: (Live <$> ys) ++ post)
    = Throw (pre ++ (Live <$> zs) ++ post) l.
Proof.
  revert pre x. induction ys as [|y ys IH]; intros pre x Hok; [done|].
  cbn [shift_ok] in Hok.
  cbn [std_move_loop length fmap list_fmap app].
  unfold bind at 1. rewrite move_assign_left.
  destruct (move_assign_throws x y) eqn:Hx.
  - by exists (x :: y :: ys), [].
  - cbn [negb andb] in Hok.
    destruct (IH (pre ++ [Live y]) (moved_from y) Hok) as (zs & l & Hzs & Hrun).
    rewrite length_snoc, <- app_assoc in Hrun. cbn [app] in Hrun.
    rewrite Hrun. exists (y :: zs), (EvMoveAssign x y :: l).
    split; [simpl; lia|]. by rewrite <- app_assoc.
Qed.

Lemma move_backward_loop_spec (pre post : block) ys z :
  shift_ok z (reverse ys) = true ->
  move_backward_loop (length pre + length ys) (S (length pre + length ys)) (length ys)
    (pre ++ (Live <$> ys) ++ Live z :: post)
  = Ok tt (pre ++ Live (shift_last z (reverse ys)) :: (Live <$> ys) ++ post)
       (shift_log z (reverse ys)).
Proof.
  revert post z. induction ys as [|y ys IH] using rev_ind; intros post z Hok; [done|].
  rewrite reverse_snoc in *. cbn [shift_ok] in Hok.
  apply andb_prop in Hok as [Hx Hys]. apply negb_true_iff in Hx.
  rewrite length_app. cbn [length].
  replace (length ys + 1) with (S (length ys)) by lia.
  cbn [move_backward_loop shift_last shift_log].
  replace (length pre + S (length ys) - 1) with (length pre + length ys) by lia.
  replace (S (length pre + S (length ys)) - 1) with (S (length pre + length ys)) by lia.
  rewrite fmap_app, <- (app_assoc (Live <$> ys)). cbn [fmap list_fmap app].
  rewrite (app_assoc pre).
  unfold bind at 1.
  rewrite <- (length_fmap Live ys) at 1 2. rewrite <- length_app.
  rewrite move_assign_right, Hx.
  rewrite <- (app_assoc pre).
  rewrite IH by done. cbn [app].
  by rewrite <- !app_assoc.
Qed.

Lemma std_move_loop_at (pre post : block) x ys i j k :
  i = S (length pre) -> j = length pre -> k = length ys ->
  shift_ok x ys = true ->
  std_move_loop i j k (pre ++ Live x :: (Live <$> ys) ++ post)
  = Ok tt (pre ++ (Live <$> ys) ++ Live (shift_last x ys) :: post) (shift_log x ys).
Proof. intros -> -> ->. apply std_move_loop_spec. Qed.

Lemma move_backward_loop_at (pre post : block) ys z i j k :
  i = length pre + length ys -> j = S (length pre + length ys) -> k = length ys ->
  shift_ok z (reverse ys) = true ->
  move_backward_loop i j k (pre ++ (Live <$> ys) ++ Live z :: post)
  = Ok tt (pre ++ Live (shift_last z (reverse ys)) :: (Live <$> ys) ++ post)
       (shift_log z (reverse ys)).
Proof. intros -> -> ->. apply move_backward_loop_spec. Qed.

Lemma destroy_at_at (pre post : block) x i :
  i = length pre ->
  destroy_at i (pre ++ Live x :: post) = Ok tt (pre ++ Raw :: post) [EvDestroy x].
Proof. intros ->. apply destroy_at_middle. Qed.

Lemma vec_app (pre suf : list T) cap :
  vec (pre ++ suf) cap
  = {| data_ := {| buffer_ := (Live <$> pre) ++ (Live <$> suf) ++
                              replicate (cap - length (pre ++ suf)) Raw;
                   capacity_ := cap |};
       size_ := length (pre ++ suf) |}.
Proof. unfold vec. by rewrite fmap_app, <- app_assoc. Qed.

Lemma Erase_spec pre x suf cap :
  length (pre ++ x :: suf) <= cap ->
  shift_ok x suf = true ->
  Erase (length pre) (vec (pre ++ x :: suf) cap)
  = Ok (length pre) (vec (pre ++ suf) cap)
      (shift_log x suf ++ [EvDestroy (shift_last x suf)]).
Proof.
  intros Hle Hok. rewrite length_app in Hle. cbn [length] in Hle.
  rewrite vec_app, (vec_app pre suf), !length_app. cbn [length].
  unfold Erase, bind at 1, get. unfold bind at 1.
  rewrite minus_checked_ok by (unfold begin_, GetAddress; lia).
  norm_state. rewrite Nat.sub_0_r.
  unfold bind at 1, in_data at 1, zoom at 1, std_move. norm_state.
  replace (length pre + 1 <=? length pre + S (length suf)) with true
    by (symmetry; apply Nat.leb_le; lia).
  cbn [fmap list_fmap app].
  rewrite (std_move_loop_at (Live <$> pre)
         (replicate (cap - (length pre + S (length suf))) Raw) x suf) by (done || len).
  unfold bind at 1. rewrite minus_checked_ok by lia.
  unfold bind at 1, in_data at 1, zoom at 1. norm_state.
  rewrite (app_assoc (Live <$> pre)).
  rewrite (destroy_at_at ((Live <$> pre) ++ (Live <$> suf))) by len.
  cbn. norm_log.
  rewrite (replicate_S_sub (cap - (length pre + length suf))) by lia.
  replace (cap - (length pre + length suf) - 1)
    with (cap - (length pre + S (length suf))) by lia.
  by replace (length pre + S (length suf) - 1) with (length pre + length suf) by lia.
Qed.

Lemma PopBack_spec (xs : list T) x cap :
  length (xs ++ [x]) <= cap ->
  PopBack (vec (xs ++ [x]) cap) = Ok tt (vec xs cap) [EvDestroy x].
Proof.
  intros Hle. rewrite length_app in Hle. cbn [length] in Hle.
  rewrite vec_snoc. unfold vec, PopBack, bind at 1, get. norm_state.
  unfold bind at 1. rewrite minus_checked_ok by lia.
  unfold bind at 1, in_data at 1, zoom at 1. norm_state.
  rewrite (destroy_at_at (Live <$> xs)) by len.
  cbn. rewrite <- replicate_S.
  replace (S (cap - length xs - 1)) with (cap - length xs) by lia.
  by replace (length xs + 1 - 1) with (length xs) by lia.
Qed.

Lemma PopBack_empty cap : PopBack (vec (@nil T) cap) = Fault.
Proof. done. Qed.


Lemma EmplaceEnoughtCapacity_spec args pre suf z cap :
  let xs := pre ++ suf ++ [z] in
  let B := gap_block pre suf z (cap - length xs - 1) in
  let t := shift_last (moved_from z) (reverse suf) in
  length xs < cap ->
  move_ctor_throws z = false ->
  shift_ok (moved_from z) (reverse suf) = true ->
  EmplaceEnoughtCapacity (length pre) args (vec xs cap)
  = match construct args B with
    | Ok x _ lc =>
        if move_assign_throws t x
        then Throw {| data_ := {| buffer_ := B; capacity_ := cap |};
                      size_ := length xs |}
               (EvMoveCtor z :: shift_log (moved_from z) (reverse suf) ++ lc ++
                [EvDestroy x])
        else Ok (length pre) (vec (pre ++ x :: suf ++ [z]) cap)
               (EvMoveCtor z :: shift_log (moved_from z) (reverse suf) ++ lc ++
                [EvMoveAssign t x; EvDestroy (moved_from x)])
    | Throw _ lc =>
        Throw {| data_ := {| buffer_ := B; capacity_ := cap |}; size_ := length xs |}
          (EvMoveCtor z :: shift_log (moved_from z) (reverse suf) ++ lc)
    | Fault => Fault
    end.
Proof.
  intros xs B t Hlt Hz Hshift.
  assert (Hlen : length xs = length pre + length suf + 1).
  { unfold xs. rewrite !length_app. cbn [length]. lia. }
  unfold vec at 1.
  unfold EmplaceEnoughtCapacity, bind at 1, get.
  unfold bind at 1. rewrite minus_checked_ok by (cbn [size_]; lia).
  unfold bind at 1, RawMemory_at, bind at 1, assert.
  cbn [size_ data_ capacity_].
  replace (length xs - 1 <? cap) with true by (symmetry; apply Nat.ltb_lt; lia).
  unfold ret at 1 2. cbn [app].
  unfold bind at 1, in_data at 1, zoom at 1. norm_state.
  unfold move_construct_from, bind at 1.
  replace (replicate (cap - length xs) (@Raw T))
    with (@Raw T :: replicate (cap - length xs - 1) Raw)
    by (rewrite <- replicate_S; f_equal; lia).
  change (Live <$> xs) with (Live <$> (pre ++ suf ++ [z])).
  rewrite !fmap_app, <- !app_assoc. cbn [fmap list_fmap app].
  rewrite (app_assoc (Live <$> pre) (Live <$> suf)).
  rewrite (load_at ((Live <$> pre) ++ (Live <$> suf))) by len.
  rewrite Hz. unfold bind at 1.
  rewrite (store_at ((Live <$> pre) ++ (Live <$> suf))) by len.
  unfold bind at 1, emit, ret. cbn [app].
  unfold bind at 1, in_data at 1, zoom at 1. norm_state.
  rewrite (snoc_middle _ _ (Live (moved_from z))).
  rewrite (place_at _ _ z (length xs)) by len.
  unfold bind at 1. rewrite minus_checked_ok by lia.
  unfold bind at 1, in_data at 1, zoom at 1, std_move_backward. norm_state.
  replace (length pre <=? length xs - 1) with true
    by (symmetry; apply Nat.leb_le; lia).
  cbn [andb].
  match goal with
  | |- context [?a - ?b <=? ?c] =>
      replace (a - b <=? c) with true by (symmetry; apply Nat.leb_le; lia)
  end.
  rewrite <- !app_assoc. cbn [app].
  rewrite (move_backward_loop_at (Live <$> pre) _ suf (moved_from z)) by (done || len).
  fold t. cbn [app].
  unfold B, gap_block. fold t.
  unfold bind at 1, assign_temporary, bind at 1, in_data at 1, zoom at 1.
  norm_state. rewrite construct_state.
  destruct (construct args _) as [x _b lc|_b lc|]; [| |by cbn].
  - unfold on_throw, bind at 1, RawMemory_at, bind at 1, assert.
    cbn [capacity_].
    replace (length pre <? cap) with true by (symmetry; apply Nat.ltb_lt; lia).
    unfold ret at 1 2. cbn [app].
    unfold bind at 1, in_data at 1, zoom at 1. norm_state.
    unfold bind at 1. rewrite (load_at (Live <$> pre)) by len.
    destruct (move_assign_throws t x).
    + cbn. by norm_log.
    + unfold bind at 1. rewrite (store_at (Live <$> pre)) by len.
      cbn. rewrite vec_insert. norm_log.
      rewrite fmap_app, !length_app, <- !app_assoc. cbn [fmap list_fmap app length].
      by replace (length pre + (length suf + 1)) with (length xs) by lia.
  - cbn. by norm_log.
Qed.

Lemma Emplace_middle position args (v : Vector T) :
  position <> size_ v ->
  Emplace position args v
  = if size_ v <? Capacity v then EmplaceEnoughtCapacity position args v
    else EmplaceNoCapacity position args v.
Proof.
  intros Hne. unfold Emplace, bind at 1, get, end_, begin_, GetAddress.
  cbn [Nat.add].
  replace (position =? size_ v) with false by (symmetry; by apply Nat.eqb_neq).
  unfold bind at 1. rewrite minus_checked_ok by lia. rewrite Nat.sub_0_r.
  destruct (size_ v <? Capacity v).
  - by destruct (EmplaceEnoughtCapacity position args v).
  - by destruct (EmplaceNoCapacity position args v).
Qed.

Lemma Emplace_end args (xs : list T) cap :
  length xs <= cap ->
  Emplace (length xs) args (vec xs cap) = EmplaceBack args (vec xs cap).
Proof.
  intros Hle. unfold Emplace, bind at 1, get, end_, GetAddress.
  cbn [Nat.add vec size_]. rewrite Nat.eqb_refl.
  unfold bind at 1. pose proof (EmplaceBack_index args xs cap Hle) as Hv.
  destruct (EmplaceBack args (vec xs cap)) as [r v' log| |]; [|done|done].
  destruct Hv as [-> Hv]. unfold bind, get.
  rewrite minus_checked_ok by lia. cbn. norm_log. f_equal. lia.
Qed.
End InPlaceLemmas.

(** ** The invariant and the canonical form of a vector *)

Section InvariantLemmas.
Context {T : Type} `{!Element T} `{!Allocator}.

Local Abbreviation block := (list (slot T)).

Lemma all_live (b : block) :
  forallb is_live b = true -> b = Live <$> live_objects b.
Proof.
  induction b as [|[|x] b IH]; simpl; [done|done|].
  intros Hb. f_equal. by apply IH.
Qed.

Lemma all_raw (b : block) :
  forallb is_raw b = true -> b = replicate (length b) Raw.
Proof.
  induction b as [|[|x] b IH]; simpl; [done| |done].
  intros Hb. f_equal. by apply IH.
Qed.

Lemma contents_vec (xs : list T) cap : contents (vec xs cap) = xs.
Proof.
  unfold contents, vec. cbn [size_ data_ buffer_].
  rewrite take_app_length' by len. apply live_objects_live.
Qed.

Lemma contents_vec_in (xs : list T) k cap : contents (vec_in xs k cap) = xs.
Proof.
  unfold contents, vec_in. cbn [size_ data_ buffer_].
  rewrite take_app_length' by len. apply live_objects_live.
Qed.

Lemma invariant_vec (xs : list T) cap :
  length xs <= cap -> invariant (vec xs cap) = true.
Proof.
  intros Hle. unfold invariant, vec. cbn [size_ data_ buffer_ capacity_].
  rewrite take_app_length', drop_app_length' by len.
  rewrite !andb_true_iff. repeat split.
  - by apply Nat.leb_le.
  - apply Nat.eqb_eq. len.
  - clear. by induction xs.
  - clear. by induction (cap - length xs).
Qed.

Lemma invariant_vec_in (xs : list T) k cap :
  length xs <= k -> k <= cap -> invariant (vec_in xs k cap) = (k =? cap).
Proof.
  intros Hk Hcap. unfold invariant, vec_in. cbn [size_ data_ buffer_ capacity_].
  rewrite take_app_length', drop_app_length' by len.
  replace (length xs <=? cap) with true by (symmetry; apply Nat.leb_le; lia).
  replace (length ((Live <$> xs) ++ replicate (k - length xs) Raw)) with k by len.
  assert (forallb is_live (Live <$> xs) = true) as -> by (clear; by induction xs).
  assert (forallb is_raw (replicate (k - length xs) (@Raw T)) = true) as ->
    by (clear; by induction (k - length xs)).
  by rewrite !andb_true_r.
Qed.

Lemma invariant_inv (v : Vector T) :
  invariant v = true ->
  v = vec (contents v) (Capacity v) /\ length (contents v) = size_ v /\
  size_ v <= Capacity v.
Proof.
  destruct v as [[b cap] n]. unfold invariant, contents, Capacity, RawMemory_Capacity, vec.
  cbn [size_ data_ buffer_ capacity_].
  rewrite !andb_true_iff. intros [[[Hn Hb] Hl] Hr].
  apply Nat.leb_le in Hn. apply Nat.eqb_eq in Hb.
  apply all_live in Hl. apply all_raw in Hr.
  assert (Hlen : length (live_objects (take n b)) = n).
  { rewrite <- (length_fmap Live), <- Hl, length_take. lia. }
  rewrite Hlen. repeat split; [|done].
  do 2 f_equal. rewrite <- Hl.
  rewrite length_drop, Hb in Hr. rewrite <- Hr. by rewrite take_drop.
Qed.

Lemma invariant_spec (v : Vector T) :
  invariant v = true <->
  exists xs cap, length xs <= cap /\ v = vec xs cap.
Proof.
  split.
  - intros Hv. destruct (invariant_inv v Hv) as (Heq & Hlen & Hle).
    exists (contents v), (Capacity v). split; [lia|done].
  - intros (xs & cap & Hle & ->). by apply invariant_vec.
Qed.
End InvariantLemmas.

(** ** Appending *)

Section Append.
Context {T : Type} `{!Element T} `{!Allocator}.

Lemma none_throws_app (f : T -> bool) xs ys :
  none_throws f (xs ++ ys) = none_throws f xs && none_throws f ys.
Proof. unfold none_throws. apply forallb_app. Qed.

Lemma relocation_ok_app xs ys :
  relocation_ok (xs ++ ys) = relocation_ok xs && relocation_ok ys.
Proof. unfold relocation_ok. destruct relocate_by_move; apply none_throws_app. Qed.

(** One append by value: what it returns and the vector it leaves. *)
Lemma PushBack_value (xs : list T) cap y :
  length xs <= cap ->
  alloc_fails (grown (length xs) cap) = false ->
  relocation_ok xs = true ->
  exists cap' log,
    PushBack (ByValue y) (vec xs cap) = Ok tt (vec (xs ++ [y]) cap') log /\
    EmplaceBack (ByValue y) (vec xs cap) = Ok (length xs) (vec (xs ++ [y]) cap') log /\
    length (xs ++ [y]) <= cap' /\
    cap' = (if length xs =? cap then grown (length xs) cap else cap).
Proof.
  intros Hle Ha Hr. unfold PushBack, bind.
  rewrite EmplaceBack_spec by (done || by apply alloc_fails_wraps).
  rewrite Ha, Hr. cbn [construct bind emit ret app].
  rewrite length_app. cbn [length].
  destruct (length xs =? cap) eqn:Hfull.
  - eexists _, _. split; [|split; [done|split; [|done]]].
    + cbn. by norm_log.
    + apply Nat.eqb_eq in Hfull. unfold grown.
      destruct (cap =? 0) eqn:H0;
        [apply Nat.eqb_eq in H0|apply Nat.eqb_neq in H0]; lia.
  - eexists _, _. split; [|split; [done|split; [|done]]].
    + cbn. by norm_log.
    + apply Nat.eqb_neq in Hfull. lia.
Qed.

(** C1.  For every vector and every sequence of appends in which no
    allocation and no relocation fails: after the first [k] appends the size
    has grown by [k], one per append, and the elements are the previous ones,
    unchanged and in place, followed by the [k] appended values in order, so
    the value appended last is in slot [size - 1]. *)
Theorem append_sequence (v : Vector T) (ys : list T) :
  invariant v = true ->
  (forall n, alloc_fails n = false) ->
  relocation_ok (contents v ++ ys) = true ->
  forall k, k <= length ys ->
    exists v' log,
      PushBack_all (take k ys) v = Ok tt v' log /\
      invariant v' = true /\
      size_ v' = size_ v + k /\
      contents v' = contents v ++ take k ys /\
      (forall i x, contents v !! i = Some x -> contents v' !! i = Some x) /\
      (forall y, last (take k ys) = Some y -> contents v' !! (size_ v' - 1) = Some y).
Proof.
  intros Hv Ha Hr k Hk.
  apply invariant_spec in Hv as (xs & cap & Hle & ->).
  rewrite contents_vec in *. cbn [size_ vec] in *.
  assert (Hrun : exists cap' log,
    PushBack_all (take k ys) (vec xs cap) = Ok tt (vec (xs ++ take k ys) cap') log /\
    length (xs ++ take k ys) <= cap').
  { rewrite <- (take_drop k ys), app_assoc, relocation_ok_app in Hr.
    apply andb_prop in Hr as [Hr _].
    generalize dependent (take k ys). clear k Hk ys. intros ys.
    revert xs cap Hle. induction ys as [|y ys IH]; intros xs cap Hle Hr.
    - exists cap, []. rewrite app_nil_r. by split.
    - rewrite (snoc_middle xs) in Hr.
      pose proof Hr as Hr'. rewrite relocation_ok_app in Hr'.
      apply andb_prop in Hr' as [Hr' _].
      rewrite relocation_ok_app in Hr'. apply andb_prop in Hr' as [Hxs _].
      destruct (PushBack_value xs cap y Hle (Ha _) Hxs) as (c1 & l1 & Hp & _ & Hle1 & _).
      destruct (IH (xs ++ [y]) c1 Hle1 Hr) as (c2 & l2 & Hrest & Hle2).
      exists c2, (l1 ++ l2). rewrite (snoc_middle xs). split; [|done].
      cbn [PushBack_all]. unfold bind at 1. rewrite Hp, Hrest. done. }
  destruct Hrun as (cap' & log & Hrun & Hle').
  exists (vec (xs ++ take k ys) cap'), log.
  rewrite contents_vec. cbn [size_ vec]. rewrite length_app, length_take.
  split; [done|]. split; [by apply invariant_vec|].
  split; [lia|]. split; [done|]. split.
  - intros i x Hx. by apply lookup_app_l_Some.
  - intros y Hy. rewrite last_lookup, length_take in Hy.
    destruct k as [|k]; [done|].
    rewrite lookup_app_r by lia.
    replace (length xs + S k `min` length ys - 1 - length xs)
      with (Init.Nat.pred (S k `min` length ys)) by lia.
    exact Hy.
Qed.
End Append.

(** ** The reference returned by [EmplaceBack], growth, and [Reserve] *)

Section Growth.
Context {T : Type} `{!Element T} `{!Allocator}.

Lemma element_vec (xs : list T) cap i x :
  length xs <= cap -> xs !! i = Some x ->
  element i (vec xs cap) = Ok x (vec xs cap) [].
Proof.
  intros Hle Hx. pose proof (lookup_lt_Some _ _ _ Hx) as Hi.
  unfold element, bind at 1, subscript, bind at 1, get.
  unfold bind at 1, assert. cbn [vec size_ data_ capacity_].
  replace (i <? length xs) with true by (symmetry; apply Nat.ltb_lt; lia).
  unfold ret at 1, RawMemory_at, bind at 1, assert. cbn [capacity_ app].
  replace (i <? cap) with true by (symmetry; apply Nat.ltb_lt; lia).
  unfold ret at 1 2. cbn [app].
  unfold in_data, zoom. cbn [data_ buffer_ vec].
  rewrite (load_live xs _ i x Hx). unfold vec, set_data, set_buffer. done.
Qed.

Lemma element_vec_in (xs : list T) k cap i x :
  length xs <= cap -> xs !! i = Some x ->
  element i (vec_in xs k cap) = Ok x (vec_in xs k cap) [].
Proof.
  intros Hle Hx. pose proof (lookup_lt_Some _ _ _ Hx) as Hi.
  unfold element, bind at 1, subscript, bind at 1, get.
  unfold bind at 1, assert. cbn [vec_in size_ data_ capacity_].
  replace (i <? length xs) with true by (symmetry; apply Nat.ltb_lt; lia).
  unfold ret at 1, RawMemory_at, bind at 1, assert. cbn [capacity_ app].
  replace (i <? cap) with true by (symmetry; apply Nat.ltb_lt; lia).
  unfold ret at 1 2. cbn [app].
  unfold in_data, zoom. cbn [data_ buffer_ vec_in].
  rewrite (load_live xs _ i x Hx). unfold vec_in, set_data, set_buffer. done.
Qed.

Lemma grown_max size : grown size size = Nat.max 1 (size * 2).
Proof. unfold grown. destruct size; [done|]. cbn [Nat.eqb]. lia. Qed.

Lemma construct_by_value (b : list (slot T)) y :
  construct (ByValue y) b = Ok y b [EvConstruct y].
Proof. done. Qed.

(** what a call of [EmplaceBack] that returns has done *)
Lemma EmplaceBack_returned args (xs : list T) cap r v' log :
  length xs <= cap -> wraps (grown (length xs) cap) = false ->
  EmplaceBack args (vec xs cap) = Ok r v' log ->
  exists x lc,
    construct args (buffer_ (data_ (vec xs cap)))
      = Ok x (buffer_ (data_ (vec xs cap))) lc /\
    r = length xs /\
    v' = vec (xs ++ [x]) (if length xs =? cap then grown (length xs) cap else cap) /\
    (if length xs =? cap
     then log = EvAllocate (grown (length xs) cap) :: lc ++ relocation_log xs ++
                (EvDestroy <$> relocated_from xs) ++ [EvDeallocate []]
     else log = lc).
Proof.
  intros Hle Hw. rewrite EmplaceBack_spec by done.
  rewrite (construct_state args).
  destruct (length xs =? cap).
  - destruct (alloc_fails _); [done|].
    destruct (construct args _) as [x b lc| |]; [|done|done].
    destruct (relocation_ok xs); [|done].
    intros [= <- <- <-]. by exists x, lc.
  - destruct (construct args _) as [x b lc| |]; [|done|done].
    intros [= <- <- <-]. by exists x, lc.
Qed.

(** the same for whatever block the allocation delivers: the new vector has
    the declared capacity and a block of [k] slots, enough for the old
    elements and the new one *)
Lemma EmplaceBack_returned_in args (xs : list T) cap r v' log :
  length xs <= cap ->
  EmplaceBack args (vec xs cap) = Ok r v' log ->
  exists x lc k,
    construct args (buffer_ (data_ (vec xs cap)))
      = Ok x (buffer_ (data_ (vec xs cap))) lc /\
    r = length xs /\
    v' = vec_in (xs ++ [x]) k
           (if length xs =? cap then grown (length xs) cap else cap) /\
    length xs < k /\
    (length xs < cap -> k = cap).
Proof.
  intros Hle. rewrite (construct_state args).
  destruct (decide (length xs = cap)) as [<-|Hne].
  - rewrite Nat.eqb_refl.
    destruct (operator_new (grown (length xs) (length xs))) as [|k] eqn:Hnew.
    { by rewrite EmplaceBack_full_throws. }
    pose proof (EmplaceBack_full_block args xs k) as Hrun. cbn zeta in Hrun.
    rewrite Hrun by done. rewrite (construct_state args).
    destruct (construct args _) as [x b lc| |]; [|done|done].
    destruct (length xs <? k) eqn:Hk; [apply Nat.ltb_lt in Hk|done].
    destruct (relocation_ok xs); [|done].
    intros [= <- <- <-]. exists x, lc, k. repeat split; [done|lia].
  - rewrite EmplaceBack_room by lia. rewrite (construct_state args).
    replace (length xs =? cap) with false by (symmetry; by apply Nat.eqb_neq).
    destruct (construct args _) as [x b lc| |]; [|done|done].
    intros [= <- <- <-]. exists x, lc, cap. repeat split; lia.
Qed.

(** C10.  [EmplaceBack] returns a reference to the element it has just
    appended.  Whenever it returns, on the path with room as on the path that
    reallocates, the reference names slot [size - 1] of the vector after the
    call, and that slot holds the new element; and it does return when the
    allocation and the relocation it may need do not fail. *)
Theorem EmplaceBack_returns_last args (v : Vector T) :
  invariant v = true ->
  (forall r v' log,
     EmplaceBack args v = Ok r v' log ->
     r = size_ v' - 1 /\
     size_ v' = size_ v + 1 /\
     exists x,
       contents v' = contents v ++ [x] /\
       element r v' = Ok x v' [] /\
       (forall y, args = ByValue y -> x = y)) /\
  (forall y,
     args = ByValue y ->
     alloc_fails (grown (size_ v) (Capacity v)) = false ->
     relocation_ok (contents v) = true ->
     exists v' log, EmplaceBack args v = Ok (size_ v) v' log).
Proof.
  intros (xs & cap & Hle & ->)%invariant_spec. split.
  - intros r v' log Hrun.
    apply EmplaceBack_returned_in in Hrun as (x & lc & k & Hc & -> & -> & Hk & _);
      [|done].
    rewrite contents_vec, contents_vec_in. cbn [vec vec_in size_].
    rewrite length_app. cbn [length].
    split; [lia|]. split; [done|]. exists x. split; [done|]. split.
    + apply element_vec_in.
      * rewrite length_app. cbn [length].
        destruct (length xs =? cap) eqn:Hfull.
        -- apply Nat.eqb_eq in Hfull. subst cap. rewrite grown_max. lia.
        -- apply Nat.eqb_neq in Hfull. lia.
      * by apply list_lookup_middle.
    + intros y ->. cbn in Hc. congruence.
  - intros y -> Ha Hr. rewrite contents_vec in Hr.
    cbn [vec size_ Capacity RawMemory_Capacity data_ capacity_] in Ha |- *.
    destruct (PushBack_value xs cap y Hle Ha Hr) as (cap' & log & _ & Hrun & _).
    by eexists _, _.
Qed.

(** what a call of [Emplace] that finds the block full and returns has
    done *)
Lemma Emplace_full_returned position args (xs : list T) r v' log :
  position <= length xs -> wraps (grown (length xs) (length xs)) = false ->
  Emplace position args (vec xs (length xs)) = Ok r v' log ->
  exists x l',
    v' = vec (take position xs ++ x :: drop position xs)
             (grown (length xs) (length xs)) /\
    r = position /\
    log = EvAllocate (grown (length xs) (length xs)) :: l'.
Proof.
  intros Hpos Hw. destruct (decide (position = length xs)) as [->|Hne].
  - rewrite Emplace_end by done. intros Hrun.
    apply EmplaceBack_returned in Hrun as (x & lc & _ & -> & -> & Hlog);
      [|done|done].
    rewrite Nat.eqb_refl in *. rewrite take_ge, drop_ge by lia.
    by eexists x, _.
  - rewrite Emplace_middle by done. cbn [vec size_ Capacity RawMemory_Capacity data_ capacity_].
    rewrite Nat.ltb_irrefl.
    pose proof (EmplaceNoCapacity_spec args (take position xs) (drop position xs)) as Hspec.
    cbn zeta in Hspec. rewrite take_drop, length_take in Hspec.
    replace (position `min` length xs) with position in Hspec by lia.
    rewrite Hspec by done. clear Hspec.
    destruct (alloc_fails _); [done|].
    destruct (construct args _) as [x b lc| |]; [|done|done].
    do 2 (destruct (relocation_ok _); [|done]).
    intros [= <- <- <-]. by eexists x, _.
Qed.

(** the same for whatever block the allocation delivers *)
Lemma Emplace_full_returned_in position args (xs : list T) r v' log :
  position <= length xs ->
  Emplace position args (vec xs (length xs)) = Ok r v' log ->
  exists x l' k,
    v' = vec_in (take position xs ++ x :: drop position xs) k
           (grown (length xs) (length xs)) /\
    r = position /\
    log = EvAllocate (grown (length xs) (length xs)) :: l' /\
    length xs < k /\
    operator_new (grown (length xs) (length xs)) = NewBlock k.
Proof.
  intros Hpos. destruct (decide (position = length xs)) as [->|Hne].
  - rewrite Emplace_end by done.
    destruct (operator_new (grown (length xs) (length xs))) as [|k] eqn:Hnew.
    { by rewrite EmplaceBack_full_throws. }
    pose proof (EmplaceBack_full_block args xs k) as Hrun. cbn zeta in Hrun.
    rewrite Hrun by done.
    destruct (construct args _) as [x b lc| |]; [|done|done].
    destruct (length xs <? k) eqn:Hk; [apply Nat.ltb_lt in Hk|done].
    destruct (relocation_ok xs); [|done].
    intros [= <- <- <-]. rewrite take_ge, drop_ge by lia.
    by eexists x, _, k.
  - rewrite Emplace_middle by done. cbn [vec size_ Capacity RawMemory_Capacity data_ capacity_].
    rewrite Nat.ltb_irrefl.
    destruct (operator_new (grown (length xs) (length xs))) as [|k] eqn:Hnew.
    { pose proof (EmplaceNoCapacity_throws args (take position xs)
                    (drop position xs)) as Hspec.
      cbn zeta in Hspec. rewrite take_drop, length_take in Hspec.
      replace (position `min` length xs) with position in Hspec by lia.
      by rewrite Hspec. }
    pose proof (EmplaceNoCapacity_block args (take position xs) (drop position xs) k)
      as Hspec.
    cbn zeta in Hspec. rewrite take_drop, length_take in Hspec.
    replace (position `min` length xs) with position in Hspec by lia.
    rewrite Hspec by done. clear Hspec.
    destruct (construct args _) as [x b lc| |]; [|done|done].
    destruct (position <? k); [|done].
    destruct (relocation_ok (take position xs)); [|done].
    destruct (relocation_ok (drop position xs)); [|by destruct (_ || _)].
    destruct (length xs <? k) eqn:Hk; [apply Nat.ltb_lt in Hk|done].
    intros [= <- <- <-]. by eexists x, _, k.
Qed.

(** C3.  When an append or a positional insert finds [size == capacity],
    the block it acquires, and with it the capacity after the call, has
    [max(1, size * 2)] slots; five appends to an empty vector leave the
    capacities 1, 2, 4, 4, 8. *)
Theorem growth_is_geometric (v : Vector T) position args (a b c d e : T) :
  invariant v = true ->
  size_ v = Capacity v ->
  position <= size_ v ->
  (forall n, alloc_fails n = false) ->
  relocation_ok [a; b; c; d] = true ->
  (forall r v' log,
     EmplaceBack args v = Ok r v' log ->
     Capacity v' = Nat.max 1 (size_ v * 2) /\
     exists l', log = EvAllocate (Nat.max 1 (size_ v * 2)) :: l') /\
  (forall r v' log,
     Emplace position args v = Ok r v' log ->
     Capacity v' = Nat.max 1 (size_ v * 2) /\
     exists l', log = EvAllocate (Nat.max 1 (size_ v * 2)) :: l') /\
  (forall x, relocation_ok (contents v) = true ->
     exists v' log,
       EmplaceBack (ByValue x) v = Ok (size_ v) v' log /\
       Capacity v' = Nat.max 1 (size_ v * 2)) /\
  (forall x, relocation_ok (contents v) = true ->
     exists v' log,
       Emplace position (ByValue x) v = Ok position v' log /\
       Capacity v' = Nat.max 1 (size_ v * 2)) /\
  append_capacities [a; b; c; d; e] Vector_default = Some [1; 2; 4; 4; 8].
Proof.
  intros (xs & cap & Hle & ->)%invariant_spec Hfull Hpos Ha Hr.
  cbn [vec size_ Capacity RawMemory_Capacity data_ capacity_] in Hfull, Hpos.
  subst cap. rewrite contents_vec. cbn [vec size_].
  rewrite <- grown_max.
  split; [|split; [|split; [|split]]].
  - intros r v' log Hrun.
    apply EmplaceBack_returned in Hrun as (x & lc & _ & -> & -> & Hlog);
      [|done|by apply alloc_fails_wraps].
    rewrite Nat.eqb_refl in *. split; [done|]. by eexists.
  - intros r v' log Hrun.
    apply Emplace_full_returned in Hrun as (x & l' & -> & -> & ->);
      [|done|by apply alloc_fails_wraps].
    split; [done|]. by eexists.
  - intros x Hxs.
    destruct (PushBack_value xs (length xs) x Hle (Ha _) Hxs)
      as (cap' & log & _ & Hrun & _ & ->).
    rewrite Nat.eqb_refl in Hrun. by eexists _, _.
  - intros x Hxs. destruct (decide (position = length xs)) as [->|Hne].
    + rewrite Emplace_end by done.
      destruct (PushBack_value xs (length xs) x Hle (Ha _) Hxs)
        as (cap' & log & _ & Hrun & _ & ->).
      rewrite Nat.eqb_refl in Hrun. by eexists _, _.
    + rewrite Emplace_middle by done.
      cbn [vec size_ Capacity RawMemory_Capacity data_ capacity_].
      rewrite Nat.ltb_irrefl.
      pose proof (EmplaceNoCapacity_spec (ByValue x) (take position xs)
                    (drop position xs)) as Hspec.
      cbn zeta in Hspec. rewrite take_drop, length_take in Hspec.
      replace (position `min` length xs) with position in Hspec by lia.
      rewrite Hspec by (by apply alloc_fails_wraps). clear Hspec.
      rewrite Ha, construct_by_value.
      rewrite <- (take_drop position xs), relocation_ok_app in Hxs.
      apply andb_prop in Hxs as [-> ->]. by eexists _, _.
  - assert (Hstep : forall (ys zs : list T) cap cap' y,
      length ys <= cap -> relocation_ok ys = true ->
      zs = ys ++ [y] ->
      cap' = (if length ys =? cap then grown (length ys) cap else cap) ->
      exists log, PushBack (ByValue y) (vec ys cap) = Ok tt (vec zs cap') log).
    { intros ys zs cap cap' y Hys Hok -> ->.
      destruct (PushBack_value ys cap y Hys (Ha _) Hok) as (c' & l & Hp & _ & _ & ->).
      by exists l. }
    assert (Hsub : forall ys zs, ys ++ zs = [a; b; c; d] -> relocation_ok ys = true).
    { intros ys zs Heq. rewrite <- Heq, relocation_ok_app in Hr.
      by apply andb_prop in Hr as [? _]. }
    change (@Vector_default T) with (vec (@nil T) 0).
    cbn [append_capacities].
    destruct (Hstep [] [a] 0 1 a) as [l1 ->];
      [done|by apply (Hsub [] [a;b;c;d])|done|done|].
    destruct (Hstep [a] [a;b] 1 2 b) as [l2 ->];
      [done|by apply (Hsub [a] [b;c;d])|done|done|].
    destruct (Hstep [a;b] [a;b;c] 2 4 c) as [l3 ->];
      [done|by apply (Hsub [a;b] [c;d])|done|done|].
    destruct (Hstep [a;b;c] [a;b;c;d] 4 4 d) as [l4 ->];
      [cbn; lia|by apply (Hsub [a;b;c] [d])|done|done|].
    destruct (Hstep [a;b;c;d] [a;b;c;d;e] 4 8 e) as [l5 ->];
      [done|by apply (Hsub [a;b;c;d] [])|done|done|].
    done.
Qed.

(** what a call of [Reserve] beyond the capacity that returns has done,
    for whatever block the allocation delivers *)
Lemma Reserve_returned_in (xs : list T) cap n v' log :
  length xs <= cap -> cap < n ->
  Reserve n (vec xs cap) = Ok tt v' log ->
  exists k, v' = vec_in xs k n /\ length xs <= k /\ k <= n /\
            operator_new n = NewBlock k.
Proof.
  intros Hle Hn. destruct (operator_new n) as [|k] eqn:Hnew.
  { by rewrite Reserve_throws. }
  rewrite (Reserve_block xs cap n k) by done.
  destruct (relocation_ok xs); [|by destruct (_ || _)].
  destruct (length xs <=? k) eqn:Hk; [apply Nat.leb_le in Hk|done].
  intros [= <- <-]. exists k. repeat split; [done|].
  by apply operator_new_le.
Qed.

End Growth.

(** ** The relocation strategy, and insertion followed by erasure *)

Section Relocation.
Context {T : Type} `{!Element T} `{!Allocator}.

Lemma spec_relocation_events_eq xs :
  relocation_ok xs = true ->
  relocation_log xs ++ (EvDestroy <$> relocated_from xs) = spec_relocation_events xs.
Proof.
  unfold relocation_ok, relocation_log, relocated_from, spec_relocation_events,
    relocate_by_move.
  destruct (is_nothrow_move_constructible || negb is_copy_constructible); [|done].
  intros Hok. by rewrite after_moves_ok.
Qed.

Lemma relocated_from_ok_app pre suf :
  relocation_ok pre = true -> relocation_ok suf = true ->
  relocated_from pre ++ relocated_from suf = relocated_from (pre ++ suf).
Proof.
  unfold relocation_ok, relocated_from. destruct relocate_by_move; [|done].
  intros Hp Hs. rewrite !after_moves_ok, ?fmap_app; try done.
  by rewrite none_throws_app, Hp, Hs.
Qed.

Lemma relocation_log_app pre suf :
  relocation_log pre ++ relocation_log suf = relocation_log (pre ++ suf).
Proof. unfold relocation_log. destruct relocate_by_move; by rewrite fmap_app. Qed.

Lemma relocated_from_copy xs : relocate_by_move = false -> relocated_from xs = xs.
Proof. unfold relocated_from. by intros ->. Qed.

(** C4.  [Reserve], an append that grows and a positional insert that grows
    relocate the elements [xs] the same way.  When the move constructor is
    [noexcept] or the type has no copy constructor, every element is
    move-constructed into the new block, first to last, and then the
    moved-from originals are destroyed.  Otherwise every element is
    copy-constructed, first to last, and then the originals are destroyed;
    when one of the copies throws the originals are all still in place. *)
Theorem relocation_strategy (pre suf : list T) cap n x :
  let xs := pre ++ suf in
  let g := grown (length xs) (length xs) in
  suf <> [] ->
  length xs <= cap -> cap < n ->
  (forall m, alloc_fails m = false) ->
  (relocation_ok xs = true ->
     Reserve n (vec xs cap)
       = Ok tt (vec xs n)
           (EvAllocate n :: spec_relocation_events xs ++ [EvDeallocate []]) /\
     EmplaceBack (ByValue x) (vec xs (length xs))
       = Ok (length xs) (vec (xs ++ [x]) g)
           (EvAllocate g :: EvConstruct x :: spec_relocation_events xs ++
            [EvDeallocate []]) /\
     Emplace (length pre) (ByValue x) (vec xs (length xs))
       = Ok (length pre) (vec (pre ++ x :: suf) g)
           (EvAllocate g :: EvConstruct x :: spec_relocation_events xs ++
            [EvDeallocate []])) /\
  (is_nothrow_move_constructible || negb is_copy_constructible = false ->
   relocation_ok xs = false ->
     exists l1 l2 l3,
       Reserve n (vec xs cap) = Throw (vec xs cap) l1 /\
       EmplaceBack (ByValue x) (vec xs (length xs)) = Throw (vec xs (length xs)) l2 /\
       Emplace (length pre) (ByValue x) (vec xs (length xs))
         = Throw (vec xs (length xs)) l3).
Proof.
  intros xs g Hsuf Hle Hn Ha.
  assert (Hmid : length pre <> length xs).
  { unfold xs. rewrite length_app. destruct suf; [done|]. cbn [length]. lia. }
  assert (Hw : forall m, wraps m = false) by (intros m; by apply alloc_fails_wraps).
  rewrite Reserve_spec, EmplaceBack_spec, Emplace_middle by done.
  cbn [vec size_ Capacity RawMemory_Capacity data_ capacity_].
  rewrite Nat.ltb_irrefl, Nat.eqb_refl.
  pose proof (EmplaceNoCapacity_spec (ByValue x) pre suf) as Hins.
  cbn zeta in Hins. fold xs in Hins. fold g in Hins. rewrite Hins by done.
  clear Hins.
  fold g. rewrite !Ha, !construct_by_value.
  replace (n <=? cap) with false by (symmetry; apply Nat.leb_gt; lia).
  split.
  - intros Hok. pose proof Hok as Hok'. unfold xs in Hok'.
    rewrite relocation_ok_app in Hok'. apply andb_prop in Hok' as [Hp Hs].
    rewrite Hok, Hp, Hs. rewrite <- spec_relocation_events_eq by done.
    rewrite relocated_from_ok_app by done. fold xs.
    rewrite (app_assoc (relocation_log pre)), relocation_log_app. fold xs.
    cbn [app]. by norm_log.
  - intros Hcopy Hok. fold relocate_by_move in Hcopy.
    rewrite Hok, !relocated_from_copy by done. fold xs.
    unfold xs in Hok. rewrite relocation_ok_app in Hok.
    destruct (relocation_ok pre); [cbn [andb] in Hok; rewrite Hok|];
      by eexists _, _, _.
Qed.

Lemma none_throws_never (f : T -> bool) xs :
  (forall y, f y = false) -> none_throws f xs = true.
Proof.
  intros Hf. unfold none_throws. apply forallb_forall. intros y _. by rewrite Hf.
Qed.

Lemma relocation_ok_never xs :
  (forall y, copy_ctor_throws y = false) -> (forall y, move_ctor_throws y = false) ->
  relocation_ok xs = true.
Proof.
  intros Hc Hm. unfold relocation_ok.
  destruct relocate_by_move; by apply none_throws_never.
Qed.

Lemma shift_ok_never t ys :
  (forall t y, move_assign_throws t y = false) -> shift_ok t ys = true.
Proof.
  intros Hf. revert t. induction ys as [|y ys IH]; intros t; [done|].
  cbn [shift_ok]. by rewrite Hf, IH.
Qed.

(** The round trip of the specification for a value [x] that is passed
    independently of the container: in a container holding [a, b, c],
    whatever its capacity, inserting [x] at position 1 gives [a, x, b, c]
    with size 4, and erasing position 1 of the result gives [a, b, c] with
    size 3 again. *)
Theorem insert_erase_roundtrip (v : Vector T) (a b c x : T) :
  invariant v = true ->
  contents v = [a; b; c] ->
  (forall m, alloc_fails m = false) ->
  (forall y, copy_ctor_throws y = false) ->
  (forall y, move_ctor_throws y = false) ->
  (forall t y, move_assign_throws t y = false) ->
  exists v1 log1 v2 log2,
    Insert (begin_ v + 1) (ByValue x) v = Ok (begin_ v + 1) v1 log1 /\
    invariant v1 = true /\ contents v1 = [a; x; b; c] /\ size_ v1 = 4 /\
    Erase (begin_ v1 + 1) v1 = Ok (begin_ v1 + 1) v2 log2 /\
    invariant v2 = true /\ contents v2 = [a; b; c] /\ size_ v2 = 3.
Proof.
  intros (xs & cap & Hle & ->)%invariant_spec Hxs Ha Hc Hm Hs.
  rewrite contents_vec in Hxs. subst xs. cbn [length] in Hle.
  unfold begin_, GetAddress. cbn [Nat.add].
  assert (Herase : forall cap', 4 <= cap' ->
    Erase 1 (vec [a; x; b; c] cap')
    = Ok 1 (vec [a; b; c] cap')
        (shift_log x [b; c] ++ [EvDestroy (shift_last x [b; c])])).
  { intros cap' Hcap'. apply (Erase_spec [a] x [b; c] cap'); [done|].
    by apply shift_ok_never. }
  unfold Insert. rewrite Emplace_middle by (cbn; lia).
  cbn [vec size_ Capacity RawMemory_Capacity data_ capacity_ length].
  destruct (3 <? cap) eqn:Hroom.
  - apply Nat.ltb_lt in Hroom.
    pose proof (EmplaceEnoughtCapacity_spec (ByValue x) [a] [b] c cap) as Hins.
    cbn zeta in Hins. cbn [length app] in Hins.
    rewrite construct_by_value, Hs in Hins.
    rewrite Hins; [|done|done|by apply shift_ok_never].
    eexists _, _, _, _. split; [done|].
    split; [apply invariant_vec; cbn [length]; lia|].
    split; [apply contents_vec|]. split; [done|].
    split; [apply Herase; lia|].
    split; [apply invariant_vec; cbn [length]; lia|].
    split; [apply contents_vec|done].
  - apply Nat.ltb_ge in Hroom. assert (cap = 3) as -> by lia.
    pose proof (EmplaceNoCapacity_spec (ByValue x) [a] [b; c]) as Hins.
    cbn zeta in Hins. cbn [length app] in Hins.
    rewrite construct_by_value, Ha in Hins.
    rewrite !relocation_ok_never in Hins by done.
    rewrite Hins by (by apply alloc_fails_wraps).
    eexists _, _, _, _. split; [done|].
    split; [apply invariant_vec; cbn; lia|].
    split; [apply contents_vec|]. split; [done|].
    split; [apply Herase; cbn; lia|].
    split; [apply invariant_vec; cbn; lia|].
    split; [apply contents_vec|done].
Qed.
End Relocation.

(** ** Moving and assigning whole vectors *)

Section Assignment.
Context {T : Type} `{!Element T} `{!Allocator}.

Lemma relocation_ok_nil : relocation_ok (@nil T) = true.
Proof. unfold relocation_ok. by destruct relocate_by_move. Qed.

Lemma Swap_spec (a b : Vector T) : Swap (a, b) = Ok tt (b, a) [].
Proof. by destruct a as [[? ?] ?], b as [[? ?] ?]. Qed.

Lemma Vector_move_spec (other : Vector T) :
  Vector_move other = Ok other Vector_default [].
Proof. unfold Vector_move. by rewrite Swap_spec. Qed.

Lemma Vector_dtor_spec (xs : list T) cap :
  length xs <= cap ->
  Vector_dtor (vec xs cap)
  = Ok tt {| data_ := {| buffer_ := replicate cap Raw; capacity_ := cap |};
             size_ := length xs |}
      ((EvDestroy <$> xs) ++ [EvDeallocate []]).
Proof.
  intros Hle. unfold Vector_dtor, bind at 1, get.
  unfold bind at 1, in_data at 1, zoom at 1. unfold vec at 1 2 3 4.
  norm_state.
  rew (destroy_n_at [] (replicate (cap - length xs) Raw) xs (length xs) eq_refl).
  unfold zoom, RawMemory_dtor, bind, get, Deallocate, emit. norm_state.
  rewrite live_objects_app, !live_objects_raw, <- replicate_add.
  cbn [size_].
  by replace (length xs + (cap - length xs)) with cap by lia.
Qed.

(** C9.  Assigning a vector to itself, by copy or by move, changes nothing:
    both operators return at once when their operand is the object
    itself. *)
Theorem self_assignment (st : gmap nat (Vector T)) (a : nat) (v : Vector T) :
  st !! a = Some v ->
  copy_assign a a st = Ok tt st [] /\ move_assign a a st = Ok tt st [].
Proof.
  intros Hv. unfold copy_assign, move_assign.
  destruct (decide (a = a)) as [_|Hne]; [|done].
  unfold bind, object_at. by rewrite Hv.
Qed.

Lemma move_assign_spec (st : gmap nat (Vector T)) this rhs vt vr :
  this <> rhs -> st !! this = Some vt -> st !! rhs = Some vr ->
  move_assign this rhs st = Ok tt (<[rhs := vt]> (<[this := vr]> st)) [].
Proof.
  intros Hne Ht Hr. unfold move_assign.
  destruct (decide (this = rhs)); [done|].
  unfold at2. by rewrite Ht, Hr, Swap_spec.
Qed.

Lemma move_construct_spec (st : gmap nat (Vector T)) this other vo :
  st !! this = None -> st !! other = Some vo ->
  move_construct this other st
  = Ok tt (<[this := vo]> (<[other := Vector_default]> st)) [].
Proof.
  intros Ht Ho. unfold move_construct. by rewrite Ht, Ho, Vector_move_spec.
Qed.

(** C5, as the code has it.  After move construction the source is empty:
    size 0, no storage.  After move assignment to another object the source
    holds what the target held before, so its size is the size the target
    had.  Either way the source satisfies the invariant, its destructor runs,
    and an append to it works as on any vector. *)
Theorem moved_from_source (st : gmap nat (Vector T)) this other (vo : Vector T) :
  st !! other = Some vo ->
  this <> other ->
  (st !! this = None ->
     exists st',
       move_construct this other st = Ok tt st' [] /\
       st' !! this = Some vo /\
       st' !! other = Some Vector_default /\
       size_ (@Vector_default T) = 0 /\
       invariant (@Vector_default T) = true /\
       Vector_dtor (@Vector_default T) = Ok tt Vector_default [EvDeallocate []] /\
       forall x, alloc_fails 1 = false ->
         exists log, EmplaceBack (ByValue x) Vector_default = Ok 0 (vec [x] 1) log) /\
  (forall vt, st !! this = Some vt -> invariant vt = true ->
     exists st',
       move_assign this other st = Ok tt st' [] /\
       st' !! this = Some vo /\
       st' !! other = Some vt /\
       size_ vt = length (contents vt) /\
       invariant vt = true /\
       (exists v' log, Vector_dtor vt = Ok tt v' log) /\
       forall x,
         alloc_fails (grown (size_ vt) (Capacity vt)) = false ->
         relocation_ok (contents vt) = true ->
         exists v' log,
           EmplaceBack (ByValue x) vt = Ok (size_ vt) v' log /\
           contents v' = contents vt ++ [x]).
Proof.
  intros Ho Hne. split.
  - intros Ht. eexists. split; [by apply move_construct_spec|].
    rewrite lookup_insert_eq, lookup_insert_ne, lookup_insert_eq by done.
    repeat split; try done.
    intros x Ha.
    change (@Vector_default T) with (vec (@nil T) 0).
    destruct (PushBack_value [] 0 x) as (c & l & _ & Hrun & _ & ->);
      [done|exact Ha|apply relocation_ok_nil|].
    by exists l.
  - intros vt Ht Hvt. eexists. split; [by apply move_assign_spec|].
    rewrite lookup_insert_eq, lookup_insert_ne, lookup_insert_eq by done.
    pose proof Hvt as (xs & cap & Hle & ->)%invariant_spec.
    rewrite contents_vec. cbn [vec size_ Capacity RawMemory_Capacity data_ capacity_].
    repeat split; try done.
    + eexists _, _. by apply Vector_dtor_spec.
    + intros x Ha Hr.
      destruct (PushBack_value xs cap x) as (c & l & _ & Hrun & _ & ->); [done..|].
      eexists _, l. split; [exact Hrun|]. apply contents_vec.
Qed.
End Assignment.

(** ** What a failed call leaves behind *)

Section Failure.
Context {T : Type} `{!Element T} `{!Allocator}.

Lemma constructing_throw_state {S} init body (s s' : S) (v : Vector T) l :
  (forall d s1 l1, init s = Ok d s1 l1 -> s1 = s) ->
  (forall s1 l1, init s = Throw s1 l1 -> s1 = s) ->
  (constructing init body s = Throw s' l -> s' = s) /\
  (forall l', constructing init body s = Ok v s' l' -> s' = s).
Proof.
  intros Hok Hthrow. unfold constructing, bind.
  destruct (init s) as [d s1 l1|s1 l1|].
  - rewrite (Hok _ _ _ eq_refl).
    destruct (body d) as [n d' lb|d' lb|]; [| |done].
    + split; [done|]. by intros l' [= _ <- _].
    + destruct (RawMemory_dtor d') as [? ? ld| |]; [|done|done].
      split; [by intros [= <- _]|done].
  - rewrite (Hthrow _ _ eq_refl). split; [by intros [= <- _]|done].
  - done.
Qed.

Lemma RawMemory_ctor_state {S} n (s : S) :
  (forall d s1 l1, @RawMemory_ctor T _ S n s = Ok d s1 l1 -> s1 = s) /\
  (forall s1 l1, @RawMemory_ctor T _ S n s = Throw s1 l1 -> s1 = s).
Proof.
  unfold RawMemory_ctor, bind, Allocate.
  destruct (n =? 0); [by split; [intros ? ? ? [= _ <- _]|]|].
  destruct (operator_new n); [by split; [|intros ? ? [= <- _]]|].
  by split; [intros ? ? ? [= _ <- _]|].
Qed.

(** the copy constructor leaves the state it runs in as it was *)
Lemma Vector_copy_state {S} (other : Vector T) (s s' : S) v l :
  (Vector_copy other s = Throw s' l -> s' = s) /\
  (Vector_copy other s = Ok v s' l -> s' = s).
Proof.
  unfold Vector_copy.
  destruct (constructing_throw_state (RawMemory_ctor (size_ other))
    (zoom (fun d => (buffer_ (data_ other), buffer_ d))
          (fun bb d => set_buffer bb.2 d)
          (uninitialized_copy_n (GetAddress (data_ other)) (size_ other) 0) >>
     ret (size_ other)) s s' v l) as [H1 H2];
    [apply RawMemory_ctor_state..|].
  split; [exact H1|apply H2].
Qed.

(** the regrow path of copy assignment either returns or leaves both
    operands as they were *)
Lemma copy_assign_regrow_throw (this rhs : Vector T) s' l :
  RawMemory_Capacity (data_ this) < size_ rhs ->
  copy_assign_body (this, rhs) = Throw s' l -> s' = (this, rhs).
Proof.
  intros Hcap. unfold copy_assign_body, bind at 1, get. cbn [fst snd].
  replace (RawMemory_Capacity (data_ this) <? size_ rhs) with true
    by (symmetry; by apply Nat.ltb_lt).
  unfold scoped.
  destruct (Vector_copy rhs (this, rhs)) as [c s0 l0|s0 l0|] eqn:Hcopy.
  - unfold zoom. cbn [fst snd]. rewrite Swap_spec.
    destruct (Vector_dtor _) as [? ? ?| |]; [| |done]; by destruct s0.
  - apply (Vector_copy_state rhs (this, rhs) s0 this l0) in Hcopy as ->.
    by intros [= <- _].
  - done.
Qed.

Lemma relocation_ok_nothrow xs :
  (relocate_by_move = true -> is_nothrow_move_constructible = true) ->
  relocation_ok xs = false -> relocated_from xs = xs.
Proof.
  unfold relocation_ok, relocated_from.
  destruct relocate_by_move; [|done]. intros Hn Hok.
  rewrite none_throws_never in Hok; [done|].
  apply nothrow_move_sound. by apply Hn.
Qed.
End Failure.

Section StrongGuarantee.
Context {T : Type} `{!Element T} `{!Allocator}.

Lemma traits_relocation :
  is_nothrow_move_constructible || is_copy_constructible = true ->
  relocate_by_move = true -> is_nothrow_move_constructible = true.
Proof.
  unfold relocate_by_move.
  by destruct is_nothrow_move_constructible, is_copy_constructible.
Qed.

(** C2, as the code has it.  For an element type with a [noexcept] move
    constructor or with a copy constructor, the operations that build the
    new contents in a block of their own give the strong guarantee: when
    [Reserve], an append, a positional insert that finds the block full, or a
    copy assignment from a longer vector exits by an exception (a failed
    allocation, a throwing constructor, a throwing copy), the container is
    the one it was before the call, with the same size, capacity and
    elements. *)
Theorem strong_guarantee_on_regrow (v : Vector T) :
  invariant v = true ->
  is_nothrow_move_constructible || is_copy_constructible = true ->
  (forall n v' log, Reserve n v = Throw v' log -> v' = v) /\
  (forall args v' log, EmplaceBack args v = Throw v' log -> v' = v) /\
  (forall position args v' log,
     size_ v = Capacity v -> position <= size_ v ->
     Emplace position args v = Throw v' log -> v' = v) /\
  (forall (st : gmap nat (Vector T)) this rhs vr st' log,
     st !! this = Some v -> st !! rhs = Some vr -> Capacity v < size_ vr ->
     copy_assign this rhs st = Throw st' log -> st' = st).
Proof.
  intros (xs & cap & Hle & ->)%invariant_spec Htraits.
  pose proof (traits_relocation Htraits) as Hmove.
  cbn [vec size_ Capacity RawMemory_Capacity data_ capacity_].
  assert (HEmplaceBack : forall args v' log,
    EmplaceBack args (vec xs cap) = Throw v' log -> v' = vec xs cap).
  { intros args v' log. destruct (decide (length xs = cap)) as [<-|Hne].
    - destruct (operator_new (grown (length xs) (length xs))) as [|k] eqn:Hnew.
      { rewrite EmplaceBack_full_throws by done. by intros [= <- _]. }
      pose proof (EmplaceBack_full_block args xs k) as Hrun. cbn zeta in Hrun.
      rewrite Hrun by done.
      destruct (construct args _) as [x b lc|b lc|]; [|by intros [= <- _]|done].
      destruct (length xs <? k); [|done].
      destruct (relocation_ok xs) eqn:Hok; [done|].
      rewrite relocation_ok_nothrow by done. by intros [= <- _].
    - rewrite EmplaceBack_room by lia.
      destruct (construct args _) as [x b lc|b lc|]; [done|by intros [= <- _]|done]. }
  split; [|split; [|split]].
  - intros n v' log. destruct (n <=? cap) eqn:Hn.
    { unfold Reserve, bind at 1, get.
      cbn [vec data_ capacity_ RawMemory_Capacity size_]. by rewrite Hn. }
    apply Nat.leb_gt in Hn.
    destruct (operator_new n) as [|k] eqn:Hnew.
    { rewrite Reserve_throws by done. by intros [= <- _]. }
    rewrite (Reserve_block xs cap n k) by done.
    destruct (relocation_ok xs) eqn:Hok; [by destruct (_ <=? _)|].
    rewrite relocation_ok_nothrow by done.
    destruct ((_ <=? _) || _); [by intros [= <- _]|done].
  - intros args v' log. by apply HEmplaceBack.
  - intros position args v' log <- Hpos.
    destruct (decide (position = length xs)) as [->|Hne].
    + rewrite Emplace_end by done. by apply HEmplaceBack.
    + rewrite Emplace_middle by done.
      cbn [vec size_ Capacity RawMemory_Capacity data_ capacity_].
      rewrite Nat.ltb_irrefl.
      destruct (operator_new (grown (length xs) (length xs))) as [|k] eqn:Hnew.
      { pose proof (EmplaceNoCapacity_throws args (take position xs)
                      (drop position xs)) as Hspec.
        cbn zeta in Hspec. rewrite take_drop, length_take in Hspec.
        replace (position `min` length xs) with position in Hspec by lia.
        rewrite Hspec by done. by intros [= <- _]. }
      pose proof (EmplaceNoCapacity_block args (take position xs) (drop position xs) k)
        as Hspec.
      cbn zeta in Hspec. rewrite take_drop, length_take in Hspec.
      replace (position `min` length xs) with position in Hspec by lia.
      rewrite Hspec by done. clear Hspec.
      destruct (construct args _) as [x b lc|b lc|]; [|by intros [= <- _]|done].
      destruct (position <? k); [|done].
      destruct (relocation_ok (take position xs)) eqn:Hp.
      * destruct (relocation_ok (drop position xs)) eqn:Hs;
          [by destruct (length xs <? k)|].
        rewrite (relocation_ok_nothrow (drop position xs)) by done.
        assert (relocated_from (take position xs) = take position xs) as ->.
        { unfold relocated_from, relocation_ok in *.
          destruct relocate_by_move; [|done].
          rewrite none_throws_never in Hs; [done|].
          apply nothrow_move_sound. by apply Hmove. }
        rewrite take_drop. destruct ((_ <? _) || _); [by intros [= <- _]|done].
      * rewrite relocation_ok_nothrow by done.
        rewrite take_drop. by intros [= <- _].
  - intros st this rhs vr st' log Ht Hr Hcap.
    unfold copy_assign. destruct (decide (this = rhs)) as [->|Hne].
    + unfold bind, object_at. by rewrite Ht.
    + unfold at2. rewrite Ht, Hr.
      destruct (copy_assign_body _) as [? ? ?|s l|] eqn:Hbody; [done| |done].
      apply copy_assign_regrow_throw in Hbody as ->; [|done].
      intros [= <- _]. cbn [fst snd].
      rewrite (insert_id st this) by done. by rewrite insert_id.
Qed.
End StrongGuarantee.

(** ** The invariant after a call that returns *)

Section Preservation.
Context {T : Type} `{!Element T} `{!Allocator}.

Local Abbreviation block := (list (slot T)).

Lemma move_backward_loop_throws (pre post : block) ys z :
  shift_ok z (reverse ys) = false ->
  is_Throw (move_backward_loop (length pre + length ys) (S (length pre + length ys))
              (length ys) (pre ++ (Live <$> ys) ++ Live z :: post)) = true.
Proof.
  revert post z. induction ys as [|y ys IH] using rev_ind; intros post z Hok; [done|].
  rewrite reverse_snoc in *. cbn [shift_ok] in Hok.
  rewrite length_app. cbn [length].
  replace (length ys + 1) with (S (length ys)) by lia.
  cbn [move_backward_loop].
  replace (length pre + S (length ys) - 1) with (length pre + length ys) by lia.
  replace (S (length pre + S (length ys)) - 1) with (S (length pre + length ys)) by lia.
  rewrite fmap_app, <- (app_assoc (Live <$> ys)). cbn [fmap list_fmap app].
  rewrite (app_assoc pre).
  unfold bind at 1.
  rewrite <- (length_fmap Live ys) at 1 2. rewrite <- length_app.
  rewrite move_assign_right.
  destruct (move_assign_throws z y); [done|].
  cbn [negb andb] in Hok.
  rewrite <- (app_assoc pre).
  specialize (IH (Live y :: post) (moved_from y) Hok).
  by destruct (move_backward_loop _ _ _ _).
Qed.

(** a list with a last element *)
Lemma list_last_split {A} (l : list A) : l <> [] -> exists l' z, l = l' ++ [z].
Proof.
  destruct l as [|x l] using rev_ind; [done|]. intros _. by exists l, x.
Qed.

(** what an in-place insert that returns has done *)
Lemma EmplaceEnoughtCapacity_returned args (pre suf : list T) cap r v' log :
  suf <> [] -> length (pre ++ suf) < cap ->
  EmplaceEnoughtCapacity (length pre) args (vec (pre ++ suf) cap) = Ok r v' log ->
  exists x, r = length pre /\ v' = vec (pre ++ x :: suf) cap.
Proof.
  intros (suf' & z & ->)%list_last_split Hlt.
  destruct (move_ctor_throws z) eqn:Hz.
  { (* the move of the last element throws before anything changes *)
    unfold vec at 1.
    unfold EmplaceEnoughtCapacity, bind at 1, get.
    rewrite !length_app in *. cbn [length] in *.
    unfold bind at 1. rewrite minus_checked_ok by (cbn [size_]; lia).
    unfold bind at 1, RawMemory_at, bind at 1, assert.
    cbn [size_ data_ capacity_].
    replace (length pre + (length suf' + 1) - 1 <? cap) with true
      by (symmetry; apply Nat.ltb_lt; lia).
    unfold ret at 1 2. cbn [app].
    unfold bind at 1, in_data at 1, zoom at 1. norm_state.
    unfold move_construct_from, bind at 1.
    rewrite !fmap_app, <- !app_assoc. cbn [fmap list_fmap app].
    rewrite (app_assoc (Live <$> pre) (Live <$> suf')).
    rewrite (load_at ((Live <$> pre) ++ (Live <$> suf'))) by len.
    by rewrite Hz. }
  destruct (shift_ok (moved_from z) (reverse suf')) eqn:Hshift.
  - pose proof (EmplaceEnoughtCapacity_spec args pre suf' z cap) as Hspec.
    cbn zeta in Hspec. rewrite Hspec by done. clear Hspec.
    destruct (construct args _) as [x b lc| |]; [|done|done].
    destruct (move_assign_throws _ x); [done|].
    intros [= <- <- _]. by exists x.
  - (* the shift throws *)
    unfold vec at 1.
    unfold EmplaceEnoughtCapacity, bind at 1, get.
    rewrite !length_app in *. cbn [length] in *.
    unfold bind at 1. rewrite minus_checked_ok by (cbn [size_]; lia).
    unfold bind at 1, RawMemory_at, bind at 1, assert.
    cbn [size_ data_ capacity_].
    replace (length pre + (length suf' + 1) - 1 <? cap) with true
      by (symmetry; apply Nat.ltb_lt; lia).
    unfold ret at 1 2. cbn [app].
    unfold bind at 1, in_data at 1, zoom at 1. norm_state.
    unfold move_construct_from, bind at 1.
    replace (replicate (cap - (length pre + (length suf' + 1))) (@Raw T))
      with (@Raw T :: replicate (cap - (length pre + (length suf' + 1)) - 1) Raw)
      by (rewrite <- replicate_S; f_equal; lia).
    rewrite !fmap_app, <- !app_assoc. cbn [fmap list_fmap app].
    rewrite (app_assoc (Live <$> pre) (Live <$> suf')).
    rewrite (load_at ((Live <$> pre) ++ (Live <$> suf'))) by len.
    rewrite Hz. unfold bind at 1.
    rewrite (store_at ((Live <$> pre) ++ (Live <$> suf'))) by len.
    unfold bind at 1, emit, ret. cbn [app].
    unfold bind at 1, in_data at 1, zoom at 1. norm_state.
    rewrite (snoc_middle _ _ (Live (moved_from z))).
    rewrite (place_at _ _ z) by len.
    unfold bind at 1. rewrite minus_checked_ok by lia.
    unfold bind at 1, in_data at 1, zoom at 1, std_move_backward. norm_state.
    replace (length pre <=? length pre + (length suf' + 1) - 1) with true
      by (symmetry; apply Nat.leb_le; lia).
    cbn [andb].
    match goal with
    | |- context [?a - ?b <=? ?c] =>
        replace (a - b <=? c) with true by (symmetry; apply Nat.leb_le; lia)
    end.
    rewrite <- !app_assoc. cbn [app].
    pose proof (move_backward_loop_throws (Live <$> pre)
                (Live z :: replicate (cap - S (length pre + length suf') - 1) Raw)
                suf' (moved_from z) Hshift) as Hrun.
    rewrite !length_fmap in Hrun.
    replace (length pre + (length suf' + 1) - 1) with (length pre + length suf') by lia.
    replace (length pre + (length suf' + 1)) with (S (length pre + length suf')) by lia.
    replace (S (length pre + length suf') - 1 - length pre) with (length suf') by lia.
    replace (S (length pre + length suf') - 1) with (length pre + length suf') by lia.
    replace (length pre + length suf' - length pre) with (length suf') by lia.
    revert Hrun. by destruct (move_backward_loop _ _ _ _).
Qed.

(** what an erase that returns has done *)
Lemma Erase_returned (pre suf : list T) x cap r v' log :
  length (pre ++ x :: suf) <= cap ->
  Erase (length pre) (vec (pre ++ x :: suf) cap) = Ok r v' log ->
  r = length pre /\ v' = vec (pre ++ suf) cap.
Proof.
  intros Hle. destruct (shift_ok x suf) eqn:Hshift.
  - rewrite Erase_spec by done. by intros [= <- <- _].
  - rewrite length_app in Hle. cbn [length] in Hle.
    rewrite vec_app, !length_app. cbn [length].
    unfold Erase, bind at 1, get. unfold bind at 1.
    rewrite minus_checked_ok by (unfold begin_, GetAddress; lia).
    norm_state. rewrite Nat.sub_0_r.
    unfold bind at 1, in_data at 1, zoom at 1, std_move. norm_state.
    replace (length pre + 1 <=? length pre + S (length suf)) with true
      by (symmetry; apply Nat.leb_le; lia).
    cbn [fmap list_fmap app].
    destruct (std_move_loop_throws (Live <$> pre)
                (replicate (cap - (length pre + S (length suf))) Raw) x suf Hshift)
      as (zs & l & _ & Hrun).
    rewrite length_fmap in Hrun.
    replace (length pre + 1) with (S (length pre)) by lia.
    replace (length pre + S (length suf) - S (length pre)) with (length suf) by lia.
    by rewrite Hrun.
Qed.

Lemma uninitialized_value_construct_n_spec (pre post : block) n :
  uninitialized_value_construct_n (length pre) n (pre ++ replicate n Raw ++ post)
  = match value_init with
    | Some x => Ok tt (pre ++ replicate n (Live x) ++ post)
                  (replicate n (EvValueInit x))
    | None => if n =? 0 then Ok tt (pre ++ post) []
              else Throw (pre ++ replicate n Raw ++ post) []
    end.
Proof.
  revert pre. induction n as [|n IH]; intros pre.
  - cbn. by destruct value_init.
  - cbn [uninitialized_value_construct_n replicate app Nat.eqb].
    destruct value_init as [x|] eqn:Hinit; [|done].
    unfold bind at 1. rewrite place_middle.
    unfold bind at 1, emit, on_throw. cbn [app].
    rewrite (snoc_middle pre), <- (length_snoc pre (Live x)), IH.
    by rewrite <- app_assoc.
Qed.

Lemma destroy_n_at' (pre post : block) xs i n :
  i = length pre -> n = length xs ->
  destroy_n i n (pre ++ (Live <$> xs) ++ post)
  = Ok tt (pre ++ replicate n Raw ++ post) (EvDestroy <$> xs).
Proof. intros -> ->. apply destroy_n_spec. Qed.

Lemma uninitialized_value_construct_n_at (pre post : block) n i :
  i = length pre ->
  uninitialized_value_construct_n i n (pre ++ replicate n Raw ++ post)
  = match value_init with
    | Some x => Ok tt (pre ++ replicate n (Live x) ++ post)
                  (replicate n (EvValueInit x))
    | None => if n =? 0 then Ok tt (pre ++ post) []
              else Throw (pre ++ replicate n Raw ++ post) []
    end.
Proof. intros ->. apply uninitialized_value_construct_n_spec. Qed.

Lemma uninitialized_value_construct_n_short (pre : block) j m i :
  i = length pre -> j < m ->
  uninitialized_value_construct_n i m (pre ++ replicate j Raw)
  = match value_init with
    | Some _ => Fault
    | None => Throw (pre ++ replicate j Raw) []
    end.
Proof.
  intros ->. revert pre m. induction j as [|j IH]; intros pre [|m] Hlt; try lia.
  - cbn [uninitialized_value_construct_n]. destruct value_init as [x|]; [|done].
    unfold bind at 1, place. cbn [replicate].
    by rewrite app_nil_r, lookup_ge_None_2 by lia.
  - cbn [uninitialized_value_construct_n replicate].
    destruct value_init as [x|] eqn:Hinit; [|done].
    unfold bind at 1. rewrite place_middle.
    unfold bind at 1, emit, on_throw. cbn [app].
    by rewrite (snoc_middle pre), <- (length_snoc pre (Live x)), IH by lia.
Qed.

(** the second half of [Resize] on a block that is shorter than the new
    size *)
Lemma Resize_tail_short (xs : list T) k n :
  length xs <= k -> k < n ->
  (let* v := get in
   (if size_ v <? n
    then in_data (uninitialized_value_construct_n
                    (GetAddress (data_ v) + size_ v) (n - Size v))
    else ret tt) >>
   (if n <? size_ v
    then in_data (destroy_n (GetAddress (data_ v) + n) (size_ v - n))
    else ret tt) >>
   modify (set_size n)) (vec_in xs k n)
  = match value_init with
    | Some _ => Fault
    | None => Throw (vec_in xs k n) []
    end.
Proof.
  intros Hk Hn. unfold bind at 1, get, Size, vec_in. norm_state.
  replace (length xs <? n) with true by (symmetry; apply Nat.ltb_lt; lia).
  unfold bind at 1, in_data at 1, zoom at 1. norm_state.
  rewrite (uninitialized_value_construct_n_short (Live <$> xs)) by len.
  by destruct value_init.
Qed.

Lemma Resize_tail (xs : list T) cap n v' log :
  length xs <= cap -> n <= cap ->
  (let* v := get in
   (if size_ v <? n
    then in_data (uninitialized_value_construct_n
                    (GetAddress (data_ v) + size_ v) (n - Size v))
    else ret tt) >>
   (if n <? size_ v
    then in_data (destroy_n (GetAddress (data_ v) + n) (size_ v - n))
    else ret tt) >>
   modify (set_size n)) (vec xs cap) = Ok tt v' log ->
  v' = vec (resized xs n) cap.
Proof.
  intros Hle Hn. set (R := vec (resized xs n) cap).
  unfold bind at 1, get, Size, vec. norm_state. subst R. unfold resized.
  destruct (lt_eq_lt_dec (length xs) n) as [[Hlt|Heq]|Hgt].
  - replace (length xs <? n) with true by (symmetry; by apply Nat.ltb_lt).
    replace (n <? length xs) with false by (symmetry; apply Nat.ltb_ge; lia).
    unfold bind at 1, in_data at 1, zoom at 1. norm_state.
    rewrite (replicate_split (cap - length xs) (n - length xs)) by lia.
    rewrite (uninitialized_value_construct_n_at (Live <$> xs)) by len.
    destruct value_init as [x|].
    + cbn. intros [= <- _]. rewrite take_ge by lia.
      apply (vec_eq (xs ++ replicate (n - length xs) x) _ cap (cap - n) n); [|len|len].
      rewrite fmap_app, fmap_replicate, <- app_assoc. do 3 f_equal. lia.
    + replace (n - length xs =? 0) with false by (symmetry; apply Nat.eqb_neq; lia).
      done.
  - rewrite <- Heq, Nat.ltb_irrefl. cbn. intros [= <- _].
    rewrite take_ge, Nat.sub_diag by lia. cbn [replicate].
    by destruct value_init; rewrite app_nil_r.
  - replace (length xs <? n) with false by (symmetry; apply Nat.ltb_ge; lia).
    replace (n <? length xs) with true by (symmetry; by apply Nat.ltb_lt).
    unfold bind at 1, ret. cbn [app].
    unfold bind at 1, in_data at 1, zoom at 1. norm_state.
    replace (Live <$> xs) with ((Live <$> take n xs) ++ (Live <$> drop n xs))
      by (by rewrite <- fmap_app, take_drop).
    rewrite <- app_assoc.
    rewrite (destroy_n_at' (Live <$> take n xs) _ (drop n xs)) by len.
    cbn. intros [= <- _].
    replace (n - length xs) with 0 by lia. cbn [replicate].
    assert (take n xs ++ match value_init with Some _ => [] | None => [] end
            = take n xs) as -> by (destruct value_init; apply app_nil_r).
    apply (vec_eq (take n xs) _ cap (cap - n) n);
      [|rewrite length_take; lia|rewrite length_take; lia].
    rewrite <- replicate_add. do 2 f_equal. lia.
Qed.

Lemma bind_Ok_inv {S A B} (m : prog T S A) (k : A -> prog T S B) s b s2 l :
  bind m k s = Ok b s2 l ->
  exists a s1 l1 l2, m s = Ok a s1 l1 /\ k a s1 = Ok b s2 l2 /\ l = l1 ++ l2.
Proof.
  unfold bind. destruct (m s) as [a s1 l1| |]; [|done|done].
  destruct (k a s1) as [b' s2' l2| |] eqn:Hk; [|done|done].
  intros [= <- <- <-]. by exists a, s1, l1, l2.
Qed.

(** what a [Resize] that returns has done *)
Lemma Resize_returned (xs : list T) cap n v' log :
  length xs <= cap ->
  Resize n (vec xs cap) = Ok tt v' log ->
  v' = vec (resized xs n) (if n <=? cap then cap else n).
Proof.
  intros Hle (a & s1 & l1 & l2 & Hres & Htail & ->)%bind_Ok_inv.
  destruct (n <=? cap) eqn:Hn.
  - apply Nat.leb_le in Hn.
    unfold Reserve, bind at 1, get in Hres.
    cbn [vec data_ capacity_ RawMemory_Capacity size_] in Hres.
    replace (n <=? cap) with true in Hres by (symmetry; by apply Nat.leb_le).
    injection Hres as <- <- <-. by eapply Resize_tail.
  - apply Nat.leb_gt in Hn. destruct a.
    apply Reserve_returned_in in Hres as (k & -> & Hk & Hkn & _); [|done|done].
    destruct (decide (k = n)) as [->|Hne].
    + rewrite vec_in_vec in Htail. eapply Resize_tail; [|done|done]. lia.
    + rewrite Resize_tail_short in Htail by lia. by destruct value_init.
Qed.

Lemma assign_loop_returned (this rhs : Vector T) (spre spost dpre dpost : block)
    ys xs i s' l :
  i = length spre -> i = length dpre -> length xs = length ys ->
  assign_loop this rhs i (length ys)
    (spre ++ (Live <$> ys) ++ spost, dpre ++ (Live <$> xs) ++ dpost) = Ok tt s' l ->
  s' = (spre ++ (Live <$> ys) ++ spost, dpre ++ (Live <$> ys) ++ dpost).
Proof.
  revert xs spre dpre i l s'.
  induction ys as [|y ys IH]; intros [|x xs] spre dpre i l s' Hs Hd Hlen; try done.
  - by intros [= <- _].
  - cbn [assign_loop length fmap list_fmap app].
    unfold bind at 1, RawMemory_at at 1, assert, bind at 1.
    destruct (i <? capacity_ (data_ rhs)); [|done].
    unfold ret at 1 2. cbn [app].
    unfold bind at 1, RawMemory_at at 1, assert, bind at 1.
    destruct (i <? capacity_ (data_ this)); [|done].
    unfold ret at 1 2. cbn [app].
    unfold bind at 1, on_src at 1, zoom at 1. cbn [fst snd].
    rewrite (load_at spre) by done.
    unfold bind at 1, on_dst at 1, zoom at 1. cbn [fst snd].
    rewrite (load_at dpre) by done.
    unfold bind at 1.
    destruct (copy_assign_throws x y); [done|].
    unfold bind at 1, on_dst at 1, zoom at 1. cbn [fst snd].
    rewrite (store_at dpre) by done. unfold emit. cbn [fst snd app].
    rewrite (snoc_middle spre), (snoc_middle dpre).
    destruct (assign_loop _ _ _ _ _) as [[] s1 l1| |] eqn:Hrest; [|done|done].
    apply IH in Hrest as ->; [|len|len|by injection Hlen].
    intros [= <- _]. by rewrite <- !app_assoc.
Qed.

Lemma Allocate_returned {S} n (s s' : S) b l :
  @Allocate T _ S n s = Ok b s' l -> exists k, b = replicate k Raw /\ k <= n.
Proof.
  unfold Allocate. destruct (n =? 0) eqn:Hn.
  - apply Nat.eqb_eq in Hn as ->. intros [= <- _]. by exists 0.
  - destruct (operator_new n) as [|k] eqn:Hnew; [done|].
    unfold bind, emit, ret. intros [= <- _]. exists k. split; [done|].
    by apply operator_new_le.
Qed.

(** what a copy construction that returns has built *)
Lemma Vector_copy_returned {S} (ys : list T) c (s s' : S) v l :
  length ys <= c ->
  Vector_copy (vec ys c) s = Ok v s' l -> v = vec ys (length ys).
Proof.
  intros Hle. unfold Vector_copy, constructing, RawMemory_ctor.
  intros (d & s1 & l1 & l2 & Hd & Hbody & ->)%bind_Ok_inv.
  apply bind_Ok_inv in Hd as (b & s2 & l3 & l4 & Hb & Hret & ->).
  apply Allocate_returned in Hb as (k & -> & Hk). injection Hret as <- <- <-.
  revert Hbody. unfold bind, zoom. cbn [vec size_ data_ buffer_ fst snd GetAddress].
  change (GetAddress _) with 0.
  cbn [vec size_] in Hk. destruct (decide (k = length ys)) as [->|Hne].
  2:{ rew (uninitialized_copy_n_short [] (replicate (c - length ys) Raw) [] ys k
             ltac:(lia)).
      by destruct (negb _ && _). }
  rewrite <- (app_nil_r (replicate (length ys) Raw)).
  rew (uninitialized_copy_n_spec [] (replicate (c - length ys) Raw) [] [] ys).
  destruct (none_throws copy_ctor_throws ys); [|done].
  unfold ret, set_buffer. cbn [snd buffer_ capacity_]. intros [= <- _].
  by apply (vec_eq ys _ (length ys) 0 (length ys)).
Qed.

Lemma uninitialized_copy_n_at (spre spost dpre dpost : block) xs i k j :
  i = length spre -> k = length xs -> j = length dpre ->
  uninitialized_copy_n i k j
    (spre ++ (Live <$> xs) ++ spost, dpre ++ replicate k Raw ++ dpost)
  = if none_throws copy_ctor_throws xs
    then Ok tt (spre ++ (Live <$> xs) ++ spost, dpre ++ (Live <$> xs) ++ dpost)
            (EvCopyCtor <$> xs)
    else Throw (spre ++ (Live <$> xs) ++ spost,
                dpre ++ replicate k Raw ++ dpost)
            ((EvCopyCtor <$> before_throw copy_ctor_throws xs) ++
             (EvDestroy <$> before_throw copy_ctor_throws xs)).
Proof. intros -> -> ->. apply uninitialized_copy_n_spec. Qed.

(** what a copy assignment between two objects that returns has done *)
Lemma copy_assign_body_returned (xs ys : list T) cap c2 s' l :
  length xs <= cap -> length ys <= c2 ->
  copy_assign_body (vec xs cap, vec ys c2) = Ok tt s' l ->
  s' = (vec ys (if cap <? length ys then length ys else cap), vec ys c2).
Proof.
  intros Hx Hy (s0 & s1 & l0 & l0' & Hget & Hbody & ->)%bind_Ok_inv.
  injection Hget as <- <- <-. revert Hbody.
  cbn [fst snd vec size_ data_ capacity_ RawMemory_Capacity app].
  fold (vec xs cap). fold (vec ys c2).
  destruct (cap <? length ys) eqn:Hcap.
  - unfold scoped.
    destruct (Vector_copy _ _) as [c s0 l0| |] eqn:Hcopy; [|done|done].
    pose proof Hcopy as Hc. apply Vector_copy_returned in Hc as ->; [|done].
    apply (Vector_copy_state (vec ys c2) _ s0 (vec ys (length ys)) l0) in Hcopy as ->.
    unfold zoom. cbn [fst snd]. rewrite Swap_spec. cbn [fst snd].
    rewrite Vector_dtor_spec by done. by intros [= <- _].
  - apply Nat.ltb_ge in Hcap.
    intros (a & s1 & l1 & l2 & Hloop & Hrest & ->)%bind_Ok_inv.
    apply bind_Ok_inv in Hrest as (a2 & s2 & l3 & l4 & Htail & Hsize & ->).
    destruct a, a2. revert Hsize. unfold modify, bind, get, put. intros [= <- _].
    set (m := length ys `min` length xs) in *.
    revert Hloop. unfold rhs_to_this, zoom.
    cbn [fst snd vec size_ data_ buffer_ capacity_].
    destruct (assign_loop _ _ _ _ _) as [[] bb lb| |] eqn:Hloop; [|done|done].
    intros [= <- _].
    replace (Live <$> ys) with ((Live <$> take m ys) ++ (Live <$> drop m ys))
      in Hloop by (by rewrite <- fmap_app, take_drop).
    replace (Live <$> xs) with ((Live <$> take m xs) ++ (Live <$> drop m xs))
      in Hloop by (by rewrite <- fmap_app, take_drop).
    rewrite <- !app_assoc in Hloop.
    assert (Hm1 : length (take m ys) = m) by (rewrite length_take; lia).
    assert (Hm2 : length (take m xs) = m) by (rewrite length_take; lia).
    rewrite <- Hm1 in Hloop at 1.
    apply (assign_loop_returned _ _ [] _ [] _ (take m ys) (take m xs)) in Hloop as ->;
      [|done|done|lia].
    revert Htail. unfold set_data, set_buffer.
    cbn [fst snd app vec size_ data_ buffer_ capacity_ GetAddress Nat.add].
    destruct (length ys <? length xs) eqn:Hlt.
    + apply Nat.ltb_lt in Hlt. assert (m = length ys) as Hm by lia.
      unfold zoom, in_data, zoom. cbn [fst snd data_ buffer_ capacity_ size_].
      rewrite Hm, take_ge by lia.
      rewrite (destroy_n_at' (Live <$> ys) _ (drop (length ys) xs)) by len.
      unfold set_data, set_buffer. cbn [fst snd data_ buffer_ capacity_ size_].
      intros [= <- _]. cbn [fst snd]. f_equal.
      * apply (vec_eq ys _ cap (cap - length ys) (length ys)); [|lia|done].
        rewrite <- replicate_add. do 2 f_equal. lia.
      * by rewrite drop_ge by lia.
    + apply Nat.ltb_ge in Hlt. assert (m = length xs) as Hm by lia.
      unfold rhs_to_this, zoom. cbn [fst snd data_ buffer_ capacity_ size_].
      rewrite (replicate_split (cap - length xs) (length ys - length xs)) by lia.
      rewrite (drop_ge xs m) by lia. cbn [fmap list_fmap app].
      rewrite (uninitialized_copy_n_at (Live <$> take m ys) _ (Live <$> take m ys) _
                 (drop m ys)) by len.
      destruct (none_throws copy_ctor_throws (drop m ys)); [|done].
      unfold set_data, set_buffer. cbn [fst snd data_ buffer_ capacity_ size_].
      intros [= <- _]. cbn [fst snd]. f_equal.
      * apply (vec_eq ys _ cap (cap - length ys) (length ys)); [|lia|done].
        rewrite app_assoc, <- fmap_app, take_drop. do 2 f_equal. lia.
      * unfold vec. by rewrite app_assoc, <- fmap_app, take_drop.
Qed.

(** what a sized construction that returns has built *)
Lemma Vector_sized_returned {S} n (s s' : S) v l :
  Vector_sized n s = Ok v s' l -> v = vec (resized [] n) n.
Proof.
  unfold Vector_sized, constructing, RawMemory_ctor.
  intros (d & s1 & l1 & l2 & Hd & Hbody & ->)%bind_Ok_inv.
  apply bind_Ok_inv in Hd as (b & s2 & l3 & l4 & Hb & Hret & ->).
  apply Allocate_returned in Hb as (k & -> & Hk). injection Hret as <- <- <-.
  revert Hbody. unfold bind, zoom. cbn [buffer_].
  destruct (decide (k = n)) as [->|Hne].
  2:{ rew (uninitialized_value_construct_n_short [] k n 0 eq_refl ltac:(lia)).
      by destruct value_init. }
  rewrite <- (app_nil_r (replicate n Raw)).
  rew (uninitialized_value_construct_n_spec [] [] n).
  unfold resized. rewrite take_nil. cbn [length app]. rewrite Nat.sub_0_r.
  destruct value_init as [x|].
  - unfold ret, set_buffer. cbn [buffer_ capacity_]. intros [= <- _].
    apply (vec_eq (replicate n x) _ n 0 n); [|len|len].
    by rewrite fmap_replicate.
  - destruct n; [|done]. cbn. by intros [= <- _].
Qed.

Lemma PopBack_returned (xs : list T) cap v' l :
  length xs <= cap ->
  PopBack (vec xs cap) = Ok tt v' l ->
  exists xs' x, xs = xs' ++ [x] /\ v' = vec xs' cap.
Proof.
  intros Hle. destruct xs as [|x0 xs0] using rev_ind; [done|].
  rewrite PopBack_spec by done. intros [= <- _]. by exists xs0, x0.
Qed.

(** X22.  The invariant after a call that returns.  The constructors
    build a vector that satisfies it; assignment, swap, pop, erase and
    [Resize] keep it.  An append, an insert and [Reserve] keep it unless they
    acquire a block and the byte count of the request wraps: then the call
    that returns has recorded a capacity the block does not have, and the
    invariant is lost. *)
Theorem invariant_on_return (v : Vector T) :
  invariant v = true ->
  invariant (@Vector_default T) = true /\
  (forall n v' l, Vector_sized n tt = Ok v' tt l -> invariant v' = true) /\
  (forall v' l, Vector_copy v tt = Ok v' tt l ->
     invariant v' = true /\ contents v' = contents v) /\
  (forall v' o' l, Vector_move v = Ok v' o' l ->
     invariant v' = true /\ invariant o' = true) /\
  (forall rhs s' l, invariant rhs = true ->
     copy_assign_body (v, rhs) = Ok tt s' l ->
     invariant s'.1 = true /\ invariant s'.2 = true /\
     contents s'.1 = contents rhs) /\
  (forall other s' l, invariant other = true ->
     Swap (v, other) = Ok tt s' l ->
     invariant s'.1 = true /\ invariant s'.2 = true) /\
  (forall args r v' l, EmplaceBack args v = Ok r v' l ->
     invariant v' =
       negb ((size_ v =? Capacity v) && wraps (grown (size_ v) (Capacity v)))) /\
  (forall v' l, PopBack v = Ok tt v' l -> invariant v' = true) /\
  (forall position args r v' l, position <= size_ v ->
     Emplace position args v = Ok r v' l ->
     invariant v' =
       negb ((size_ v =? Capacity v) && wraps (grown (size_ v) (Capacity v)))) /\
  (forall position r v' l, position < size_ v ->
     Erase position v = Ok r v' l -> invariant v' = true) /\
  (forall n v' l, Reserve n v = Ok tt v' l ->
     invariant v' = negb ((Capacity v <? n) && wraps n)) /\
  (forall n v' l, Resize n v = Ok tt v' l -> invariant v' = true).
Proof.
  intros Hv. pose proof Hv as (xs & cap & Hle & ->)%invariant_spec.
  rewrite contents_vec. cbn [vec size_ Capacity RawMemory_Capacity data_ capacity_].
  assert (Hback : forall args r v' l, EmplaceBack args (vec xs cap) = Ok r v' l ->
    invariant v' = negb ((length xs =? cap) && wraps (grown (length xs) cap))).
  { intros args r v' l Hrun. destruct (decide (length xs = cap)) as [<-|Hne].
    - rewrite Nat.eqb_refl. cbn [andb].
      destruct (operator_new (grown (length xs) (length xs))) as [|k] eqn:Hnew.
      { by rewrite EmplaceBack_full_throws in Hrun. }
      pose proof (EmplaceBack_full_block args xs k) as Hspec. cbn zeta in Hspec.
      rewrite Hspec in Hrun by done. clear Hspec.
      destruct (construct args _) as [x b lc| |]; [|done|done].
      destruct (length xs <? k) eqn:Hk; [apply Nat.ltb_lt in Hk|done].
      destruct (relocation_ok xs); [|done]. injection Hrun as <- <- <-.
      rewrite invariant_vec_in;
        [|rewrite length_app; cbn [length]; lia|by apply operator_new_le].
      unfold wraps. by rewrite Hnew, negb_involutive.
    - replace (length xs =? cap) with false by (symmetry; by apply Nat.eqb_neq).
      rewrite EmplaceBack_room in Hrun by lia.
      destruct (construct args _) as [x b lc| |]; [|done|done].
      injection Hrun as <- <- <-. apply invariant_vec.
      rewrite length_app. cbn [length]. lia. }
  repeat apply conj.
  - done.
  - intros n v' l ->%Vector_sized_returned. apply invariant_vec.
    unfold resized. rewrite take_nil. cbn [length app]. destruct value_init; len.
  - intros v' l ->%Vector_copy_returned; [|done].
    by rewrite invariant_vec, contents_vec.
  - rewrite Vector_move_spec. by intros v' o' l [= <- <- _].
  - intros rhs s' l (ys & c2 & Hy & ->)%invariant_spec
      ->%copy_assign_body_returned; [|done..].
    cbn [fst snd]. rewrite !contents_vec, !invariant_vec; [done|done|].
    destruct (cap <? length ys) eqn:Hc; [done|]. by apply Nat.ltb_ge in Hc.
  - intros other s' l Ho. rewrite Swap_spec. by intros [= <- _].
  - exact Hback.
  - intros v' l (xs' & x & -> & ->)%PopBack_returned; [|done].
    apply invariant_vec. rewrite length_app in Hle. lia.
  - intros position args r v' l Hpos Hrun.
    destruct (decide (position = length xs)) as [->|Hne].
    { rewrite Emplace_end in Hrun by done. by eapply Hback. }
    destruct (decide (length xs = cap)) as [<-|Hroom].
    { rewrite Nat.eqb_refl. cbn [andb].
      apply Emplace_full_returned_in in Hrun
        as (x & l' & k & -> & _ & _ & Hk & Hnew); [|done].
      rewrite invariant_vec_in; [| |by apply operator_new_le].
      - unfold wraps. by rewrite Hnew, negb_involutive.
      - rewrite length_app. cbn [length]. rewrite length_take, length_drop. lia. }
    replace (length xs =? cap) with false by (symmetry; by apply Nat.eqb_neq).
    rewrite Emplace_middle in Hrun by done.
    cbn [vec size_ Capacity RawMemory_Capacity data_ capacity_] in Hrun.
    replace (length xs <? cap) with true in Hrun
      by (symmetry; apply Nat.ltb_lt; lia).
    replace (vec xs cap) with (vec (take position xs ++ drop position xs) cap)
      in Hrun by (by rewrite take_drop).
    assert (Hp : position = length (take position xs)) by (rewrite length_take; lia).
    rewrite Hp in Hrun at 1.
    apply EmplaceEnoughtCapacity_returned in Hrun as (x & _ & ->).
    + apply invariant_vec. rewrite length_app. cbn [length].
      rewrite length_take, length_drop. lia.
    + intros Hnil. apply (f_equal length) in Hnil.
      rewrite length_drop in Hnil. cbn in Hnil. lia.
    + rewrite take_drop. lia.
  - intros position r v' l Hpos Hrun.
    destruct (drop position xs) as [|x suf] eqn:Hdrop.
    { apply (f_equal length) in Hdrop. rewrite length_drop in Hdrop.
      cbn in Hdrop. lia. }
    assert (Hxs : xs = take position xs ++ x :: suf)
      by (by rewrite <- Hdrop, take_drop).
    assert (Hp : position = length (take position xs)) by (rewrite length_take; lia).
    remember (take position xs) as pre eqn:Hpre. clear Hpre Hdrop.
    subst xs position.
    apply Erase_returned in Hrun as [_ ->]; [|done].
    apply invariant_vec. rewrite !length_app in *. cbn [length] in *. lia.
  - intros n v' l Hrun. destruct (cap <? n) eqn:Hn.
    + apply Nat.ltb_lt in Hn. cbn [andb].
      apply Reserve_returned_in in Hrun as (k & -> & Hk & Hkn & Hnew); [|done|done].
      rewrite invariant_vec_in by done.
      unfold wraps. by rewrite Hnew, negb_involutive.
    + apply Nat.ltb_ge in Hn. revert Hrun. unfold Reserve, bind at 1, get.
      cbn [vec data_ capacity_ RawMemory_Capacity size_].
      replace (n <=? cap) with true by (symmetry; by apply Nat.leb_le).
      intros [= <- _]. by apply invariant_vec.
  - intros n v' l ->%Resize_returned; [|done].
    apply invariant_vec. unfold resized.
    rewrite length_app, length_take.
    destruct (n <=? cap) eqn:Hn;
      [apply Nat.leb_le in Hn|apply Nat.leb_gt in Hn];
      destruct value_init; rewrite ?length_replicate; cbn [length]; lia.
Qed.
End Preservation.

(** ** The invariant at every exit *)

Section Exits.
Context {T : Type} `{!Element T} `{!Allocator}.

Local Abbreviation block := (list (slot T)).

Lemma construct_valid args (xs : list T) cap :
  args_valid args (vec xs cap) = true ->
  is_Fault (construct args (buffer_ (data_ (vec xs cap)))) = false.
Proof.
  destruct args as [x| |i]; [done|done|].
  cbn [args_valid vec size_ data_ buffer_ construct]. intros Hi%Nat.ltb_lt.
  destruct (lookup_lt_is_Some_2 xs i Hi) as [x Hx].
  unfold bind. rewrite (load_live xs _ i x Hx).
  unfold copy_construct. by destruct (copy_ctor_throws x).
Qed.

Lemma safe_exit_bind {A B} (m : prog T (Vector T) A) (k : A -> prog T (Vector T) B) s :
  safe_exit (m s) = true ->
  (forall a s1 l1, m s = Ok a s1 l1 -> safe_exit (k a s1) = true) ->
  safe_exit (bind m k s) = true.
Proof.
  unfold bind. destruct (m s) as [a s1 l1|s1 l1|]; [|done|done].
  intros _ Hk. specialize (Hk a s1 l1 eq_refl).
  by destruct (k a s1).
Qed.

Lemma relocated_from_invariant (xs : list T) cap :
  length xs <= cap -> invariant (vec (relocated_from xs) cap) = true.
Proof. intros Hle. apply invariant_vec. by rewrite relocated_from_length. Qed.

Lemma Reserve_exit (xs : list T) cap n :
  length xs <= cap -> (cap < n -> wraps n = false) ->
  safe_exit (Reserve n (vec xs cap)) = true.
Proof.
  intros Hle Hw. destruct (n <=? cap) eqn:Hn.
  { apply Nat.leb_le in Hn. rewrite Reserve_within by done. by apply invariant_vec. }
  apply Nat.leb_gt in Hn. rewrite Reserve_spec by (done || by apply Hw).
  replace (n <=? cap) with false by (symmetry; by apply Nat.leb_gt).
  destruct (alloc_fails n); [by apply invariant_vec|].
  destruct (relocation_ok xs); cbn [safe_exit].
  - apply invariant_vec. lia.
  - by apply relocated_from_invariant.
Qed.

Lemma grown_room (xs : list T) : length xs + 1 <= grown (length xs) (length xs).
Proof. rewrite grown_max. lia. Qed.

Lemma EmplaceBack_exit args (xs : list T) cap :
  length xs <= cap ->
  (length xs = cap -> wraps (grown (length xs) cap) = false) ->
  args_valid args (vec xs cap) = true ->
  safe_exit (EmplaceBack args (vec xs cap)) = true.
Proof.
  intros Hle Hw Hargs%construct_valid.
  destruct (length xs =? cap) eqn:Hfull.
  - apply Nat.eqb_eq in Hfull. subst cap.
    rewrite EmplaceBack_spec by (done || by apply Hw). rewrite Nat.eqb_refl.
    destruct (alloc_fails _); [by apply invariant_vec|].
    destruct (construct args _) as [x b lc|b lc|]; [| |done].
    + destruct (relocation_ok xs); cbn [safe_exit].
      * apply invariant_vec. rewrite length_app. apply grown_room.
      * by apply relocated_from_invariant.
    + by apply invariant_vec.
  - apply Nat.eqb_neq in Hfull. rewrite EmplaceBack_room by lia.
    destruct (construct args _) as [x b lc|b lc|]; [| |done]; apply invariant_vec.
    + rewrite length_app. cbn [length]. lia.
    + done.
Qed.

Lemma Emplace_full_exit position args (xs : list T) :
  position <= length xs -> wraps (grown (length xs) (length xs)) = false ->
  args_valid args (vec xs (length xs)) = true ->
  safe_exit (Emplace position args (vec xs (length xs))) = true.
Proof.
  intros Hpos Hw Hargs. destruct (decide (position = length xs)) as [->|Hne].
  { rewrite Emplace_end by done. by apply EmplaceBack_exit. }
  apply construct_valid in Hargs.
  rewrite Emplace_middle by done.
  cbn [vec size_ Capacity RawMemory_Capacity data_ capacity_].
  rewrite Nat.ltb_irrefl.
  pose proof (EmplaceNoCapacity_spec args (take position xs) (drop position xs)) as Hspec.
  cbn zeta in Hspec. rewrite take_drop, length_take in Hspec.
  replace (position `min` length xs) with position in Hspec by lia.
  rewrite Hspec by done. clear Hspec.
  destruct (alloc_fails _); [by apply invariant_vec|].
  destruct (construct args _) as [x b lc|b lc|]; [| |done]; [|by apply invariant_vec].
  destruct (relocation_ok (take position xs));
    [destruct (relocation_ok (drop position xs))|]; cbn [safe_exit];
    apply invariant_vec; rewrite !length_app, ?relocated_from_length;
    cbn [length]; rewrite ?length_take, ?length_drop, ?grown_max; lia.
Qed.

Lemma Erase_exit (xs : list T) cap position :
  length xs <= cap -> position < length xs ->
  safe_exit (Erase position (vec xs cap)) = true.
Proof.
  intros Hle Hpos.
  destruct (drop position xs) as [|x suf] eqn:Hdrop.
  { apply (f_equal length) in Hdrop. rewrite length_drop in Hdrop.
    cbn in Hdrop. lia. }
  assert (Hxs : xs = take position xs ++ x :: suf)
    by (by rewrite <- Hdrop, take_drop).
  assert (Hp : position = length (take position xs)) by (rewrite length_take; lia).
  remember (take position xs) as pre eqn:Hpre. clear Hpre Hdrop.
  subst xs position. clear Hpos.
  destruct (shift_ok x suf) eqn:Hshift.
  - rewrite Erase_spec by done. apply invariant_vec.
    rewrite !length_app in *. cbn [length] in *. lia.
  - rewrite length_app in Hle. cbn [length] in Hle.
    rewrite vec_app, !length_app. cbn [length].
    unfold Erase, bind at 1, get. unfold bind at 1.
    rewrite minus_checked_ok by (unfold begin_, GetAddress; lia).
    norm_state. rewrite Nat.sub_0_r.
    unfold bind at 1, in_data at 1, zoom at 1, std_move. norm_state.
    replace (length pre + 1 <=? length pre + S (length suf)) with true
      by (symmetry; apply Nat.leb_le; lia).
    cbn [fmap list_fmap app].
    destruct (std_move_loop_throws (Live <$> pre)
                (replicate (cap - (length pre + S (length suf))) Raw) x suf Hshift)
      as (zs & l & Hzs & Hrun).
    rewrite length_fmap in Hrun.
    replace (length pre + 1) with (S (length pre)) by lia.
    replace (length pre + S (length suf) - S (length pre)) with (length suf) by lia.
    rewrite Hrun. cbn [safe_exit].
    rewrite (vec_eq (pre ++ zs) _ cap (cap - (length pre + S (length suf)))
               (length pre + S (length suf))); [|by rewrite fmap_app, <- app_assoc|len|len].
    apply invariant_vec. len.
Qed.

Lemma PopBack_exit (xs : list T) cap :
  length xs <= cap -> 0 < length xs ->
  safe_exit (PopBack (vec xs cap)) = true.
Proof.
  intros Hle Hpos. destruct xs as [|x xs] using rev_ind; [cbn in Hpos; lia|].
  rewrite PopBack_spec by done. apply invariant_vec.
  rewrite length_app in Hle. lia.
Qed.

Lemma Resize_tail_exit (xs : list T) cap n :
  length xs <= cap -> n <= cap ->
  safe_exit
    ((let* v := get in
      (if size_ v <? n
       then in_data (uninitialized_value_construct_n
                       (GetAddress (data_ v) + size_ v) (n - Size v))
       else ret tt) >>
      (if n <? size_ v
       then in_data (destroy_n (GetAddress (data_ v) + n) (size_ v - n))
       else ret tt) >>
      modify (set_size n)) (vec xs cap)) = true.
Proof.
  intros Hle Hn.
  match goal with
  | |- safe_exit ?r = true => destruct r as [[] v' l|v' l|] eqn:Hrun
  end.
  - apply Resize_tail in Hrun as ->; [|done..].
    apply invariant_vec. unfold resized. rewrite length_app, length_take.
    destruct value_init; rewrite ?length_replicate; cbn [length]; lia.
  - revert Hrun. unfold bind at 1, get, Size, vec. norm_state.
    destruct (lt_eq_lt_dec (length xs) n) as [[Hlt|Heq]|Hgt].
    + replace (length xs <? n) with true by (symmetry; by apply Nat.ltb_lt).
      replace (n <? length xs) with false by (symmetry; apply Nat.ltb_ge; lia).
      unfold bind at 1, in_data at 1, zoom at 1. norm_state.
      rewrite (replicate_split (cap - length xs) (n - length xs)) by lia.
      rewrite (uninitialized_value_construct_n_at (Live <$> xs)) by len.
      destruct value_init as [x|]; [done|].
      replace (n - length xs =? 0) with false by (symmetry; apply Nat.eqb_neq; lia).
      cbn. intros [= <- _].
      rewrite (vec_eq xs _ cap (cap - length xs) (length xs));
        [by apply invariant_vec| |lia|done].
      rewrite <- replicate_add. do 2 f_equal. lia.
    + by rewrite <- Heq, Nat.ltb_irrefl.
    + replace (length xs <? n) with false by (symmetry; apply Nat.ltb_ge; lia).
      replace (n <? length xs) with true by (symmetry; by apply Nat.ltb_lt).
      unfold bind at 1, ret. cbn [app].
      unfold bind at 1, in_data at 1, zoom at 1. norm_state.
      replace (Live <$> xs) with ((Live <$> take n xs) ++ (Live <$> drop n xs))
        by (by rewrite <- fmap_app, take_drop).
      rewrite <- app_assoc.
      by rewrite (destroy_n_at' (Live <$> take n xs) _ (drop n xs)) by len.
  - revert Hrun. unfold bind at 1, get, Size, vec. norm_state.
    destruct (lt_eq_lt_dec (length xs) n) as [[Hlt|Heq]|Hgt].
    + replace (length xs <? n) with true by (symmetry; by apply Nat.ltb_lt).
      replace (n <? length xs) with false by (symmetry; apply Nat.ltb_ge; lia).
      unfold bind at 1, in_data at 1, zoom at 1. norm_state.
      rewrite (replicate_split (cap - length xs) (n - length xs)) by lia.
      rewrite (uninitialized_value_construct_n_at (Live <$> xs)) by len.
      destruct value_init as [x|]; [done|].
      by replace (n - length xs =? 0) with false by (symmetry; apply Nat.eqb_neq; lia).
    + by rewrite <- Heq, Nat.ltb_irrefl.
    + replace (length xs <? n) with false by (symmetry; apply Nat.ltb_ge; lia).
      replace (n <? length xs) with true by (symmetry; by apply Nat.ltb_lt).
      unfold bind at 1, ret. cbn [app].
      unfold bind at 1, in_data at 1, zoom at 1. norm_state.
      replace (Live <$> xs) with ((Live <$> take n xs) ++ (Live <$> drop n xs))
        by (by rewrite <- fmap_app, take_drop).
      rewrite <- app_assoc.
      by rewrite (destroy_n_at' (Live <$> take n xs) _ (drop n xs)) by len.
Qed.

Lemma Resize_exit (xs : list T) cap n :
  length xs <= cap -> (cap < n -> wraps n = false) ->
  safe_exit (Resize n (vec xs cap)) = true.
Proof.
  intros Hle Hw. unfold Resize. apply safe_exit_bind; [by apply Reserve_exit|].
  intros [] s1 l1. destruct (n <=? cap) eqn:Hn.
  - apply Nat.leb_le in Hn. rewrite Reserve_within by done.
    intros [= <- _]. by apply Resize_tail_exit.
  - apply Nat.leb_gt in Hn. rewrite Reserve_spec by (done || by apply Hw).
    replace (n <=? cap) with false by (symmetry; by apply Nat.leb_gt).
    destruct (alloc_fails n); [done|].
    destruct (relocation_ok xs); [|done]. intros [= <- _].
    apply Resize_tail_exit; lia.
Qed.

(** X23.  With the invariant in force, the preconditions met and no byte
    count of an allocation request wrapping, [Reserve], [Resize], append, pop,
    erase, and the insert that finds the block full never reach a fault (no
    raw slot is read, assigned or destroyed, no live slot is constructed
    over, no address is outside the block), and whether they return or throw
    the vector they leave satisfies the invariant.  When the byte count of
    the request of a [Reserve] beyond the capacity wraps and the relocation
    does not throw, the call ends in a fault or returns a vector that
    violates the invariant. *)
Theorem invariant_at_every_exit (v : Vector T) args position n :
  invariant v = true ->
  args_valid args v = true ->
  ((Capacity v < n -> wraps n = false) -> safe_exit (Reserve n v) = true) /\
  ((Capacity v < n -> wraps n = false) -> safe_exit (Resize n v) = true) /\
  ((size_ v = Capacity v -> wraps (grown (size_ v) (Capacity v)) = false) ->
   safe_exit (EmplaceBack args v) = true) /\
  (0 < size_ v -> safe_exit (PopBack v) = true) /\
  (position < size_ v -> safe_exit (Erase position v) = true) /\
  (position <= size_ v -> size_ v = Capacity v ->
   wraps (grown (size_ v) (Capacity v)) = false ->
   safe_exit (Emplace position args v) = true) /\
  (Capacity v < n -> wraps n = true -> relocation_ok (contents v) = true ->
   safe_exit (Reserve n v) = false).
Proof.
  intros (xs & cap & Hle & ->)%invariant_spec Hargs.
  rewrite contents_vec.
  cbn [vec size_ Capacity RawMemory_Capacity data_ capacity_].
  repeat apply conj.
  - by apply Reserve_exit.
  - by apply Resize_exit.
  - intros Hw. by apply EmplaceBack_exit.
  - by apply PopBack_exit.
  - by apply Erase_exit.
  - intros Hpos <- Hw. by apply Emplace_full_exit.
  - intros Hn (k & Hnew & Hk)%wraps_block Hok.
    rewrite (Reserve_block xs cap n k) by done. rewrite Hok.
    destruct (length xs <=? k) eqn:Hxk; [apply Nat.leb_le in Hxk|done].
    cbn [safe_exit]. rewrite invariant_vec_in by lia.
    apply Nat.eqb_neq. lia.
Qed.
End Exits.

(** ** The exceptional exit of the in-place insert *)

Section InPlaceFailure.
Context {T : Type} `{!Element T} `{!Allocator}.

(** X24.  Once the last element has been moved into the first raw slot, an
    in-place insert that throws, in the constructor of the new element or in
    its assignment, leaves a constructed object in slot [size]: the invariant
    does not hold at that exit. *)
Lemma in_place_insert_failure args (pre suf : list T) z cap v' l :
  length (pre ++ suf ++ [z]) < cap ->
  move_ctor_throws z = false ->
  shift_ok (moved_from z) (reverse suf) = true ->
  Emplace (length pre) args (vec (pre ++ suf ++ [z]) cap) = Throw v' l ->
  invariant v' = false /\
  buffer_ (data_ v') !! size_ v' = Some (Live z) /\
  size_ v' = length (pre ++ suf ++ [z]).
Proof.
  intros Hlt Hz Hshift.
  rewrite Emplace_middle by (cbn [vec size_]; rewrite !length_app; cbn [length]; lia).
  cbn [vec size_ Capacity RawMemory_Capacity data_ capacity_].
  replace (length (pre ++ suf ++ [z]) <? cap) with true
    by (symmetry; by apply Nat.ltb_lt).
  pose proof (EmplaceEnoughtCapacity_spec args pre suf z cap) as Hspec.
  cbn zeta in Hspec. rewrite Hspec by done. clear Hspec.
  assert (Hslot : forall k,
    gap_block pre suf z k !! length (pre ++ suf ++ [z]) = Some (Live z)).
  { intros k. unfold gap_block.
    rewrite (snoc_middle (Live <$> pre)).
    rewrite (app_assoc (_ ++ [_]) (Live <$> suf)).
    apply list_lookup_middle. len. }
  assert (Hbroken : forall k,
    invariant {| data_ := {| buffer_ := gap_block pre suf z k; capacity_ := cap |};
                 size_ := length (pre ++ suf ++ [z]) |} = false).
  { intros k. unfold invariant. cbn [size_ data_ buffer_ capacity_].
    apply andb_false_iff. right.
    rewrite (drop_S _ (Live z) _ (Hslot k)). done. }
  destruct (construct args _) as [x b lc|b lc|]; [| |done].
  - destruct (move_assign_throws _ x); [|done].
    intros [= <- _]. cbn [size_ data_ buffer_]. by rewrite Hbroken, Hslot.
  - intros [= <- _]. cbn [size_ data_ buffer_]. by rewrite Hbroken, Hslot.
Qed.
End InPlaceFailure.

(** * Further properties of the container *)

(** ** Element access, removal at the back and destruction *)

Section Access.
Context {T : Type} `{!Element T} `{!Allocator}.

Local Abbreviation block := (list (slot T)).

(** X1.  [operator[]] checks the index against [size_], not against the
    capacity: for [index < size] it names slot [index], which holds the
    element at that position, and leaves the vector alone; for every
    [index >= size], also one inside the capacity, the [assert] fails. *)
Theorem subscript_bounds (v : Vector T) index :
  invariant v = true ->
  (index < size_ v ->
     exists x,
       contents v !! index = Some x /\
       subscript index v = Ok index v [] /\
       element index v = Ok x v []) /\
  (size_ v <= index ->
     subscript index v = Fault /\ element index v = Fault).
Proof.
  intros (xs & cap & Hle & ->)%invariant_spec.
  rewrite contents_vec. cbn [vec size_]. split.
  - intros Hi. destruct (lookup_lt_is_Some_2 xs index Hi) as [x Hx].
    exists x. split; [done|]. split; [|by apply element_vec].
    unfold subscript, bind at 1, get. unfold bind at 1, assert.
    cbn [vec size_ data_ capacity_].
    replace (index <? length xs) with true by (symmetry; by apply Nat.ltb_lt).
    unfold ret at 1, RawMemory_at, bind, assert. cbn [capacity_].
    by replace (index <? cap) with true by (symmetry; apply Nat.ltb_lt; lia).
  - intros Hi.
    assert (Hs : subscript index (vec xs cap) = Fault).
    { unfold subscript, bind at 1, get. unfold bind at 1, assert.
      cbn [vec size_ data_ capacity_].
      by replace (index <? length xs) with false
        by (symmetry; by apply Nat.ltb_ge). }
    split; [done|]. unfold element, bind. by rewrite Hs.
Qed.

(** X2.  [PopBack] destroys the last element and nothing else, and keeps
    the capacity; on an empty vector it steps before the block, a fault. *)
Theorem PopBack_removes_last (v : Vector T) :
  invariant v = true ->
  (size_ v = 0 -> PopBack v = Fault) /\
  (forall xs x, contents v = xs ++ [x] ->
     PopBack v = Ok tt (vec xs (Capacity v)) [EvDestroy x]).
Proof.
  intros (ys & cap & Hle & ->)%invariant_spec.
  rewrite contents_vec. cbn [vec size_ Capacity RawMemory_Capacity data_ capacity_].
  split.
  - intros Hnil. apply length_zero_iff_nil in Hnil as ->. apply PopBack_empty.
  - intros xs x ->. by apply PopBack_spec.
Qed.

(** X3.  The destructor destroys every element once, first to last, and
    then releases the block, in which no constructed object is left. *)
Theorem destructor_destroys_all (v : Vector T) :
  invariant v = true ->
  exists v',
    Vector_dtor v = Ok tt v' ((EvDestroy <$> contents v) ++ [EvDeallocate []]) /\
    live_objects (buffer_ (data_ v')) = [].
Proof.
  intros (xs & cap & Hle & ->)%invariant_spec.
  rewrite contents_vec, Vector_dtor_spec by done.
  eexists. split; [done|]. cbn [data_ buffer_]. apply live_objects_raw.
Qed.

Lemma DestroyN_loop_destroy_n buf i n (b : block) :
  DestroyN_loop buf i n b = destroy_n (buf + i) n b.
Proof.
  revert i b. induction n as [|n IH]; intros i b; [done|].
  cbn [DestroyN_loop destroy_n]. unfold bind, Destroy.
  destruct (destroy_at (buf + i) b) as [[] b' l| |]; [|done..].
  by rewrite IH, Nat.add_succ_r.
Qed.

(** X4.  The private loop [DestroyN] does what [std::destroy_n] does on
    every block: the same objects destroyed in the same order, and a fault
    at the same raw slot. *)
Theorem DestroyN_destroy_n buf n (b : block) :
  DestroyN buf n b = destroy_n buf n b.
Proof.
  unfold DestroyN. by rewrite DestroyN_loop_destroy_n, Nat.add_0_r.
Qed.


(** X6.  An append followed by [PopBack] gives back the elements there
    were; the object popped is the one appended, and the capacity is the
    one the append left. *)
Theorem push_then_pop (v : Vector T) x :
  invariant v = true ->
  alloc_fails (grown (size_ v) (Capacity v)) = false ->
  relocation_ok (contents v) = true ->
  exists cap' log,
    (PushBack (ByValue x) >> PopBack) v
      = Ok tt (vec (contents v) cap') (log ++ [EvDestroy x]) /\
    PushBack (ByValue x) v = Ok tt (vec (contents v ++ [x]) cap') log /\
    Capacity v <= cap'.
Proof.
  intros (xs & cap & Hle & ->)%invariant_spec.
  rewrite contents_vec. cbn [vec size_ Capacity RawMemory_Capacity data_ capacity_].
  intros Ha Hr.
  destruct (PushBack_value xs cap x Hle Ha Hr) as (cap' & log & Hp & _ & Hle' & Hcap).
  exists cap', log. split; [|split; [done|]].
  - unfold bind. rewrite Hp, PopBack_spec by done. done.
  - subst cap'. destruct (length xs =? cap) eqn:Hfull; [|done].
    apply Nat.eqb_eq in Hfull. subst cap. rewrite grown_max. lia.
Qed.

(** X7.  [Reserve] never shrinks: a request that the capacity already
    covers is absorbed, so [Reserve(n)] followed by [Reserve(m)] with
    [m <= n] is [Reserve(n)], in its result, its effects and its failures. *)
Theorem Reserve_absorbs_smaller (v : Vector T) n m :
  invariant v = true ->
  m <= n ->
  (Reserve n >> Reserve m) v = Reserve n v.
Proof.
  intros (xs & cap & Hle & ->)%invariant_spec Hm.
  unfold bind. destruct (n <=? cap) eqn:Hn.
  - apply Nat.leb_le in Hn. rewrite !Reserve_within by lia. done.
  - apply Nat.leb_gt in Hn.
    destruct (operator_new n) as [|k] eqn:Hnew; [by rewrite Reserve_throws|].
    rewrite (Reserve_block xs cap n k) by done.
    destruct (relocation_ok xs); [|by destruct ((_ <=? _) || _)].
    destruct (length xs <=? k); [|done].
    rewrite Reserve_no_op by done. by rewrite app_nil_r.
Qed.
End Access.

(** ** [Resize] *)

Section Resizing.
Context {T : Type} `{!Element T} `{!Allocator}.

Local Abbreviation block := (list (slot T)).

(** what [Resize] does once [Reserve] has returned *)
Lemma Resize_tail_spec (xs : list T) cap n :
  length xs <= cap -> n <= cap ->
  (let* v := get in
   (if size_ v <? n
    then in_data (uninitialized_value_construct_n
                    (GetAddress (data_ v) + size_ v) (n - Size v))
    else ret tt) >>
   (if n <? size_ v
    then in_data (destroy_n (GetAddress (data_ v) + n) (size_ v - n))
    else ret tt) >>
   modify (set_size n)) (vec xs cap)
  = if length xs <? n
    then match value_init with
         | Some d => Ok tt (vec (xs ++ replicate (n - length xs) d) cap)
                       (replicate (n - length xs) (EvValueInit d))
         | None => Throw (vec xs cap) []
         end
    else Ok tt (vec (take n xs) cap) (EvDestroy <$> drop n xs).
Proof.
  intros Hle Hn.
  set (R1 := fun d => vec (xs ++ replicate (n - length xs) d) cap).
  set (R2 := vec (take n xs) cap). set (R3 := vec xs cap) at 2.
  unfold bind at 1, get, Size, vec. norm_state.
  destruct (lt_eq_lt_dec (length xs) n) as [[Hlt|Heq]|Hgt].
  - replace (length xs <? n) with true by (symmetry; by apply Nat.ltb_lt).
    replace (n <? length xs) with false by (symmetry; apply Nat.ltb_ge; lia).
    unfold bind at 1, in_data at 1, zoom at 1. norm_state.
    rewrite (replicate_split (cap - length xs) (n - length xs)) by lia.
    rewrite (uninitialized_value_construct_n_at (Live <$> xs)) by len.
    destruct value_init as [d|].
    + cbn. rewrite app_nil_r. f_equal. subst R1. cbn beta.
      apply (vec_eq (xs ++ replicate (n - length xs) d) _ cap (cap - n) n); [|len|len].
      rewrite fmap_app, fmap_replicate, <- app_assoc. do 3 f_equal. lia.
    + replace (n - length xs =? 0) with false by (symmetry; apply Nat.eqb_neq; lia).
      cbn. f_equal. subst R3. unfold vec. do 2 f_equal.
      by rewrite <- replicate_split by lia.
  - rewrite <- Heq, Nat.ltb_irrefl. cbn. rewrite drop_all. cbn. f_equal.
    subst R2. by rewrite take_ge by lia.
  - replace (length xs <? n) with false by (symmetry; apply Nat.ltb_ge; lia).
    replace (n <? length xs) with true by (symmetry; by apply Nat.ltb_lt).
    unfold bind at 1, ret. cbn [app].
    unfold bind at 1, in_data at 1, zoom at 1. norm_state.
    replace (Live <$> xs) with ((Live <$> take n xs) ++ (Live <$> drop n xs))
      by (by rewrite <- fmap_app, take_drop).
    rewrite <- app_assoc.
    rewrite (destroy_n_at' (Live <$> take n xs) _ (drop n xs)) by len.
    cbn. rewrite app_nil_r. f_equal. subst R2.
    apply (vec_eq (take n xs) _ cap (cap - n) n);
      [|rewrite length_take; lia|rewrite length_take; lia].
    rewrite <- replicate_add. do 2 f_equal. len.
Qed.

Local Ltac rewrite_tail :=
  match goal with
  | |- match ?t with _ => _ end = _ =>
      let E := fresh "E" in
      eassert (E : t = _) by (apply Resize_tail_spec; lia); rewrite E; clear E
  end.

(** X8.  [Resize(n)].  Shrinking destroys the elements from position [n]
    on, in order, and keeps the capacity.  Growing within the capacity
    value-initialises the new elements behind the old ones and allocates
    nothing.  Growing beyond the capacity first reserves: when the allocation
    delivers the [n] slots asked for, the elements are relocated and the new
    ones value-initialised in a block of exactly [n] slots; when it throws,
    nothing has happened; and when the byte count of the request wraps, so
    that the block is shorter than [n], the call does not return.  When the
    element type cannot be value-initialised, growing within the capacity
    fails and changes nothing, and growing beyond it fails with the elements
    kept but the capacity already [n]. *)
Theorem Resize_behaviour (v : Vector T) n :
  invariant v = true ->
  (n <= size_ v ->
     Resize n v = Ok tt (vec (take n (contents v)) (Capacity v))
                    (EvDestroy <$> drop n (contents v))) /\
  (size_ v < n -> n <= Capacity v ->
     (forall d, value_init = Some d ->
        Resize n v = Ok tt (vec (contents v ++ replicate (n - size_ v) d) (Capacity v))
                       (replicate (n - size_ v) (EvValueInit d))) /\
     (value_init = None -> Resize n v = Throw v [])) /\
  (Capacity v < n -> alloc_fails n = false -> relocation_ok (contents v) = true ->
     (forall d, value_init = Some d ->
        exists log,
          Resize n v = Ok tt (vec (contents v ++ replicate (n - size_ v) d) n) log) /\
     (value_init = None ->
        exists log, Resize n v = Throw (vec (contents v) n) log)) /\
  (Capacity v < n -> operator_new n = NewThrows -> Resize n v = Throw v []) /\
  (Capacity v < n -> wraps n = true ->
     forall v' log, Resize n v <> Ok tt v' log).
Proof.
  intros (xs & cap & Hle & ->)%invariant_spec.
  rewrite contents_vec. cbn [vec size_ Capacity RawMemory_Capacity data_ capacity_].
  fold (vec xs cap).
  split; [|split; [|split; [|split]]].
  - intros Hn. unfold Resize, bind at 1. rewrite Reserve_within by lia.
    cbv beta iota. rewrite_tail.
    by replace (length xs <? n) with false by (symmetry; apply Nat.ltb_ge; lia).
  - intros Hlt Hn.
    assert (Hrun : Resize n (vec xs cap)
      = match value_init with
        | Some d => Ok tt (vec (xs ++ replicate (n - length xs) d) cap)
                      (replicate (n - length xs) (EvValueInit d))
        | None => Throw (vec xs cap) []
        end).
    { unfold Resize, bind at 1. rewrite Reserve_within by done.
      cbv beta iota. rewrite_tail.
      replace (length xs <? n) with true by (symmetry; by apply Nat.ltb_lt).
      by destruct value_init. }
    rewrite Hrun. split; [by intros d ->|by intros ->].
  - intros Hn Ha Hr. pose proof (alloc_fails_wraps n Ha) as Hw.
    assert (Hrun : exists log, Resize n (vec xs cap)
      = match value_init with
        | Some d => Ok tt (vec (xs ++ replicate (n - length xs) d) n) log
        | None => Throw (vec xs n) log
        end).
    { destruct value_init as [d|] eqn:Hv; eexists;
        unfold Resize, bind at 1; rewrite Reserve_spec by done;
        replace (n <=? cap) with false by (symmetry; by apply Nat.leb_gt);
        rewrite Ha, Hr; cbv beta iota; rewrite_tail;
        replace (length xs <? n) with true by (symmetry; apply Nat.ltb_lt; lia);
        rewrite Hv; reflexivity. }
    destruct Hrun as [log Hrun]. rewrite Hrun.
    split; [intros d ->|intros ->]; by exists log.
  - intros Hn Hnew. unfold Resize, bind at 1. by rewrite Reserve_throws.
  - intros Hn (k & Hnew & Hk)%wraps_block v' log.
    unfold Resize, bind at 1. rewrite (Reserve_block xs cap n k) by done.
    destruct (relocation_ok xs); [|by destruct ((_ <=? _) || _)].
    destruct (length xs <=? k) eqn:Hxk; [apply Nat.leb_le in Hxk|done].
    rewrite Resize_tail_short by done. by destruct value_init.
Qed.
End Resizing.

(** ** The constructors *)

Section Constructors.
Context {T : Type} `{!Element T} `{!Allocator}.

Local Abbreviation block := (list (slot T)).

Lemma RawMemory_ctor_block {S} n (s : S) :
  @RawMemory_ctor T _ S n s
  = if n =? 0 then Ok {| buffer_ := []; capacity_ := n |} s []
    else match operator_new n with
         | NewThrows => Throw s []
         | NewBlock k => Ok {| buffer_ := replicate k Raw; capacity_ := n |} s
                           [EvAllocate n]
         end.
Proof.
  unfold RawMemory_ctor, bind, Allocate.
  destruct (n =? 0); [done|]. by destruct (operator_new n).
Qed.

Lemma RawMemory_ctor_spec {S} n (s : S) :
  wraps n = false ->
  @RawMemory_ctor T _ S n s
  = if negb (n =? 0) && alloc_fails n then Throw s []
    else Ok {| buffer_ := replicate n Raw; capacity_ := n |} s (allocation_log n).
Proof.
  intros [Hf Hk]%wraps_alloc_fails. rewrite RawMemory_ctor_block, Hf.
  unfold allocation_log.
  destruct (n =? 0) eqn:Hn; [by apply Nat.eqb_eq in Hn as ->|].
  destruct (operator_new n) as [|k]; [done|]. by rewrite (Hk k eq_refl).
Qed.

(** X9.  [Vector(size)].  For [size = 0] it allocates nothing and cannot
    fail.  Otherwise it asks for [size] slots.  When the allocation throws,
    nothing has happened.  When it delivers the [size] slots, every one is
    value-initialised, so size and capacity are both [size]; and when the
    element type cannot be value-initialised the block is released again and
    no vector comes into being.  When the byte count of the request wraps,
    the block is shorter than [size] and the value-initialisation runs
    beyond it. *)
Theorem sized_constructor {S} n (s : S) :
  Vector_sized 0 s = Ok Vector_default s [] /\
  (0 < n -> operator_new n = NewThrows -> Vector_sized n s = Throw s []) /\
  (0 < n -> alloc_fails n = false ->
     (forall d, value_init = Some d ->
        Vector_sized n s
        = Ok (vec (replicate n d) n) s (EvAllocate n :: replicate n (EvValueInit d))) /\
     (value_init = None ->
        Vector_sized n s = Throw s [EvAllocate n; EvDeallocate []])) /\
  (0 < n -> wraps n = true ->
     Vector_sized n s
     = match value_init with
       | Some _ => Fault
       | None => Throw s [EvAllocate n; EvDeallocate []]
       end).
Proof.
  assert (Hrun : forall k, wraps k = false -> Vector_sized k s
    = if negb (k =? 0) && alloc_fails k then Throw s []
      else match value_init with
           | Some d => Ok (vec (replicate k d) k) s
                         (allocation_log k ++ replicate k (EvValueInit d))
           | None => if k =? 0 then Ok Vector_default s []
                     else Throw s (allocation_log k ++ [EvDeallocate []])
           end).
  { intros k Hw. unfold Vector_sized, constructing, bind at 1.
    rewrite RawMemory_ctor_spec by done.
    destruct (negb (k =? 0) && alloc_fails k); [done|].
    unfold bind, zoom. cbn [buffer_].
    rewrite <- (app_nil_r (replicate k Raw)).
    rew (uninitialized_value_construct_n_spec [] [] k).
    destruct value_init as [d|].
    - unfold ret, set_buffer. cbn [buffer_ capacity_]. rewrite !app_nil_r.
      f_equal. apply (vec_eq (replicate k d) _ k 0 k); [|len|len].
      by rewrite fmap_replicate, app_nil_r.
    - destruct k; [done|]. cbn [Nat.eqb]. unfold set_buffer.
      cbn [buffer_ capacity_ app]. unfold RawMemory_dtor, bind, get, Deallocate, emit.
      cbn [buffer_]. rewrite ?app_nil_r, ?live_objects_raw. done. }
  split; [|split; [|split]].
  - unfold Vector_sized, constructing, bind at 1. by rewrite RawMemory_ctor_block.
  - intros Hn Hnew. unfold Vector_sized, constructing, bind at 1.
    rewrite RawMemory_ctor_block, Hnew.
    by replace (n =? 0) with false by (symmetry; apply Nat.eqb_neq; lia).
  - intros Hn Ha. rewrite Hrun, Ha by (by apply alloc_fails_wraps).
    unfold allocation_log.
    replace (n =? 0) with false by (symmetry; apply Nat.eqb_neq; lia).
    split; [by intros d ->|by intros ->].
  - intros Hn (k & Hnew & Hk)%wraps_block.
    unfold Vector_sized, constructing, bind at 1.
    rewrite RawMemory_ctor_block, Hnew.
    replace (n =? 0) with false by (symmetry; apply Nat.eqb_neq; lia).
    unfold bind, zoom. cbn [buffer_].
    rew (uninitialized_value_construct_n_short [] k n 0 eq_refl Hk).
    destruct value_init as [d|]; [done|].
    unfold set_buffer. cbn [buffer_ capacity_ app].
    unfold RawMemory_dtor, bind, get, Deallocate, emit.
    cbn [buffer_]. by rewrite ?app_nil_r, ?live_objects_raw.
Qed.

Lemma Vector_copy_spec {S} (ys : list T) c (s : S) :
  length ys <= c -> wraps (length ys) = false ->
  Vector_copy (vec ys c) s
  = if negb (length ys =? 0) && alloc_fails (length ys) then Throw s []
    else if none_throws copy_ctor_throws ys
    then Ok (vec ys (length ys)) s (allocation_log (length ys) ++ (EvCopyCtor <$> ys))
    else Throw s
           (allocation_log (length ys) ++
            (EvCopyCtor <$> before_throw copy_ctor_throws ys) ++
            (EvDestroy <$> before_throw copy_ctor_throws ys) ++
            [EvDeallocate []]).
Proof.
  intros Hle Hw.
  unfold Vector_copy, constructing, bind at 1. cbn [vec size_].
  rewrite RawMemory_ctor_spec by done.
  destruct (negb (length ys =? 0) && alloc_fails (length ys)); [done|].
  unfold bind, zoom. cbn [vec size_ data_ buffer_ fst snd GetAddress].
  rewrite <- (app_nil_r (replicate (length ys) Raw)).
  change (GetAddress _) with 0.
  rew (uninitialized_copy_n_spec [] (replicate (c - length ys) Raw) [] [] ys).
  destruct (none_throws copy_ctor_throws ys).
  - unfold ret, set_buffer. cbn [snd buffer_ capacity_]. rewrite !app_nil_r.
    f_equal. apply (vec_eq ys _ (length ys) 0 (length ys)); [|lia|done].
    cbn [replicate]. by rewrite app_nil_r.
  - unfold set_buffer. cbn [snd buffer_ capacity_].
    unfold RawMemory_dtor, bind, get, Deallocate, emit. cbn [buffer_].
    rewrite ?app_nil_r, ?live_objects_raw. by rewrite <- app_assoc.
Qed.

Lemma Vector_copy_throws {S} (ys : list T) c (s : S) :
  ys <> [] -> operator_new (length ys) = NewThrows ->
  Vector_copy (vec ys c) s = Throw s [].
Proof.
  intros Hys Hnew. unfold Vector_copy, constructing, bind at 1. cbn [vec size_].
  rewrite RawMemory_ctor_block, Hnew.
  by replace (length ys =? 0) with false
    by (symmetry; apply Nat.eqb_neq; destruct ys; [done|cbn; lia]).
Qed.

(** X10.  [Vector(const Vector& other)].  The copy holds the same elements
    in a block of exactly [other.size_] slots, whatever the capacity of
    [other]; an empty vector is copied without any allocation.  When the
    allocation throws, nothing has happened.  When a copy constructor throws,
    the copies made so far, and no other object, are destroyed, each once,
    the block is released with no object left in it, and no vector comes into
    being.  The order in which the library destroys the copies is not part
    of the statement. *)
Theorem copy_constructor {S} (other : Vector T) (s : S) :
  invariant other = true ->
  (size_ other = 0 -> Vector_copy other s = Ok Vector_default s []) /\
  (0 < size_ other -> operator_new (size_ other) = NewThrows ->
     Vector_copy other s = Throw s []) /\
  (0 < size_ other -> alloc_fails (size_ other) = false ->
     if none_throws copy_ctor_throws (contents other)
     then Vector_copy other s
          = Ok (vec (contents other) (size_ other)) s
              (EvAllocate (size_ other) :: (EvCopyCtor <$> contents other))
     else exists destroyed,
       Vector_copy other s
       = Throw s
           (EvAllocate (size_ other) ::
            (EvCopyCtor <$> before_throw copy_ctor_throws (contents other)) ++
            (EvDestroy <$> destroyed) ++ [EvDeallocate []]) /\
       destroyed ≡ₚ before_throw copy_ctor_throws (contents other)).
Proof.
  intros (ys & c & Hle & ->)%invariant_spec.
  rewrite contents_vec. cbn [vec size_]. fold (vec ys c). split; [|split].
  - intros Hnil. apply length_zero_iff_nil in Hnil as ->.
    unfold Vector_copy, constructing, bind at 1. cbn [vec size_ length].
    by rewrite RawMemory_ctor_block.
  - intros Hn Hnew. apply Vector_copy_throws; [|done].
    intros ->. cbn in Hn. lia.
  - intros Hn Ha. rewrite Vector_copy_spec by (done || by apply alloc_fails_wraps).
    rewrite Ha. unfold allocation_log.
    replace (length ys =? 0) with false by (symmetry; apply Nat.eqb_neq; lia).
    cbn [negb andb]. destruct (none_throws copy_ctor_throws ys); [done|].
    by exists (before_throw copy_ctor_throws ys).
Qed.
End Constructors.

(** ** Copy assignment between two objects *)

Section CopyAssignment.
Context {T : Type} `{!Element T} `{!Allocator}.

Local Abbreviation block := (list (slot T)).

Lemma allocations_app (l1 l2 : list (event T)) :
  allocations (l1 ++ l2) = allocations l1 + allocations l2.
Proof.
  induction l1 as [|e l1 IH]; [done|]. destruct e; cbn [app allocations]; lia.
Qed.

Lemma abandoned_app (l1 l2 : list (event T)) :
  abandoned (l1 ++ l2) = abandoned l1 ++ abandoned l2.
Proof.
  induction l1 as [|e l1 IH]; [done|].
  destruct e; cbn [app abandoned]; rewrite ?IH, <- ?app_assoc; done.
Qed.

Lemma assign_log_quiet (xs ys : list T) :
  allocations (assign_log xs ys) = 0 /\ abandoned (assign_log xs ys) = [].
Proof.
  revert ys. induction xs as [|x xs IH]; intros [|y ys]; try done.
  cbn [assign_log]. destruct (copy_assign_throws x y); [done|]. apply IH.
Qed.

Lemma element_events_quiet (f : T -> event T) (xs : list T) :
  (forall x n, f x <> EvAllocate n) -> (forall x zs, f x <> EvDeallocate zs) ->
  allocations (f <$> xs) = 0 /\ abandoned (f <$> xs) = [].
Proof.
  intros Ha Hd. induction xs as [|x xs [IH1 IH2]]; [done|].
  cbn [fmap list_fmap allocations abandoned].
  destruct (f x) eqn:E; try done; exfalso; [by eapply Ha|by eapply Hd].
Qed.

Lemma assigned_length (xs ys : list T) : length (assigned xs ys) = length xs.
Proof.
  revert ys. induction xs as [|x xs IH]; intros [|y ys]; try done.
  cbn [assigned]. destruct (copy_assign_throws x y); [done|].
  cbn [length]. by rewrite IH.
Qed.

Lemma assigned_lookup (xs ys : list T) i :
  length xs = length ys ->
  assigned xs ys !! i = xs !! i \/ assigned xs ys !! i = ys !! i.
Proof.
  revert ys i. induction xs as [|x xs IH]; intros [|y ys] i Hlen; try done.
  - by left.
  - cbn [assigned]. destruct (copy_assign_throws x y); [by left|].
    destruct i as [|i]; [by right|]. cbn. apply IH. by injection Hlen.
Qed.

Lemma assigned_ok (xs ys : list T) :
  length xs = length ys -> assign_ok xs ys = true -> assigned xs ys = ys.
Proof.
  revert ys. induction xs as [|x xs IH]; intros [|y ys] Hlen; try done.
  cbn [assign_ok assigned]. destruct (copy_assign_throws x y); [done|].
  cbn [negb andb]. intros Hok. f_equal. apply IH; [by injection Hlen|done].
Qed.

Lemma assign_ok_never (xs ys : list T) :
  (forall x y, copy_assign_throws x y = false) -> assign_ok xs ys = true.
Proof.
  intros Hf. revert ys. induction xs as [|x xs IH]; intros [|y ys]; try done.
  cbn [assign_ok]. by rewrite Hf, IH.
Qed.

Lemma assign_loop_spec (this rhs : Vector T) (spre spost dpre dpost : block)
    ys xs i :
  i = length spre -> i = length dpre -> length xs = length ys ->
  i + length ys <= capacity_ (data_ rhs) ->
  i + length ys <= capacity_ (data_ this) ->
  assign_loop this rhs i (length ys)
    (spre ++ (Live <$> ys) ++ spost, dpre ++ (Live <$> xs) ++ dpost)
  = if assign_ok xs ys
    then Ok tt (spre ++ (Live <$> ys) ++ spost, dpre ++ (Live <$> ys) ++ dpost)
           (assign_log xs ys)
    else Throw (spre ++ (Live <$> ys) ++ spost,
                dpre ++ (Live <$> assigned xs ys) ++ dpost)
           (assign_log xs ys).
Proof.
  revert xs spre dpre i.
  induction ys as [|y ys IH]; intros [|x xs] spre dpre i Hs Hd Hlen Hr Ht; try done.
  cbn [length] in Hr, Ht.
  cbn [assign_loop length fmap list_fmap app assign_ok assign_log assigned].
  unfold bind at 1, RawMemory_at at 1, assert, bind at 1.
  replace (i <? capacity_ (data_ rhs)) with true by (symmetry; apply Nat.ltb_lt; lia).
  unfold ret at 1 2. cbn [app].
  unfold bind at 1, RawMemory_at at 1, assert, bind at 1.
  replace (i <? capacity_ (data_ this)) with true by (symmetry; apply Nat.ltb_lt; lia).
  unfold ret at 1 2. cbn [app].
  unfold bind at 1, on_src at 1, zoom at 1. cbn [fst snd].
  rewrite (load_at spre) by done.
  unfold bind at 1, on_dst at 1, zoom at 1. cbn [fst snd].
  rewrite (load_at dpre) by done.
  unfold bind at 1.
  destruct (copy_assign_throws x y); [done|]. cbn [negb andb].
  unfold bind at 1, on_dst at 1, zoom at 1. cbn [fst snd].
  rewrite (store_at dpre) by done. unfold emit. cbn [fst snd app].
  rewrite (snoc_middle spre), (snoc_middle dpre).
  rewrite (IH xs (spre ++ [Live y]) (dpre ++ [Live y]) (S i));
    [|len|len|by injection Hlen|lia|lia].
  destruct (assign_ok xs ys); by rewrite <- !app_assoc.
Qed.

(** the in-place path of copy assignment, run on two distinct objects *)
Lemma copy_assign_in_place_spec (xs ys : list T) cap c2 :
  let m := length ys `min` length xs in
  length xs <= cap -> length ys <= c2 -> length ys <= cap ->
  copy_assign_body (vec xs cap, vec ys c2)
  = if assign_ok (take m xs) (take m ys) then
      if length ys <? length xs
      then Ok tt (vec ys cap, vec ys c2)
             (assign_log (take m xs) (take m ys) ++ (EvDestroy <$> drop m xs))
      else if none_throws copy_ctor_throws (drop m ys)
      then Ok tt (vec ys cap, vec ys c2)
             (assign_log (take m xs) (take m ys) ++ (EvCopyCtor <$> drop m ys))
      else Throw (vec (take m ys) cap, vec ys c2)
             (assign_log (take m xs) (take m ys) ++
              (EvCopyCtor <$> before_throw copy_ctor_throws (drop m ys)) ++
              (EvDestroy <$> before_throw copy_ctor_throws (drop m ys)))
    else Throw (vec (assigned (take m xs) (take m ys) ++ drop m xs) cap, vec ys c2)
           (assign_log (take m xs) (take m ys)).
Proof.
  intros m Hx Hy Hcap.
  assert (Hm1 : length (take m ys) = m) by (rewrite length_take; lia).
  assert (Hm2 : length (take m xs) = m) by (rewrite length_take; lia).
  set (R1 := vec ys cap). set (R2 := vec (take m ys) cap).
  set (R3 := vec (assigned (take m xs) (take m ys) ++ drop m xs) cap).
  unfold copy_assign_body, bind at 1, get.
  cbn [fst snd vec size_ data_ capacity_ RawMemory_Capacity app].
  fold (vec xs cap). fold (vec ys c2).
  replace (cap <? length ys) with false by (symmetry; apply Nat.ltb_ge; lia).
  fold m. unfold bind at 1, rhs_to_this at 1, zoom at 1.
  cbn [fst snd vec size_ data_ buffer_ capacity_].
  replace (Live <$> ys) with ((Live <$> take m ys) ++ (Live <$> drop m ys))
    by (by rewrite <- fmap_app, take_drop).
  replace (Live <$> xs) with ((Live <$> take m xs) ++ (Live <$> drop m xs))
    by (by rewrite <- fmap_app, take_drop).
  rewrite <- !app_assoc.
  rewrite <- Hm1 at 1.
  rew (assign_loop_spec (vec xs cap) (vec ys c2)
         [] ((Live <$> drop m ys) ++ replicate (c2 - length ys) Raw)
         [] ((Live <$> drop m xs) ++ replicate (cap - length xs) Raw)
         (take m ys) (take m xs) 0 eq_refl eq_refl).
  all: cbn [vec data_ capacity_]; try lia.
  destruct (assign_ok (take m xs) (take m ys)) eqn:Hok.
  2:{ unfold set_data, set_buffer. cbn [fst snd data_ buffer_ capacity_ size_].
      f_equal. f_equal.
      - subst R3. apply (vec_eq _ _ cap (cap - length xs) (length xs)).
        + by rewrite fmap_app, <- app_assoc.
        + rewrite length_app, assigned_length, length_drop. lia.
        + rewrite length_app, assigned_length, length_drop. lia.
      - unfold vec. by rewrite app_assoc, <- fmap_app, take_drop. }
  unfold set_data, set_buffer.
  cbn [fst snd app vec size_ data_ buffer_ capacity_ GetAddress Nat.add].
  destruct (length ys <? length xs) eqn:Hlt.
  - apply Nat.ltb_lt in Hlt. assert (m = length ys) as Hm by lia.
    unfold bind at 1, zoom at 1, in_data, zoom.
    cbn [fst snd data_ buffer_ capacity_ size_].
    rewrite Hm, take_ge by lia.
    rewrite (drop_ge ys) by lia. cbn [fmap list_fmap app].
    rewrite (destroy_n_at' (Live <$> ys) _ (drop (length ys) xs)) by len.
    unfold set_data, set_buffer. cbn [fst snd data_ buffer_ capacity_ size_].
    unfold modify, bind, get, put. cbn [fst snd app]. rewrite app_nil_r.
    f_equal. f_equal.
    apply (vec_eq ys _ cap (cap - length ys) (length ys)); [|lia|done].
    rewrite <- replicate_add. do 2 f_equal. lia.
  - apply Nat.ltb_ge in Hlt. assert (m = length xs) as Hm by lia.
    unfold bind at 1, rhs_to_this, zoom at 1.
    cbn [fst snd data_ buffer_ capacity_ size_].
    rewrite (replicate_split (cap - length xs) (length ys - length xs)) by lia.
    rewrite (drop_ge xs m) by lia. cbn [fmap list_fmap app].
    rewrite (uninitialized_copy_n_at (Live <$> take m ys) _ (Live <$> take m ys) _
               (drop m ys)) by len.
    destruct (none_throws copy_ctor_throws (drop m ys)).
    + unfold set_data, set_buffer. cbn [fst snd data_ buffer_ capacity_ size_].
      unfold modify, bind, get, put. cbn [fst snd app]. rewrite app_nil_r.
      f_equal. f_equal.
      * apply (vec_eq ys _ cap (cap - length ys) (length ys)); [|lia|done].
        rewrite app_assoc, <- fmap_app, take_drop. do 2 f_equal. lia.
      * unfold vec. by rewrite app_assoc, <- fmap_app, take_drop.
    + unfold set_data, set_buffer. cbn [fst snd data_ buffer_ capacity_ size_].
      f_equal. f_equal.
      * subst R2. apply (vec_eq (take m ys) _ cap (cap - length xs) (length xs));
          [|lia|lia].
        by rewrite <- replicate_split by lia.
      * unfold vec. by rewrite app_assoc, <- fmap_app, take_drop.
Qed.
(** the regrow path of copy assignment, run on two distinct objects *)
Lemma copy_assign_regrow_spec (xs ys : list T) cap c2 :
  length xs <= cap -> length ys <= c2 -> cap < length ys ->
  wraps (length ys) = false ->
  copy_assign_body (vec xs cap, vec ys c2)
  = if alloc_fails (length ys) then Throw (vec xs cap, vec ys c2) []
    else if none_throws copy_ctor_throws ys
    then Ok tt (vec ys (length ys), vec ys c2)
           (EvAllocate (length ys) :: (EvCopyCtor <$> ys) ++ (EvDestroy <$> xs) ++
            [EvDeallocate []])
    else Throw (vec xs cap, vec ys c2)
           (EvAllocate (length ys) ::
            (EvCopyCtor <$> before_throw copy_ctor_throws ys) ++
            (EvDestroy <$> before_throw copy_ctor_throws ys) ++
            [EvDeallocate []]).
Proof.
  intros Hx Hy Hcap Hw.
  unfold copy_assign_body, bind at 1, get.
  cbn [fst snd vec size_ data_ capacity_ RawMemory_Capacity app].
  fold (vec xs cap). fold (vec ys c2).
  replace (cap <? length ys) with true by (symmetry; by apply Nat.ltb_lt).
  unfold scoped. rewrite Vector_copy_spec by done. unfold allocation_log.
  replace (length ys =? 0) with false by (symmetry; apply Nat.eqb_neq; lia).
  cbn [negb andb app].
  destruct (alloc_fails (length ys)); [done|].
  destruct (none_throws copy_ctor_throws ys); [|done].
  unfold zoom. cbn [fst snd]. rewrite Swap_spec. cbn [fst snd].
  rewrite Vector_dtor_spec by done. by rewrite <- ?app_assoc.
Qed.

(** X11.  Copy assignment between two distinct vectors, when no element
    operation throws.  If the source fits in the capacity of the target, the
    common prefix is copy-assigned element by element, then the surplus of
    the target is destroyed or the missing tail is copy-constructed; nothing
    is allocated and the capacity stays.  Otherwise a copy of the source is
    built in a block of exactly [rhs.size_] slots, and then the old elements
    are destroyed and the old block released.  Either way the target holds
    the elements of the source and the source is unchanged. *)
Theorem copy_assignment (this rhs : Vector T) :
  invariant this = true -> invariant rhs = true ->
  (forall x y, copy_assign_throws x y = false) ->
  (forall y, copy_ctor_throws y = false) ->
  (size_ rhs <= Capacity this ->
     let m := size_ rhs `min` size_ this in
     copy_assign_body (this, rhs)
     = Ok tt (vec (contents rhs) (Capacity this), rhs)
         (assign_log (take m (contents this)) (take m (contents rhs)) ++
          if size_ rhs <? size_ this
          then EvDestroy <$> drop m (contents this)
          else EvCopyCtor <$> drop m (contents rhs))) /\
  (Capacity this < size_ rhs -> alloc_fails (size_ rhs) = false ->
     copy_assign_body (this, rhs)
     = Ok tt (vec (contents rhs) (size_ rhs), rhs)
         (EvAllocate (size_ rhs) :: (EvCopyCtor <$> contents rhs) ++
          (EvDestroy <$> contents this) ++ [EvDeallocate []])).
Proof.
  intros (xs & cap & Hx & ->)%invariant_spec (ys & c2 & Hy & ->)%invariant_spec Ha Hc.
  rewrite !contents_vec. cbn [vec size_ Capacity RawMemory_Capacity data_ capacity_].
  split.
  - intros Hcap. pose proof (copy_assign_in_place_spec xs ys cap c2) as Hspec.
    cbn zeta in Hspec. rewrite Hspec by done.
    rewrite assign_ok_never, none_throws_never by done.
    by destruct (length ys <? length xs).
  - intros Hcap Hal.
    rewrite copy_assign_regrow_spec by (done || by apply alloc_fails_wraps).
    by rewrite Hal, none_throws_never.
Qed.

(** X12.  A copy assignment that fits in the capacity and fails gives the
    basic guarantee only.  The target keeps its size and capacity and
    satisfies the invariant, every one of its elements is either the old
    one or already the copy of the one at the same position of the source,
    the source is unchanged, and nothing was allocated or abandoned. *)
Theorem copy_assign_in_place_failure (this rhs : Vector T) s' log :
  invariant this = true -> invariant rhs = true ->
  size_ rhs <= Capacity this ->
  copy_assign_body (this, rhs) = Throw s' log ->
  s'.2 = rhs /\
  invariant s'.1 = true /\
  size_ s'.1 = size_ this /\
  Capacity s'.1 = Capacity this /\
  (forall i, i < size_ this ->
     contents s'.1 !! i = contents this !! i \/
     contents s'.1 !! i = contents rhs !! i) /\
  allocations log = 0 /\ abandoned log = [].
Proof.
  intros (xs & cap & Hx & ->)%invariant_spec (ys & c2 & Hy & ->)%invariant_spec.
  rewrite !contents_vec. cbn [vec size_ Capacity RawMemory_Capacity data_ capacity_].
  intros Hcap. pose proof (copy_assign_in_place_spec xs ys cap c2) as Hspec.
  cbn zeta in Hspec. rewrite Hspec by done. clear Hspec.
  set (m := length ys `min` length xs).
  assert (Hm1 : length (take m ys) = m) by (rewrite length_take; lia).
  assert (Hm2 : length (take m xs) = m) by (rewrite length_take; lia).
  destruct (assign_log_quiet (take m xs) (take m ys)) as [Hq1 Hq2].
  destruct (assign_ok (take m xs) (take m ys)) eqn:Hok.
  - destruct (length ys <? length xs) eqn:Hlt; [done|].
    apply Nat.ltb_ge in Hlt. assert (m = length xs) as Hm by lia.
    destruct (none_throws copy_ctor_throws (drop m ys)); [done|].
    intros [= <- <-]. cbn [fst snd]. rewrite contents_vec.
    cbn [vec size_ Capacity RawMemory_Capacity data_ capacity_].
    split; [done|]. split; [apply invariant_vec; lia|].
    split; [lia|]. split; [done|]. split.
    + intros i Hi. right. apply lookup_take_lt. lia.
    + rewrite !allocations_app, !abandoned_app, Hq1, Hq2.
      destruct (element_events_quiet EvCopyCtor
                  (before_throw copy_ctor_throws (drop m ys))) as [-> ->]; [done..|].
      by destruct (element_events_quiet EvDestroy
                  (before_throw copy_ctor_throws (drop m ys))) as [-> ->].
  - intros [= <- <-]. cbn [fst snd]. rewrite contents_vec.
    cbn [vec size_ Capacity RawMemory_Capacity data_ capacity_].
    assert (Hlen : length (assigned (take m xs) (take m ys) ++ drop m xs) = length xs)
      by (rewrite length_app, assigned_length, length_drop; lia).
    split; [done|]. split; [apply invariant_vec; lia|].
    split; [done|]. split; [done|]. split; [|done].
    intros i Hi. destruct (decide (i < m)) as [Him|Him].
    + rewrite lookup_app_l by (rewrite assigned_length; lia).
      destruct (assigned_lookup (take m xs) (take m ys) i) as [->| ->]; [lia| |].
      * left. apply lookup_take_lt. lia.
      * right. apply lookup_take_lt. lia.
    + left. rewrite lookup_app_r by (rewrite assigned_length; lia).
      rewrite assigned_length, Hm2, lookup_drop. f_equal. lia.
Qed.
End CopyAssignment.

(** ** Insertion and erasure at any position *)

Section Positions.
Context {T : Type} `{!Element T} `{!Allocator}.

Local Abbreviation block := (list (slot T)).

Lemma construct_ref (b : block) i x :
  b !! i = Some (Live x) -> copy_ctor_throws x = false ->
  construct (RefToSlot i) b = Ok x b [EvCopyCtor x].
Proof.
  intros Hb Hx. unfold construct, bind, load, copy_construct. rewrite Hb, Hx. done.
Qed.

Lemma vec_lookup_live (xs : list T) cap i x :
  xs !! i = Some x -> buffer_ (data_ (vec xs cap)) !! i = Some (Live x).
Proof.
  intros Hx. cbn [vec data_ buffer_]. apply lookup_app_l_Some.
  by rewrite list_lookup_fmap, Hx.
Qed.

Lemma gap_block_lookup_before (pre suf : list T) z k i x :
  pre !! i = Some x -> gap_block pre suf z k !! i = Some (Live x).
Proof.
  intros Hx. unfold gap_block. apply lookup_app_l_Some.
  by rewrite list_lookup_fmap, Hx.
Qed.

Lemma gap_block_lookup_behind (pre suf : list T) z k j y :
  (suf ++ [z]) !! j = Some y ->
  gap_block pre suf z k !! (length pre + 1 + j) = Some (Live y).
Proof.
  intros Hy. unfold gap_block.
  rewrite lookup_app_r by len.
  replace (length pre + 1 + j - length (Live <$> pre)) with (S j) by len.
  cbn [lookup list_lookup].
  change (Live z :: replicate k Raw) with ([Live z] ++ replicate k Raw).
  rewrite app_assoc. apply lookup_app_l_Some.
  change [Live z] with (Live <$> [z]). by rewrite <- fmap_app, list_lookup_fmap, Hy.
Qed.

(** an insert whose new element is constructed from arguments that give
    [x] whenever the elements in front of the position are in place *)
Lemma Insert_args_spec (xs : list T) cap position args x :
  length xs <= cap -> position <= length xs ->
  (forall b : block,
     (forall j y, j < position -> xs !! j = Some y -> b !! j = Some (Live y)) ->
     (position = length xs \/ length xs = cap -> b = buffer_ (data_ (vec xs cap))) ->
     exists lc, construct args b = Ok x b lc) ->
  (forall m, alloc_fails m = false) ->
  (forall y, copy_ctor_throws y = false) ->
  (forall y, move_ctor_throws y = false) ->
  (forall t y, move_assign_throws t y = false) ->
  exists log,
    Insert position args (vec xs cap)
    = Ok position
        (vec (take position xs ++ x :: drop position xs)
             (if length xs <? cap then cap else Nat.max 1 (length xs * 2)))
        log.
Proof.
  intros Hle Hpos Hcons Ha Hc Hm Hs. unfold Insert.
  assert (Hw : forall m, wraps m = false) by (intros m; by apply alloc_fails_wraps).
  assert (Hbuf : position = length xs \/ length xs = cap ->
    exists lc, construct args (buffer_ (data_ (vec xs cap)))
               = Ok x (buffer_ (data_ (vec xs cap))) lc).
  { intros Hcase. apply Hcons; [|done].
    intros j y _ Hy. by apply vec_lookup_live. }
  destruct (decide (position = length xs)) as [->|Hne].
  - rewrite Emplace_end by done. rewrite take_ge, drop_ge by lia.
    destruct Hbuf as [lc Hlc]; [by left|].
    rewrite EmplaceBack_spec by done.
    rewrite Hlc, Ha, (relocation_ok_never xs Hc Hm).
    destruct (length xs =? cap) eqn:Hfull.
    + apply Nat.eqb_eq in Hfull. subst cap.
      rewrite Nat.ltb_irrefl, grown_max. by eexists.
    + apply Nat.eqb_neq in Hfull.
      replace (length xs <? cap) with true by (symmetry; apply Nat.ltb_lt; lia).
      by eexists.
  - rewrite Emplace_middle by done.
    cbn [vec size_ Capacity RawMemory_Capacity data_ capacity_].
    destruct (length xs <? cap) eqn:Hroom.
    + apply Nat.ltb_lt in Hroom.
      destruct (list_last_split (drop position xs)) as (suf & z & Hsuf).
      { intros Hnil. apply (f_equal length) in Hnil.
        rewrite length_drop in Hnil. cbn in Hnil. lia. }
      pose proof (take_drop position xs) as Hxs. rewrite Hsuf in Hxs.
      pose proof (EmplaceEnoughtCapacity_spec args (take position xs) suf z cap)
        as Hins.
      cbn zeta in Hins. rewrite Hxs, length_take in Hins.
      replace (position `min` length xs) with position in Hins by lia.
      rewrite Hins; [|done|done|by apply shift_ok_never].
      destruct (Hcons (gap_block (take position xs) suf z (cap - length xs - 1)))
        as [lc Hlc].
      { intros j y Hj Hy. apply gap_block_lookup_before. by rewrite lookup_take_lt. }
      { intros [?|?]; lia. }
      rewrite Hlc, Hs, Hsuf. by eexists.
    + apply Nat.ltb_ge in Hroom. assert (cap = length xs) as -> by lia.
      destruct Hbuf as [lc Hlc]; [by right|].
      pose proof (EmplaceNoCapacity_spec args (take position xs)
                    (drop position xs)) as Hins.
      cbn zeta in Hins. rewrite take_drop, length_take in Hins.
      replace (position `min` length xs) with position in Hins by lia.
      rewrite Hins, Ha, Hlc, !relocation_ok_never by done.
      rewrite grown_max. by eexists.
Qed.

Lemma Insert_value_spec (xs : list T) cap position x :
  length xs <= cap -> position <= length xs ->
  (forall m, alloc_fails m = false) ->
  (forall y, copy_ctor_throws y = false) ->
  (forall y, move_ctor_throws y = false) ->
  (forall t y, move_assign_throws t y = false) ->
  exists log,
    Insert position (ByValue x) (vec xs cap)
    = Ok position
        (vec (take position xs ++ x :: drop position xs)
             (if length xs <? cap then cap else Nat.max 1 (length xs * 2)))
        log.
Proof.
  intros Hle Hpos Ha Hc Hm Hs. apply Insert_args_spec; try done.
  intros b _ _. by eexists.
Qed.

Lemma Erase_at_spec (xs : list T) cap position :
  length xs <= cap -> position < length xs ->
  (forall t y, move_assign_throws t y = false) ->
  exists log,
    Erase position (vec xs cap)
    = Ok position (vec (take position xs ++ drop (S position) xs) cap) log /\
    allocations log = 0.
Proof.
  intros Hle Hpos Hs.
  destruct (lookup_lt_is_Some_2 xs position Hpos) as [x Hx].
  pose proof (take_drop_middle xs position x Hx) as Hxs.
  pose proof (Erase_spec (take position xs) x (drop (S position) xs) cap) as Hrun.
  rewrite Hxs, length_take in Hrun.
  replace (position `min` length xs) with position in Hrun by lia.
  rewrite Hrun; [|done|by apply shift_ok_never].
  eexists. split; [done|].
  rewrite allocations_app. cbn [allocations].
  generalize (drop (S position) xs) x. clear.
  intros ys. induction ys as [|y ys IH]; intros x; [done|].
  cbn [shift_log allocations]. apply IH.
Qed.

(** X13.  [Insert] at any position [0 <= p <= size], when no allocation
    and no element operation fails, of a value, or of a copy of an element
    of the vector itself that sits in front of [p] or, when the block is
    full, anywhere: the elements before [p] stay, the new element is at [p],
    the others follow in order, and the iterator returned names position [p]
    of the block the vector has after the call.  With room in the block the
    capacity stays; with a full block it becomes [max(1, size * 2)]. *)
Theorem insert_anywhere (v : Vector T) position args x :
  invariant v = true ->
  position <= size_ v ->
  args = ByValue x \/
    (exists i, args = RefToSlot i /\ contents v !! i = Some x /\
               (i < position \/ size_ v = Capacity v)) ->
  (forall m, alloc_fails m = false) ->
  (forall y, copy_ctor_throws y = false) ->
  (forall y, move_ctor_throws y = false) ->
  (forall t y, move_assign_throws t y = false) ->
  exists v' log,
    Insert (begin_ v + position) args v = Ok (begin_ v' + position) v' log /\
    v' = vec (take position (contents v) ++ x :: drop position (contents v))
             (if size_ v <? Capacity v then Capacity v
              else Nat.max 1 (size_ v * 2)).
Proof.
  intros (xs & cap & Hle & ->)%invariant_spec.
  rewrite contents_vec. unfold begin_, GetAddress.
  cbn [vec size_ Capacity RawMemory_Capacity data_ capacity_ Nat.add].
  fold (vec xs cap).
  intros Hpos Hargs Ha Hc Hm Hs.
  destruct (Insert_args_spec xs cap position args x) as [log Hrun]; try done.
  - intros b Hfront Hblock.
    destruct Hargs as [->|(i & -> & Hx & Hi)]; [by eexists|].
    exists [EvCopyCtor x]. apply construct_ref; [|done].
    destruct Hi as [Hi|Hfull]; [by apply Hfront|].
    rewrite Hblock by (by right). by apply vec_lookup_live.
  - by eexists _, log.
Qed.

(** X14.  [Erase] has no bounds check.  For a position inside the vector,
    when no move assignment throws, the element there is removed, the ones
    behind it move one slot to the front, the capacity stays, nothing is
    allocated, and the iterator returned names the same position.  For
    [end()] and everything behind it the call is a fault. *)
Theorem erase_anywhere (v : Vector T) position :
  invariant v = true ->
  (size_ v <= position -> Erase (begin_ v + position) v = Fault) /\
  (position < size_ v ->
   (forall t y, move_assign_throws t y = false) ->
   exists log,
     Erase (begin_ v + position) v
     = Ok (begin_ v + position)
         (vec (take position (contents v) ++ drop (S position) (contents v))
              (Capacity v))
         log /\
     allocations log = 0).
Proof.
  intros (xs & cap & Hle & ->)%invariant_spec.
  rewrite contents_vec. unfold begin_ at 1 2 3, GetAddress.
  cbn [vec size_ Capacity RawMemory_Capacity data_ capacity_ Nat.add].
  split; [|by apply Erase_at_spec].
  intros Hpos. unfold Erase, bind at 1, get. unfold bind at 1.
  rewrite minus_checked_ok by (unfold begin_, GetAddress; lia).
  norm_state. rewrite Nat.sub_0_r.
  unfold bind at 1, in_data at 1, zoom at 1, std_move. norm_state.
  cbn [vec size_].
  by replace (position + 1 <=? length xs) with false
    by (symmetry; apply Nat.leb_gt; lia).
Qed.

(** X15.  Erasing at the position of an insert undoes the insert, at any
    position and for any vector: the elements are the ones there were
    before, in the same order.  The capacity is the one the insert left. *)
Theorem insert_then_erase (v : Vector T) position x :
  invariant v = true ->
  position <= size_ v ->
  (forall m, alloc_fails m = false) ->
  (forall y, copy_ctor_throws y = false) ->
  (forall y, move_ctor_throws y = false) ->
  (forall t y, move_assign_throws t y = false) ->
  exists v1 log1 log2,
    Insert (begin_ v + position) (ByValue x) v = Ok (begin_ v + position) v1 log1 /\
    contents v1 !! position = Some x /\
    Erase (begin_ v1 + position) v1
      = Ok (begin_ v1 + position) (vec (contents v) (Capacity v1)) log2 /\
    Capacity v <= Capacity v1.
Proof.
  intros (xs & cap & Hle & ->)%invariant_spec Hpos Ha Hc Hm Hs.
  rewrite contents_vec. unfold begin_, GetAddress.
  cbn [vec size_ Capacity RawMemory_Capacity data_ capacity_ Nat.add] in *.
  destruct (Insert_value_spec xs cap position x Hle Hpos Ha Hc Hm Hs) as [log1 Hins].
  set (cap' := if length xs <? cap then cap else Nat.max 1 (length xs * 2)) in *.
  assert (Hcap : length xs + 1 <= cap' /\ cap <= cap').
  { subst cap'. destruct (length xs <? cap) eqn:Hroom.
    - apply Nat.ltb_lt in Hroom. lia.
    - apply Nat.ltb_ge in Hroom. lia. }
  assert (Hlen : length (take position xs ++ x :: drop position xs) = length xs + 1).
  { rewrite length_app, length_take. cbn [length]. rewrite length_drop. lia. }
  destruct (Erase_at_spec (take position xs ++ x :: drop position xs) cap' position)
    as (log2 & Hers & _); [lia|lia|done|].
  eexists _, log1, log2. split; [exact Hins|].
  rewrite contents_vec. cbn [vec size_ Capacity RawMemory_Capacity data_ capacity_].
  split; [|split; [|lia]].
  - apply list_lookup_middle. rewrite length_take. lia.
  - rewrite Hers. do 2 f_equal.
    assert (Htake : length (take position xs) = position) by (rewrite length_take; lia).
    rewrite take_app_length' by done.
    rewrite (cons_middle x), app_assoc, drop_app_length' by len.
    apply take_drop.
Qed.
End Positions.

(** ** Arguments that name an element of the vector itself *)

Section OwnElements.
Context {T : Type} `{!Element T} `{!Allocator}.

Local Abbreviation block := (list (slot T)).

(** X16.  Appending a copy of an element of the vector itself, as in
    [v.PushBack(v[i])], is safe on both paths: also when the block is full
    the new element is copy-constructed before anything is relocated, so it
    is a copy of the element the reference named when the call was made. *)
Theorem append_of_own_element (v : Vector T) i x :
  invariant v = true ->
  contents v !! i = Some x ->
  copy_ctor_throws x = false ->
  alloc_fails (grown (size_ v) (Capacity v)) = false ->
  relocation_ok (contents v) = true ->
  exists log,
    EmplaceBack (RefToSlot i) v
    = Ok (size_ v)
        (vec (contents v ++ [x])
             (if size_ v =? Capacity v then grown (size_ v) (Capacity v)
              else Capacity v))
        log.
Proof.
  intros (xs & cap & Hle & ->)%invariant_spec.
  rewrite contents_vec. cbn [vec size_ Capacity RawMemory_Capacity data_ capacity_].
  intros Hx Hc Ha Hr.
  rewrite EmplaceBack_spec by (done || by apply alloc_fails_wraps).
  rewrite (construct_ref _ i x) by (by apply vec_lookup_live || done).
  rewrite Ha, Hr. destruct (length xs =? cap); by eexists.
Qed.

(** X17.  Inserting a copy of an element of the vector itself with room in
    the block, as in [v.Insert(v.begin() + p, v[i])].  The temporary is
    constructed after the tail has been shifted, from whatever the slot
    named holds by then.  For [i < p] that is still the element named.  For
    [p < i < size] it is the element that was at [i - 1] when the call was
    made: the value inserted is the neighbour of the one asked for. *)
Theorem insert_in_place_of_own_element (v : Vector T) position i y :
  invariant v = true ->
  size_ v < Capacity v ->
  position < size_ v ->
  (forall x, move_ctor_throws x = false) ->
  (forall t x, move_assign_throws t x = false) ->
  copy_ctor_throws y = false ->
  (i < position /\ contents v !! i = Some y) \/
  (position < i /\ i < size_ v /\ contents v !! (i - 1) = Some y) ->
  exists log,
    Insert (begin_ v + position) (RefToSlot i) v
    = Ok (begin_ v + position)
        (vec (take position (contents v) ++ y :: drop position (contents v))
             (Capacity v))
        log.
Proof.
  intros (xs & cap & Hle & ->)%invariant_spec.
  rewrite contents_vec. unfold begin_, GetAddress.
  cbn [vec size_ Capacity RawMemory_Capacity data_ capacity_ Nat.add].
  intros Hroom Hpos Hm Hs Hc Hi. unfold Insert.
  rewrite Emplace_middle by (cbn [vec size_]; lia).
  cbn [vec size_ Capacity RawMemory_Capacity data_ capacity_].
  replace (length xs <? cap) with true by (symmetry; by apply Nat.ltb_lt).
  destruct (list_last_split (drop position xs)) as (suf & z & Hsuf).
  { intros Hnil. apply (f_equal length) in Hnil.
    rewrite length_drop in Hnil. cbn in Hnil. lia. }
  pose proof (take_drop position xs) as Hxs. rewrite Hsuf in Hxs.
  assert (Htake : length (take position xs) = position) by (rewrite length_take; lia).
  pose proof (EmplaceEnoughtCapacity_spec (RefToSlot i) (take position xs) suf z cap)
    as Hins.
  cbn zeta in Hins. rewrite Hxs, Htake in Hins.
  rewrite Hins; [|done|done|by apply shift_ok_never]. clear Hins.
  rewrite (construct_ref _ i y); [|clear Hc|done].
  - rewrite Hs, Hsuf. by eexists.
  - destruct Hi as [[Hi Hy]|(Hi & Hi' & Hy)].
    + apply gap_block_lookup_before. by rewrite lookup_take_lt.
    + replace i with (length (take position xs) + 1 + (i - 1 - position)) by lia.
      apply gap_block_lookup_behind.
      rewrite <- Hsuf, lookup_drop. rewrite <- Hy. f_equal. lia.
Qed.
End OwnElements.

(** ** What failures leave behind, and what never happens *)

Section Accounting.
Context {T : Type} `{!Element T} `{!Allocator}.

Local Abbreviation block := (list (slot T)).

Lemma relocation_log_quiet (xs : list T) :
  allocations (relocation_log xs) = 0 /\ abandoned (relocation_log xs) = [].
Proof.
  unfold relocation_log. destruct relocate_by_move; by apply element_events_quiet.
Qed.

Lemma relocation_undo_log_quiet (xs : list T) :
  allocations (relocation_undo_log xs) = 0 /\ abandoned (relocation_undo_log xs) = [].
Proof.
  unfold relocation_undo_log.
  destruct relocate_by_move; rewrite allocations_app, abandoned_app.
  - destruct (element_events_quiet EvMoveCtor (before_throw move_ctor_throws xs))
      as [-> ->]; [done..|].
    by apply element_events_quiet.
  - destruct (element_events_quiet EvCopyCtor (before_throw copy_ctor_throws xs))
      as [-> ->]; [done..|].
    by apply element_events_quiet.
Qed.

(** X18.  [Reserve] never abandons an object: however it exits, every
    block it releases holds no constructed object.  A growing append is
    different.  The new element is constructed in the new block first, and
    when the relocation of the old elements then fails, the new block is
    released with that element still in it: its destructor never runs. *)
Theorem failed_growth_abandons_new_element (v : Vector T) n x :
  invariant v = true ->
  (forall r v' log, Reserve n v = Ok r v' log -> abandoned log = []) /\
  (forall v' log, Reserve n v = Throw v' log -> abandoned log = []) /\
  (size_ v = Capacity v ->
   alloc_fails (grown (size_ v) (Capacity v)) = false ->
   relocation_ok (contents v) = false ->
   exists v' log,
     EmplaceBack (ByValue x) v = Throw v' log /\
     abandoned log = [x] /\
     contents v' = relocated_from (contents v)).
Proof.
  intros (xs & cap & Hle & ->)%invariant_spec.
  rewrite contents_vec. cbn [vec size_ Capacity RawMemory_Capacity data_ capacity_].
  destruct (relocation_log_quiet xs) as [_ Hq1].
  destruct (relocation_undo_log_quiet xs) as [_ Hq2].
  assert (Hd : forall zs : list T, abandoned (EvDestroy <$> zs) = []).
  { intros zs. by apply element_events_quiet. }
  assert (Hrun : n <= cap /\ Reserve n (vec xs cap) = Ok tt (vec xs cap) [] \/
    cap < n /\ operator_new n = NewThrows /\
      Reserve n (vec xs cap) = Throw (vec xs cap) [] \/
    exists k, Reserve n (vec xs cap)
      = if relocation_ok xs then
          if length xs <=? k
          then Ok tt (vec_in xs k n)
                 (EvAllocate n :: relocation_log xs ++
                  (EvDestroy <$> relocated_from xs) ++ [EvDeallocate []])
          else Fault
        else if (length xs <=? k) || (relocated_count xs <=? k)
        then Throw (vec (relocated_from xs) cap)
               (EvAllocate n :: relocation_undo_log xs ++ [EvDeallocate []])
        else Fault).
  { destruct (n <=? cap) eqn:Hn; [apply Nat.leb_le in Hn|apply Nat.leb_gt in Hn].
    - left. split; [done|]. by apply Reserve_within.
    - destruct (operator_new n) as [|k] eqn:Hnew.
      + right. left. split; [done|]. split; [done|]. by apply Reserve_throws.
      + right. right. exists k. by apply Reserve_block. }
  repeat apply conj.
  - intros r v' log.
    destruct Hrun as [[_ ->]|[(_ & _ & ->)|[k ->]]]; [by intros [= _ _ <-]|done|].
    destruct (relocation_ok xs); [|by destruct ((_ <=? _) || _)].
    destruct (length xs <=? k); [|done].
    intros [= _ _ <-]. cbn [abandoned]. by rewrite !abandoned_app, Hq1, Hd.
  - intros v' log.
    destruct Hrun as [[_ ->]|[(_ & _ & ->)|[k ->]]]; [done|by intros [= _ <-]|].
    destruct (relocation_ok xs); [by destruct (length xs <=? k)|].
    destruct ((_ <=? _) || _); [|done].
    intros [= _ <-]. cbn [abandoned]. by rewrite !abandoned_app, Hq2.
  - intros Hfull Ha Hr. subst cap.
    rewrite EmplaceBack_spec by (done || by apply alloc_fails_wraps).
    rewrite Nat.eqb_refl, Ha, construct_by_value, Hr.
    eexists _, _. split; [done|]. split; [|apply contents_vec].
    cbn [abandoned app]. rewrite !abandoned_app, Hq2. cbn [abandoned]. by rewrite app_nil_r.
Qed.

(** X19.  For a type that can only be moved and whose move constructor may
    throw, a failed [Reserve] is not undone: size and capacity are the old
    ones, but the elements in front of the one whose move threw have already
    been moved from. *)
Theorem Reserve_failure_move_only (pre suf : list T) y cap n :
  is_copy_constructible = false ->
  length (pre ++ y :: suf) <= cap -> cap < n ->
  alloc_fails n = false ->
  none_throws move_ctor_throws pre = true ->
  move_ctor_throws y = true ->
  exists log,
    Reserve n (vec (pre ++ y :: suf) cap)
    = Throw (vec ((moved_from <$> pre) ++ y :: suf) cap) log /\
    abandoned log = [].
Proof.
  intros Hcopy Hle Hn Ha Hpre Hy.
  assert (Hmove : relocate_by_move = true).
  { unfold relocate_by_move. rewrite Hcopy. apply orb_true_r. }
  assert (Hok : relocation_ok (pre ++ y :: suf) = false).
  { unfold relocation_ok. rewrite Hmove, none_throws_app, Hpre.
    unfold none_throws. cbn [forallb andb]. by rewrite Hy. }
  assert (Hfrom : relocated_from (pre ++ y :: suf) = (moved_from <$> pre) ++ y :: suf).
  { unfold relocated_from. rewrite Hmove. clear -Hpre Hy.
    induction pre as [|p pre IH]; cbn [app after_moves fmap list_fmap].
    - by rewrite Hy.
    - unfold none_throws in Hpre. cbn [forallb] in Hpre.
      apply andb_prop in Hpre as [Hp Hpre]. apply negb_true_iff in Hp.
      rewrite Hp. f_equal. by apply IH. }
  rewrite Reserve_spec by (done || by apply alloc_fails_wraps).
  replace (n <=? cap) with false by (symmetry; by apply Nat.leb_gt).
  rewrite Ha, Hok, Hfrom. eexists. split; [done|].
  cbn [abandoned]. rewrite abandoned_app.
  destruct (relocation_undo_log_quiet (pre ++ y :: suf)) as [_ ->]. done.
Qed.

(** X20.  No member function other than the swapping ones gives capacity
    back: whenever [Reserve], [Resize], an append, [PopBack], an insert, an
    erase or a copy assignment returns, the capacity is at least what it
    was. *)
Theorem capacity_never_shrinks (v : Vector T) :
  invariant v = true ->
  (forall n v' l, Reserve n v = Ok tt v' l -> Capacity v <= Capacity v') /\
  (forall n v' l, Resize n v = Ok tt v' l -> Capacity v <= Capacity v') /\
  (forall args r v' l, EmplaceBack args v = Ok r v' l -> Capacity v <= Capacity v') /\
  (forall v' l, PopBack v = Ok tt v' l -> Capacity v <= Capacity v') /\
  (forall position args r v' l, position <= size_ v ->
     Emplace position args v = Ok r v' l -> Capacity v <= Capacity v') /\
  (forall position r v' l, position < size_ v ->
     Erase position v = Ok r v' l -> Capacity v <= Capacity v') /\
  (forall rhs s' l, invariant rhs = true ->
     copy_assign_body (v, rhs) = Ok tt s' l -> Capacity v <= Capacity s'.1).
Proof.
  intros (xs & cap & Hle & ->)%invariant_spec.
  cbn [vec size_ Capacity RawMemory_Capacity data_ capacity_].
  assert (Hgrown : forall k, k <= grown k k) by (intros k; rewrite grown_max; lia).
  assert (Hback : forall args r v' l,
    EmplaceBack args (vec xs cap) = Ok r v' l -> cap <= Capacity v').
  { intros args r v' l (x & lc & k & _ & _ & -> & _)%EmplaceBack_returned_in; [|done].
    cbn [vec_in Capacity RawMemory_Capacity data_ capacity_].
    destruct (length xs =? cap) eqn:Hfull; [|done].
    apply Nat.eqb_eq in Hfull. subst cap. apply Hgrown. }
  repeat apply conj.
  - intros n v' l. destruct (n <=? cap) eqn:Hn.
    + apply Nat.leb_le in Hn. rewrite Reserve_within by done. by intros [= <- _].
    + apply Nat.leb_gt in Hn.
      intros (k & -> & _)%Reserve_returned_in; [|done|done].
      cbn [vec_in Capacity RawMemory_Capacity data_ capacity_]. lia.
  - intros n v' l ->%Resize_returned; [|done]. cbn [vec Capacity RawMemory_Capacity data_ capacity_].
    destruct (n <=? cap) eqn:Hn; [done|]. apply Nat.leb_gt in Hn. lia.
  - exact Hback.
  - intros v' l (xs' & x & -> & ->)%PopBack_returned; [|done].
    by cbn [vec Capacity RawMemory_Capacity data_ capacity_].
  - intros position args r v' l Hpos Hrun.
    destruct (decide (position = length xs)) as [->|Hne].
    { rewrite Emplace_end in Hrun by done. by eapply Hback. }
    destruct (decide (length xs = cap)) as [<-|Hroom].
    { apply Emplace_full_returned_in in Hrun as (x & l' & k & -> & _); [|done].
      cbn [vec_in Capacity RawMemory_Capacity data_ capacity_]. apply Hgrown. }
    rewrite Emplace_middle in Hrun by done.
    cbn [vec size_ Capacity RawMemory_Capacity data_ capacity_] in Hrun.
    replace (length xs <? cap) with true in Hrun
      by (symmetry; apply Nat.ltb_lt; lia).
    replace (vec xs cap) with (vec (take position xs ++ drop position xs) cap)
      in Hrun by (by rewrite take_drop).
    assert (Hp : position = length (take position xs)) by (rewrite length_take; lia).
    rewrite Hp in Hrun at 1.
    apply EmplaceEnoughtCapacity_returned in Hrun as (x & _ & ->).
    + by cbn [vec Capacity RawMemory_Capacity data_ capacity_].
    + intros Hnil. apply (f_equal length) in Hnil.
      rewrite length_drop in Hnil. cbn in Hnil. lia.
    + rewrite take_drop. lia.
  - intros position r v' l Hpos.
    destruct (lookup_lt_is_Some_2 xs position Hpos) as [x Hx].
    pose proof (take_drop_middle xs position x Hx) as Hxs.
    assert (Htake : length (take position xs) = position) by (rewrite length_take; lia).
    rewrite <- Hxs, <- Htake at 1.
    intros [_ ->]%Erase_returned; [|by rewrite Hxs].
    by cbn [vec Capacity RawMemory_Capacity data_ capacity_].
  - intros rhs s' l (ys & c2 & Hy & ->)%invariant_spec
      ->%copy_assign_body_returned; [|done..].
    cbn [fst vec Capacity RawMemory_Capacity data_ capacity_].
    destruct (cap <? length ys) eqn:Hc; [|done]. apply Nat.ltb_lt in Hc. lia.
Qed.
End Accounting.

(** ** Swapping *)

Section Swapping.
Context {T : Type} `{!Element T} `{!Allocator}.

(** X21.  Move assignment between two distinct vectors is [Swap]: the two
    exchange block, capacity and size, no element is constructed, assigned
    or destroyed and nothing is allocated or released, every other object is
    left alone, and doing it a second time puts everything back. *)
Theorem move_assign_twice (st : gmap nat (Vector T)) a b va vb :
  a <> b -> st !! a = Some va -> st !! b = Some vb ->
  exists st1,
    move_assign a b st = Ok tt st1 [] /\
    st1 !! a = Some vb /\ st1 !! b = Some va /\
    (forall c, c <> a -> c <> b -> st1 !! c = st !! c) /\
    move_assign a b st1 = Ok tt st [].
Proof.
  intros Hne Ha Hb. eexists. split; [by apply move_assign_spec|].
  split; [by rewrite lookup_insert_ne, lookup_insert_eq|].
  split; [by rewrite lookup_insert_eq|].
  split; [intros c Hca Hcb; by rewrite !lookup_insert_ne|].
  rewrite (move_assign_spec _ a b vb va); [|done| |].
  - f_equal. apply map_eq. intros i.
    destruct (decide (i = b)) as [->|Hib]; [by rewrite lookup_insert_eq|].
    rewrite lookup_insert_ne by done.
    destruct (decide (i = a)) as [->|Hia]; [by rewrite lookup_insert_eq|].
    by rewrite !lookup_insert_ne.
  - by rewrite lookup_insert_ne, lookup_insert_eq.
  - by rewrite lookup_insert_eq.
Qed.
End Swapping.

(** ** Concrete runs *)

(** [Unbounded] delivers every block in full. *)
Lemma Unbounded_delivers n : @alloc_fails Unbounded n = false.
Proof. unfold alloc_fails. cbn. by rewrite Nat.eqb_refl. Qed.

(** Three appends of [Plain] numbers to the empty vector. *)
Lemma append_sequence_witness :
  invariant (@Vector_default nat) = true /\
  (forall n, @alloc_fails Unbounded n = false) /\
  @relocation_ok nat Plain (contents Vector_default ++ [1; 2; 3]) = true /\
  exists v' log,
    @PushBack_all nat Plain Unbounded (take 3 [1; 2; 3]) Vector_default
      = Ok tt v' log /\
    size_ v' = 3 /\ contents v' = [1; 2; 3].
Proof.
  split; [reflexivity|]. split; [exact Unbounded_delivers|]. split; [reflexivity|].
  destruct (@append_sequence nat Plain Unbounded Vector_default [1; 2; 3]
              eq_refl Unbounded_delivers eq_refl 3 (le_n 3))
    as (v' & log & Hrun & _ & Hsize & Hcontents & _).
  exists v', log. split; [exact Hrun|]. split; [exact Hsize|exact Hcontents].
Defined.

(** The reference returned by an append to the full vector [1, 2] of
    [Obj]. *)
Lemma EmplaceBack_returns_last_witness :
  invariant (vec [1; 2] 2) = true /\
  @EmplaceBack nat Obj Unbounded (ByValue 3) (vec [1; 2] 2)
    = Ok 2 (vec [1; 2; 3] 4)
        [EvAllocate 4; EvConstruct 3; EvCopyCtor 1; EvCopyCtor 2;
         EvDestroy 1; EvDestroy 2; EvDeallocate []] /\
  2 = size_ (vec [1; 2; 3] 4) - 1 /\
  exists v' log,
    @EmplaceBack nat Obj Unbounded (ByValue 3) (vec [1; 2] 2) = Ok 2 v' log.
Proof.
  split; [reflexivity|]. split; [reflexivity|].
  destruct (@EmplaceBack_returns_last nat Obj Unbounded (ByValue 3) (vec [1; 2] 2)
              eq_refl) as [Hret Hruns].
  split.
  - apply (Hret 2 (vec [1; 2; 3] 4)
             [EvAllocate 4; EvConstruct 3; EvCopyCtor 1; EvCopyCtor 2;
              EvDestroy 1; EvDestroy 2; EvDeallocate []]).
    reflexivity.
  - apply (Hruns 3); reflexivity.
Defined.

(** Growth of the full vector [1, 2], and the five appends. *)
Lemma growth_is_geometric_witness :
  invariant (vec [1; 2] 2) = true /\
  size_ (vec [1; 2] 2) = Capacity (vec [1; 2] 2) /\
  1 <= size_ (vec [1; 2] 2) /\
  (forall n, @alloc_fails Unbounded n = false) /\
  @relocation_ok nat Plain [1; 2; 3; 4] = true /\
  @append_capacities nat Plain Unbounded [1; 2; 3; 4; 5] Vector_default
    = Some [1; 2; 4; 4; 8].
Proof.
  split; [reflexivity|]. split; [reflexivity|]. split; [cbn; lia|].
  split; [exact Unbounded_delivers|]. split; [reflexivity|].
  apply (@growth_is_geometric nat Plain Unbounded (vec [1; 2] 2) 1 (ByValue 9)
           1 2 3 4 5 eq_refl eq_refl);
    [cbn; lia|exact Unbounded_delivers|reflexivity].
Defined.


(** Relocation of [1, 2, 3] by copy ([Obj]). *)
Lemma relocation_strategy_witness :
  [2; 3] <> [] /\
  length ([1] ++ [2; 3]) <= 3 /\ 3 < 5 /\
  (forall m, @alloc_fails Unbounded m = false) /\
  @relocation_ok nat Obj ([1] ++ [2; 3]) = true /\
  @Reserve nat Obj Unbounded 5 (vec ([1] ++ [2; 3]) 3)
    = Ok tt (vec ([1] ++ [2; 3]) 5)
        (EvAllocate 5 :: @spec_relocation_events nat Obj ([1] ++ [2; 3]) ++
         [EvDeallocate []]).
Proof.
  split; [discriminate|]. split; [cbn; lia|]. split; [lia|].
  split; [exact Unbounded_delivers|]. split; [reflexivity|].
  apply (@relocation_strategy nat Obj Unbounded [1] [2; 3] 3 5 9);
    [discriminate|cbn; lia|lia|exact Unbounded_delivers|reflexivity].
Defined.

(** Insertion and erasure in [1, 2, 3] with one raw slot. *)
Lemma insert_erase_roundtrip_witness :
  invariant (vec [1; 2; 3] 4) = true /\
  contents (vec [1; 2; 3] 4) = [1; 2; 3] /\
  exists v1 log1 v2 log2,
    @Insert nat Plain Unbounded 1 (ByValue 9) (vec [1; 2; 3] 4) = Ok 1 v1 log1 /\
    contents v1 = [1; 9; 2; 3] /\
    @Erase nat Plain 1 v1 = Ok 1 v2 log2 /\
    contents v2 = [1; 2; 3].
Proof.
  split; [reflexivity|]. split; [reflexivity|].
  destruct (@insert_erase_roundtrip nat Plain Unbounded (vec [1; 2; 3] 4) 1 2 3 9
              eq_refl eq_refl Unbounded_delivers (fun _ => eq_refl)
              (fun _ => eq_refl) (fun _ _ => eq_refl))
    as (v1 & log1 & v2 & log2 & Hins & _ & Hc1 & _ & Hers & _ & Hc2 & _).
  exists v1, log1, v2, log2. repeat split; assumption.
Defined.

(** Self-assignment of the object at address 0. *)
Lemma self_assignment_witness :
  (<[0 := vec [1; 2] 2]> ∅ : gmap nat (Vector nat)) !! 0 = Some (vec [1; 2] 2) /\
  @copy_assign nat Obj Unbounded 0 0 (<[0 := vec [1; 2] 2]> ∅)
    = Ok tt (<[0 := vec [1; 2] 2]> ∅) [] /\
  @move_assign nat 0 0 (<[0 := vec [1; 2] 2]> ∅)
    = Ok tt (<[0 := vec [1; 2] 2]> ∅) [].
Proof.
  split; [reflexivity|].
  apply (@self_assignment nat Obj Unbounded (<[0 := vec [1; 2] 2]> ∅) 0
           (vec [1; 2] 2)).
  reflexivity.
Defined.

(** C5 as stated fails for move assignment: after [a = std::move(b)] with
    [a = [1, 2]] at address 0 and [b = [3]] at address 1, the source [b]
    holds [1, 2] and its size is 2. *)
Lemma move_assign_source_not_empty :
  exists st' log,
    @move_assign nat 0 1 (<[0 := vec [1; 2] 2]> (<[1 := vec [3] 1]> ∅))
      = Ok tt st' log /\
    st' !! 0 = Some (vec [3] 1) /\
    st' !! 1 = Some (vec [1; 2] 2) /\
    (size_ <$> st' !! 1) = Some 2.
Proof. eexists _, _. repeat split; reflexivity. Qed.

(** Moving from the vector [3] at address 1. *)
Lemma moved_from_source_witness :
  (<[0 := vec [1; 2] 2]> (<[1 := vec [3] 1]> ∅) : gmap nat (Vector nat)) !! 1
    = Some (vec [3] 1) /\
  0 <> 1 /\
  exists st',
    @move_assign nat 0 1 (<[0 := vec [1; 2] 2]> (<[1 := vec [3] 1]> ∅))
      = Ok tt st' [] /\
    st' !! 0 = Some (vec [3] 1) /\
    st' !! 1 = Some (vec [1; 2] 2).
Proof.
  split; [reflexivity|]. split; [discriminate|].
  destruct (@moved_from_source nat Plain Unbounded
              (<[0 := vec [1; 2] 2]> (<[1 := vec [3] 1]> ∅)) 0 1 (vec [3] 1))
    as [_ Hassign]; [reflexivity|discriminate|].
  destruct (Hassign (vec [1; 2] 2)) as (st' & Hrun & Hthis & Hother & _);
    [reflexivity|reflexivity|].
  exists st'. repeat split; assumption.
Defined.

(** C2 as stated fails on the in-place path of copy assignment: assigning
    [7, 13] to [1, 2] with [Obj] elements throws at the second element, and
    the first element of the target is 7 after the failed call. *)
Lemma copy_assign_in_place_not_strong :
  exists st' log,
    @copy_assign nat Obj Unbounded 0 1
      (<[0 := vec [1; 2] 2]> (<[1 := vec [7; 13] 2]> ∅))
      = Throw st' log /\
    (contents <$> (<[0 := vec [1; 2] 2]> (<[1 := vec [7; 13] 2]> ∅)
                     : gmap nat (Vector nat)) !! 0) = Some [1; 2] /\
    (contents <$> st' !! 0) = Some [7; 2].
Proof. eexists _, _. repeat split; reflexivity. Qed.

(** A failed append to the full vector [1, 13] of [Obj]. *)
Lemma strong_guarantee_on_regrow_witness :
  invariant (vec [1; 13] 2) = true /\
  @is_nothrow_move_constructible nat Obj || @is_copy_constructible nat Obj = true /\
  @EmplaceBack nat Obj Unbounded (ByValue 3) (vec [1; 13] 2)
    = Throw (vec [1; 13] 2)
        [EvAllocate 4; EvConstruct 3; EvCopyCtor 1; EvDestroy 1; EvDeallocate [3]] /\
  vec [1; 13] 2 = vec [1; 13] 2.
Proof.
  split; [reflexivity|]. split; [reflexivity|]. split; [reflexivity|].
  apply (@strong_guarantee_on_regrow nat Obj Unbounded (vec [1; 13] 2)
           eq_refl eq_refl)
    with (args := ByValue 3)
         (log := [EvAllocate 4; EvConstruct 3; EvCopyCtor 1; EvDestroy 1;
                  EvDeallocate [3]]).
  reflexivity.
Defined.

(** C8 fails on an exceptional exit of the in-place insert.  Inserting at
    position 1 of [1, 2, 3], capacity 4, an object whose constructor throws:
    the last element has been moved to slot 3 and the others shifted when the
    constructor runs, [size_] is still 3, so slot 3 holds a constructed
    object outside [[0, size)] and the invariant is broken. *)
Lemma insert_in_place_failure_breaks_invariant :
  invariant (vec [1; 2; 3] 4) = true /\
  @Emplace nat Obj Unbounded 1 Throwing (vec [1; 2; 3] 4)
    = Throw {| data_ := {| buffer_ := [Live 1; Live 0; Live 2; Live 3];
                           capacity_ := 4 |};
               size_ := 3 |}
        [EvMoveCtor 3; EvMoveAssign 0 2] /\
  invariant {| data_ := {| buffer_ := [Live 1; Live 0; Live 2; Live 3];
                           capacity_ := 4 |};
               size_ := 3 |} = false.
Proof. repeat split; reflexivity. Qed.

(** The strong guarantee needs the copy constructor or a [noexcept] move:
    [Reserve(4)] on [1, 13] of the move-only type whose move throws on 13
    exits with the first element already moved from. *)
Lemma Reserve_move_only_not_strong :
  @Reserve nat MoveOnly Unbounded 4 (vec [1; 13] 2)
  = Throw (vec [0; 13] 2) [EvAllocate 4; EvMoveCtor 1; EvDestroy 1; EvDeallocate []].
Proof. reflexivity. Qed.

(** C6 fails when the value inserted is an element of the container
    itself.  [v.Insert(v.begin() + 1, v[2])] on [1, 2, 3] should give
    [1, 3, 2, 3].  With the block full it does: the new element is
    constructed before anything moves.  With a raw slot left the temporary
    is constructed after the tail has been shifted, from whatever slot 2
    holds by then, and the result is [1, 2, 2, 3]; erasing position 1 then
    gives [1, 2, 3] all the same. *)
Lemma insert_of_own_element :
  invariant (vec [1; 2; 3] 4) = true /\
  element 2 (vec [1; 2; 3] 4) = Ok 3 (vec [1; 2; 3] 4) [] /\
  @Insert nat Plain Unbounded 1 (RefToSlot 2) (vec [1; 2; 3] 3)
    = Ok 1 (vec [1; 3; 2; 3] 6)
        [EvAllocate 6; EvCopyCtor 3; EvMoveCtor 1; EvMoveCtor 2; EvMoveCtor 3;
         EvDestroy 1; EvDestroy 2; EvDestroy 3; EvDeallocate []] /\
  @Insert nat Plain Unbounded 1 (RefToSlot 2) (vec [1; 2; 3] 4)
    = Ok 1 (vec [1; 2; 2; 3] 4)
        [EvMoveCtor 3; EvMoveAssign 3 2; EvCopyCtor 2; EvMoveAssign 2 2;
         EvDestroy 2] /\
  contents (vec [1; 2; 2; 3] 4) <> [1; 3; 2; 3] /\
  @Erase nat Plain 1 (vec [1; 2; 2; 3] 4)
    = Ok 1 (vec [1; 2; 3] 4) [EvMoveAssign 2 2; EvMoveAssign 2 3; EvDestroy 3].
Proof. repeat split; try reflexivity. discriminate. Qed.

(** The scenario of the specification: append 1 to 5, erase index 2, insert
    9 at index 0. *)
Lemma end_to_end_scenario :
  @append_capacities nat Plain Unbounded [1; 2; 3; 4; 5] Vector_default
    = Some [1; 2; 4; 4; 8] /\
  exists log1 log2 log3,
    @PushBack_all nat Plain Unbounded [1; 2; 3; 4; 5] Vector_default
      = Ok tt (vec [1; 2; 3; 4; 5] 8) log1 /\
    @Erase nat Plain 2 (vec [1; 2; 3; 4; 5] 8) = Ok 2 (vec [1; 2; 4; 5] 8) log2 /\
    @Insert nat Plain Unbounded 0 (ByValue 9) (vec [1; 2; 4; 5] 8)
      = Ok 0 (vec [9; 1; 2; 4; 5] 8) log3.
Proof.
  split; [vm_compute; reflexivity|].
  eexists _, _, _.
  split; [vm_compute; reflexivity|].
  split; vm_compute; reflexivity.
Qed.

(** ** Concrete runs of the further properties *)

(** Reading index 1 and index 2 of [7, 8] in a block of four slots. *)
Lemma subscript_bounds_witness :
  invariant (vec [7; 8] 4) = true /\
  element 1 (vec [7; 8] 4) = Ok 8 (vec [7; 8] 4) [] /\
  subscript 2 (vec [7; 8] 4) = @Fault nat (Vector nat) nat.
Proof.
  split; [reflexivity|].
  destruct (@subscript_bounds nat (vec [7; 8] 4) 1 eq_refl) as [Hin _].
  destruct (@subscript_bounds nat (vec [7; 8] 4) 2 eq_refl) as [_ Hout].
  split.
  - destruct (Hin ltac:(cbn; lia)) as (x & Hx & _ & He).
    cbn in Hx. injection Hx as <-. exact He.
  - apply Hout. cbn. lia.
Defined.

(** [PopBack] on [7, 8]. *)
Lemma PopBack_removes_last_witness :
  invariant (vec [7; 8] 4) = true /\
  contents (vec [7; 8] 4) = [7] ++ [8] /\
  PopBack (vec [7; 8] 4) = Ok tt (vec [7] 4) [EvDestroy 8].
Proof.
  split; [reflexivity|]. split; [reflexivity|].
  apply (@PopBack_removes_last nat (vec [7; 8] 4) eq_refl). reflexivity.
Defined.

(** Destruction of [7, 8]. *)
Lemma destructor_destroys_all_witness :
  invariant (vec [7; 8] 4) = true /\
  exists v',
    Vector_dtor (vec [7; 8] 4)
      = Ok tt v' [EvDestroy 7; EvDestroy 8; EvDeallocate []].
Proof.
  split; [reflexivity|].
  destruct (@destructor_destroys_all nat (vec [7; 8] 4) eq_refl) as (v' & Hrun & _).
  exists v'. exact Hrun.
Defined.


(** An append to the full vector [1, 2] followed by [PopBack]. *)
Lemma push_then_pop_witness :
  invariant (vec [1; 2] 2) = true /\
  @alloc_fails Unbounded (grown (size_ (vec [1; 2] 2)) (Capacity (vec [1; 2] 2)))
    = false /\
  @relocation_ok nat Plain (contents (vec [1; 2] 2)) = true /\
  exists cap' log,
    (@PushBack nat Plain Unbounded (ByValue 3) >> PopBack) (vec [1; 2] 2)
      = Ok tt (vec [1; 2] cap') (log ++ [EvDestroy 3]) /\
    2 <= cap'.
Proof.
  split; [reflexivity|]. split; [reflexivity|]. split; [reflexivity|].
  destruct (@push_then_pop nat Plain Unbounded (vec [1; 2] 2) 3 eq_refl eq_refl eq_refl)
    as (cap' & log & Hrun & _ & Hcap).
  exists cap', log. split; [exact Hrun|exact Hcap].
Defined.

(** [Reserve(8)] and then [Reserve(5)] on [1, 2]. *)
Lemma Reserve_absorbs_smaller_witness :
  invariant (vec [1; 2] 2) = true /\ 5 <= 8 /\
  (@Reserve nat Plain Unbounded 8 >> @Reserve nat Plain Unbounded 5) (vec [1; 2] 2)
    = @Reserve nat Plain Unbounded 8 (vec [1; 2] 2).
Proof.
  split; [reflexivity|]. split; [lia|].
  apply (@Reserve_absorbs_smaller nat Plain Unbounded (vec [1; 2] 2) 8 5 eq_refl).
  lia.
Defined.

(** [Resize(1)], [Resize(3)] and [Resize(6)] on [7, 8] in a block of four
    slots; and [Resize(65)] on [7] for elements of four bytes where [size_t]
    has eight bits. *)
Lemma Resize_behaviour_witness :
  invariant (vec [7; 8] 4) = true /\
  @Resize nat Plain Unbounded 1 (vec [7; 8] 4) = Ok tt (vec [7] 4) [EvDestroy 8] /\
  @Resize nat Plain Unbounded 3 (vec [7; 8] 4)
    = Ok tt (vec [7; 8; 0] 4) [EvValueInit 0] /\
  Capacity (vec [7; 8] 4) < 6 /\ @alloc_fails Unbounded 6 = false /\
  @relocation_ok nat Plain (contents (vec [7; 8] 4)) = true /\
  (exists log,
     @Resize nat Plain Unbounded 6 (vec [7; 8] 4)
       = Ok tt (vec [7; 8; 0; 0; 0; 0] 6) log) /\
  invariant (vec [7] 1) = true /\
  Capacity (vec [7] 1) < 65 /\ @wraps (SizeT 8 4) 65 = true /\
  @Resize nat Plain (SizeT 8 4) 65 (vec [7] 1) = Fault /\
  (forall v' log, @Resize nat Plain (SizeT 8 4) 65 (vec [7] 1) <> Ok tt v' log).
Proof.
  split; [reflexivity|].
  destruct (@Resize_behaviour nat Plain Unbounded (vec [7; 8] 4) 1 eq_refl)
    as [Hshrink _].
  destruct (@Resize_behaviour nat Plain Unbounded (vec [7; 8] 4) 3 eq_refl)
    as (_ & Hgrow & _).
  destruct (@Resize_behaviour nat Plain Unbounded (vec [7; 8] 4) 6 eq_refl)
    as (_ & _ & Hbeyond & _).
  destruct (@Resize_behaviour nat Plain (SizeT 8 4) (vec [7] 1) 65 eq_refl)
    as (_ & _ & _ & _ & Hwrap).
  split; [apply Hshrink; cbn; lia|].
  split.
  { destruct Hgrow as [Hsome _]; [cbn; lia|cbn; lia|].
    apply (Hsome 0). reflexivity. }
  split; [cbn; lia|]. split; [reflexivity|]. split; [reflexivity|].
  split.
  { destruct Hbeyond as [Hsome _]; [cbn; lia|reflexivity|reflexivity|].
    apply (Hsome 0). reflexivity. }
  split; [reflexivity|]. split; [cbn; lia|]. split; [reflexivity|].
  split; [reflexivity|].
  apply Hwrap; [cbn; lia|reflexivity].
Defined.

(** [Vector(3)] of [Plain] numbers; and [Vector(65)] for elements of four
    bytes where [size_t] has eight bits, so that the request is for four
    bytes. *)
Lemma sized_constructor_witness :
  0 < 3 /\ @alloc_fails Unbounded 3 = false /\
  @Vector_sized nat Plain Unbounded unit 3 tt
    = Ok (vec [0; 0; 0] 3) tt
        [EvAllocate 3; EvValueInit 0; EvValueInit 0; EvValueInit 0] /\
  0 < 65 /\ @wraps (SizeT 8 4) 65 = true /\
  @operator_new (SizeT 8 4) 65 = NewBlock 1 /\
  @Vector_sized nat Plain (SizeT 8 4) unit 65 tt = Fault.
Proof.
  split; [lia|]. split; [reflexivity|].
  destruct (@sized_constructor nat Plain Unbounded unit 3 tt) as (_ & _ & Hrun & _).
  destruct Hrun as [Hsome _]; [lia|reflexivity|].
  split; [apply (Hsome 0); reflexivity|].
  split; [lia|]. split; [reflexivity|]. split; [reflexivity|].
  destruct (@sized_constructor nat Plain (SizeT 8 4) unit 65 tt) as (_ & _ & _ & Hwrap).
  apply Hwrap; [lia|reflexivity].
Defined.

(** Copying [1, 2, 13, 5] with [Obj] elements: the copy of 13 throws. *)
Lemma copy_constructor_witness :
  invariant (vec [1; 2; 13; 5] 8) = true /\
  0 < size_ (vec [1; 2; 13; 5] 8) /\
  @alloc_fails Unbounded (size_ (vec [1; 2; 13; 5] 8)) = false /\
  (exists destroyed,
     @Vector_copy nat Obj Unbounded unit (vec [1; 2; 13; 5] 8) tt
       = Throw tt
           (EvAllocate 4 :: [EvCopyCtor 1; EvCopyCtor 2] ++
            (EvDestroy <$> destroyed) ++ [EvDeallocate []]) /\
     destroyed ≡ₚ [1; 2]) /\
  @Vector_copy nat Plain Unbounded unit (vec [1; 2; 13; 5] 8) tt
    = Ok (vec [1; 2; 13; 5] 4) tt
        [EvAllocate 4; EvCopyCtor 1; EvCopyCtor 2; EvCopyCtor 13; EvCopyCtor 5].
Proof.
  split; [reflexivity|]. split; [cbn; lia|]. split; [reflexivity|].
  split.
  - apply (@copy_constructor nat Obj Unbounded unit (vec [1; 2; 13; 5] 8) tt eq_refl);
      [cbn; lia|reflexivity].
  - apply (@copy_constructor nat Plain Unbounded unit (vec [1; 2; 13; 5] 8) tt eq_refl);
      [cbn; lia|reflexivity].
Defined.

(** Assigning [7, 8, 9] to [1, 2] in a block of four slots, and to [1, 2]
    in a full block. *)
Lemma copy_assignment_witness :
  invariant (vec [1; 2] 4) = true /\ invariant (vec [7; 8; 9] 3) = true /\
  (forall x y, @copy_assign_throws nat Plain x y = false) /\
  (forall y, @copy_ctor_throws nat Plain y = false) /\
  @copy_assign_body nat Plain Unbounded (vec [1; 2] 4, vec [7; 8; 9] 3)
    = Ok tt (vec [7; 8; 9] 4, vec [7; 8; 9] 3)
        [EvCopyAssign 1 7; EvCopyAssign 2 8; EvCopyCtor 9] /\
  @copy_assign_body nat Plain Unbounded (vec [1; 2] 2, vec [7; 8; 9] 3)
    = Ok tt (vec [7; 8; 9] 3, vec [7; 8; 9] 3)
        [EvAllocate 3; EvCopyCtor 7; EvCopyCtor 8; EvCopyCtor 9;
         EvDestroy 1; EvDestroy 2; EvDeallocate []].
Proof.
  split; [reflexivity|]. split; [reflexivity|].
  split; [intros x y; reflexivity|]. split; [intros y; reflexivity|].
  split.
  - apply (@copy_assignment nat Plain Unbounded (vec [1; 2] 4) (vec [7; 8; 9] 3)
             eq_refl eq_refl (fun _ _ => eq_refl) (fun _ => eq_refl)).
    cbn. lia.
  - apply (@copy_assignment nat Plain Unbounded (vec [1; 2] 2) (vec [7; 8; 9] 3)
             eq_refl eq_refl (fun _ _ => eq_refl) (fun _ => eq_refl));
      [cbn; lia|reflexivity].
Defined.

(** Assigning [7, 13] to [1, 2] with [Obj] elements: the second assignment
    throws. *)
Lemma copy_assign_in_place_failure_witness :
  invariant (vec [1; 2] 2) = true /\ invariant (vec [7; 13] 2) = true /\
  size_ (vec [7; 13] 2) <= Capacity (vec [1; 2] 2) /\
  @copy_assign_body nat Obj Unbounded (vec [1; 2] 2, vec [7; 13] 2)
    = Throw (vec [7; 2] 2, vec [7; 13] 2) [EvCopyAssign 1 7] /\
  invariant (vec [7; 2] 2) = true /\
  size_ (vec [7; 2] 2) = size_ (vec [1; 2] 2).
Proof.
  split; [reflexivity|]. split; [reflexivity|]. split; [cbn; lia|].
  split; [reflexivity|].
  destruct (@copy_assign_in_place_failure nat Obj Unbounded
              (vec [1; 2] 2) (vec [7; 13] 2) (vec [7; 2] 2, vec [7; 13] 2)
              [EvCopyAssign 1 7] eq_refl eq_refl)
    as (_ & Hinv & Hsize & _); [cbn; lia|reflexivity|].
  split; [exact Hinv|exact Hsize].
Defined.

(** [v.Insert(v.begin() + 1, v[2])] on the full vector [1, 2, 3], and
    inserting 9 at position 2 of [1, 2, 3] with a raw slot left. *)
Lemma insert_anywhere_witness :
  invariant (vec [1; 2; 3] 3) = true /\
  1 <= size_ (vec [1; 2; 3] 3) /\
  contents (vec [1; 2; 3] 3) !! 2 = Some 3 /\
  size_ (vec [1; 2; 3] 3) = Capacity (vec [1; 2; 3] 3) /\
  (forall m, @alloc_fails Unbounded m = false) /\
  (forall y, @copy_ctor_throws nat Plain y = false) /\
  (forall y, @move_ctor_throws nat Plain y = false) /\
  (forall t y, @move_assign_throws nat Plain t y = false) /\
  (exists v' log,
     @Insert nat Plain Unbounded 1 (RefToSlot 2) (vec [1; 2; 3] 3)
       = Ok (begin_ v' + 1) v' log /\
     v' = vec [1; 3; 2; 3] 6) /\
  (exists v' log,
     @Insert nat Plain Unbounded 2 (ByValue 9) (vec [1; 2; 3] 4)
       = Ok (begin_ v' + 2) v' log /\
     v' = vec [1; 2; 9; 3] 4).
Proof.
  split; [reflexivity|]. split; [cbn; lia|]. split; [reflexivity|].
  split; [reflexivity|].
  split; [exact Unbounded_delivers|]. split; [intros y; reflexivity|].
  split; [intros y; reflexivity|]. split; [intros t y; reflexivity|].
  split.
  - apply (@insert_anywhere nat Plain Unbounded (vec [1; 2; 3] 3) 1 (RefToSlot 2) 3
             eq_refl);
      [cbn; lia|right; exists 2; repeat split; by right|exact Unbounded_delivers
      |intros y; reflexivity|intros y; reflexivity|intros t y; reflexivity].
  - apply (@insert_anywhere nat Plain Unbounded (vec [1; 2; 3] 4) 2 (ByValue 9) 9
             eq_refl);
      [cbn; lia|by left|exact Unbounded_delivers
      |intros y; reflexivity|intros y; reflexivity|intros t y; reflexivity].
Defined.

(** Erasing position 1 and position 3 of [1, 2, 3]. *)
Lemma erase_anywhere_witness :
  invariant (vec [1; 2; 3] 4) = true /\
  (forall t y, @move_assign_throws nat Plain t y = false) /\
  @Erase nat Plain 3 (vec [1; 2; 3] 4) = Fault /\
  exists log, @Erase nat Plain 1 (vec [1; 2; 3] 4) = Ok 1 (vec [1; 3] 4) log.
Proof.
  split; [reflexivity|]. split; [intros t y; reflexivity|].
  destruct (@erase_anywhere nat Plain (vec [1; 2; 3] 4) 3 eq_refl) as [Hout _].
  destruct (@erase_anywhere nat Plain (vec [1; 2; 3] 4) 1 eq_refl) as [_ Hin].
  split.
  - apply Hout. cbn. lia.
  - destruct Hin as (log & Hrun & _); [cbn; lia|intros t y; reflexivity|].
    exists log. exact Hrun.
Defined.

(** Inserting 9 at position 0 of the full vector [1, 2] and erasing it. *)
Lemma insert_then_erase_witness :
  invariant (vec [1; 2] 2) = true /\
  0 <= size_ (vec [1; 2] 2) /\
  (forall m, @alloc_fails Unbounded m = false) /\
  (forall y, @copy_ctor_throws nat Plain y = false) /\
  (forall y, @move_ctor_throws nat Plain y = false) /\
  (forall t y, @move_assign_throws nat Plain t y = false) /\
  exists v1 log1 log2,
    @Insert nat Plain Unbounded 0 (ByValue 9) (vec [1; 2] 2) = Ok 0 v1 log1 /\
    @Erase nat Plain 0 v1 = Ok 0 (vec [1; 2] (Capacity v1)) log2.
Proof.
  split; [reflexivity|]. split; [cbn; lia|].
  split; [exact Unbounded_delivers|]. split; [intros y; reflexivity|].
  split; [intros y; reflexivity|]. split; [intros t y; reflexivity|].
  destruct (@insert_then_erase nat Plain Unbounded (vec [1; 2] 2) 0 9 eq_refl)
    as (v1 & log1 & log2 & Hins & _ & Hers & _);
    [cbn; lia|exact Unbounded_delivers|intros y; reflexivity|intros y; reflexivity
    |intros t y; reflexivity|].
  exists v1, log1, log2. split; [exact Hins|exact Hers].
Defined.

(** [v.PushBack(v[0])] on the full vector [1, 2]. *)
Lemma append_of_own_element_witness :
  invariant (vec [1; 2] 2) = true /\
  contents (vec [1; 2] 2) !! 0 = Some 1 /\
  @copy_ctor_throws nat Plain 1 = false /\
  @alloc_fails Unbounded (grown (size_ (vec [1; 2] 2)) (Capacity (vec [1; 2] 2)))
    = false /\
  @relocation_ok nat Plain (contents (vec [1; 2] 2)) = true /\
  exists log,
    @EmplaceBack nat Plain Unbounded (RefToSlot 0) (vec [1; 2] 2)
      = Ok 2 (vec [1; 2; 1] 4) log.
Proof.
  split; [reflexivity|]. split; [reflexivity|]. split; [reflexivity|].
  split; [reflexivity|]. split; [reflexivity|].
  destruct (@append_of_own_element nat Plain Unbounded (vec [1; 2] 2) 0 1
              eq_refl eq_refl eq_refl eq_refl eq_refl) as [log Hrun].
  exists log. exact Hrun.
Defined.

(** [v.Insert(v.begin() + 1, v[2])] on [1, 2, 3] with a raw slot: the value
    inserted is 2, not 3. *)
Lemma insert_in_place_of_own_element_witness :
  invariant (vec [1; 2; 3] 4) = true /\
  size_ (vec [1; 2; 3] 4) < Capacity (vec [1; 2; 3] 4) /\
  1 < size_ (vec [1; 2; 3] 4) /\
  (forall x, @move_ctor_throws nat Plain x = false) /\
  (forall t x, @move_assign_throws nat Plain t x = false) /\
  @copy_ctor_throws nat Plain 2 = false /\
  (1 < 2 /\ 2 < size_ (vec [1; 2; 3] 4) /\
   contents (vec [1; 2; 3] 4) !! (2 - 1) = Some 2) /\
  contents (vec [1; 2; 3] 4) !! 2 = Some 3 /\
  exists log,
    @Insert nat Plain Unbounded 1 (RefToSlot 2) (vec [1; 2; 3] 4)
      = Ok 1 (vec [1; 2; 2; 3] 4) log.
Proof.
  split; [reflexivity|]. split; [cbn; lia|]. split; [cbn; lia|].
  split; [intros x; reflexivity|]. split; [intros t x; reflexivity|].
  split; [reflexivity|].
  split; [split; [lia|split; [cbn; lia|reflexivity]]|].
  split; [reflexivity|].
  destruct (@insert_in_place_of_own_element nat Plain Unbounded (vec [1; 2; 3] 4) 1 2 2
              eq_refl) as [log Hrun];
    [cbn; lia|cbn; lia|intros x; reflexivity|intros t x; reflexivity|reflexivity
    |right; split; [lia|split; [cbn; lia|reflexivity]]|].
  exists log. exact Hrun.
Defined.

(** A growing append of 3 to [1, 13] with [Obj] elements: the copy of 13
    throws and the new element is never destroyed. *)
Lemma failed_growth_abandons_new_element_witness :
  invariant (vec [1; 13] 2) = true /\
  size_ (vec [1; 13] 2) = Capacity (vec [1; 13] 2) /\
  @alloc_fails Unbounded (grown (size_ (vec [1; 13] 2)) (Capacity (vec [1; 13] 2)))
    = false /\
  @relocation_ok nat Obj (contents (vec [1; 13] 2)) = false /\
  exists v' log,
    @EmplaceBack nat Obj Unbounded (ByValue 3) (vec [1; 13] 2) = Throw v' log /\
    abandoned log = [3].
Proof.
  split; [reflexivity|]. split; [reflexivity|]. split; [reflexivity|].
  split; [reflexivity|].
  destruct (@failed_growth_abandons_new_element nat Obj Unbounded (vec [1; 13] 2) 4 3
              eq_refl) as (_ & _ & Hgrow).
  destruct (Hgrow eq_refl eq_refl eq_refl) as (v' & log & Hrun & Hleft & _).
  exists v', log. split; [exact Hrun|exact Hleft].
Defined.

(** [Reserve(4)] on [1, 13] of the move-only type whose move throws on 13. *)
Lemma Reserve_failure_move_only_witness :
  @is_copy_constructible nat MoveOnly = false /\
  length ([1] ++ 13 :: []) <= 2 /\ 2 < 4 /\
  @alloc_fails Unbounded 4 = false /\
  none_throws (@move_ctor_throws nat MoveOnly) [1] = true /\
  @move_ctor_throws nat MoveOnly 13 = true /\
  exists log,
    @Reserve nat MoveOnly Unbounded 4 (vec ([1] ++ 13 :: []) 2)
      = Throw (vec [0; 13] 2) log.
Proof.
  split; [reflexivity|]. split; [cbn; lia|]. split; [lia|].
  split; [reflexivity|]. split; [reflexivity|]. split; [reflexivity|].
  destruct (@Reserve_failure_move_only nat MoveOnly Unbounded [1] [] 13 2 4 eq_refl)
    as (log & Hrun & _); [cbn; lia|lia|reflexivity|reflexivity|reflexivity|].
  exists log. exact Hrun.
Defined.

(** The capacity after [PopBack] on [7, 8] in a block of four slots. *)
Lemma capacity_never_shrinks_witness :
  invariant (vec [7; 8] 4) = true /\
  PopBack (vec [7; 8] 4) = Ok tt (vec [7] 4) [EvDestroy 8] /\
  Capacity (vec [7; 8] 4) <= Capacity (vec [7] 4).
Proof.
  split; [reflexivity|]. split; [reflexivity|].
  destruct (@capacity_never_shrinks nat Plain Unbounded (vec [7; 8] 4) eq_refl)
    as (_ & _ & _ & Hpop & _).
  apply (Hpop (vec [7] 4) [EvDestroy 8]). reflexivity.
Defined.

(** [a = std::move(b)] twice, with [a = [1, 2]] at address 0 and [b = [3]]
    at address 1. *)
Lemma move_assign_twice_witness :
  0 <> 1 /\
  (<[0 := vec [1; 2] 2]> (<[1 := vec [3] 1]> ∅) : gmap nat (Vector nat)) !! 0
    = Some (vec [1; 2] 2) /\
  (<[0 := vec [1; 2] 2]> (<[1 := vec [3] 1]> ∅) : gmap nat (Vector nat)) !! 1
    = Some (vec [3] 1) /\
  exists st1,
    move_assign 0 1 (<[0 := vec [1; 2] 2]> (<[1 := vec [3] 1]> ∅)) = Ok tt st1 [] /\
    move_assign 0 1 st1 = Ok tt (<[0 := vec [1; 2] 2]> (<[1 := vec [3] 1]> ∅)) [].
Proof.
  split; [discriminate|]. split; [reflexivity|]. split; [reflexivity|].
  destruct (@move_assign_twice nat (<[0 := vec [1; 2] 2]> (<[1 := vec [3] 1]> ∅))
              0 1 (vec [1; 2] 2) (vec [3] 1))
    as (st1 & Hrun & _ & _ & _ & Hback); [discriminate|reflexivity|reflexivity|].
  exists st1. split; [exact Hrun|exact Hback].
Defined.

(** The invariant after [Resize(3)] on [7, 8]; and after [Reserve(65)] on
    [7] for elements of four bytes where [size_t] has eight bits: the
    request is for four bytes, the call returns with capacity 65 and a block
    of one slot. *)
Lemma invariant_on_return_witness :
  invariant (vec [7; 8] 4) = true /\
  @Resize nat Plain Unbounded 3 (vec [7; 8] 4)
    = Ok tt (vec [7; 8; 0] 4) [EvValueInit 0] /\
  invariant (vec [7; 8; 0] 4) = true /\
  invariant (vec [7] 1) = true /\
  @Reserve nat Plain (SizeT 8 4) 65 (vec [7] 1)
    = Ok tt (vec_in [7] 1 65)
        [EvAllocate 65; EvMoveCtor 7; EvDestroy 7; EvDeallocate []] /\
  invariant (vec_in [7] 1 65) = false.
Proof.
  split; [reflexivity|]. split; [reflexivity|].
  destruct (@invariant_on_return nat Plain Unbounded (vec [7; 8] 4) eq_refl)
    as (_ & _ & _ & _ & _ & _ & _ & _ & _ & _ & _ & Hresize).
  split; [apply (Hresize 3 (vec [7; 8; 0] 4) [EvValueInit 0]); reflexivity|].
  split; [reflexivity|]. split; [reflexivity|].
  destruct (@invariant_on_return nat Plain (SizeT 8 4) (vec [7] 1) eq_refl)
    as (_ & _ & _ & _ & _ & _ & _ & _ & _ & _ & Hreserve & _).
  apply (Hreserve 65 (vec_in [7] 1 65)
           [EvAllocate 65; EvMoveCtor 7; EvDestroy 7; EvDeallocate []]).
  reflexivity.
Defined.

(** The exits of the operations on the full vector [1, 13] of [Obj]; and
    of [Reserve(65)] on [7] where the request wraps. *)
Lemma invariant_at_every_exit_witness :
  invariant (vec [1; 13] 2) = true /\
  args_valid (ByValue 3) (vec [1; 13] 2) = true /\
  @wraps Unbounded (grown (size_ (vec [1; 13] 2)) (Capacity (vec [1; 13] 2)))
    = false /\
  is_Throw (@EmplaceBack nat Obj Unbounded (ByValue 3) (vec [1; 13] 2)) = true /\
  safe_exit (@EmplaceBack nat Obj Unbounded (ByValue 3) (vec [1; 13] 2)) = true /\
  @wraps (SizeT 8 4) 65 = true /\
  safe_exit (@Reserve nat Plain (SizeT 8 4) 65 (vec [7] 1)) = false.
Proof.
  split; [reflexivity|]. split; [reflexivity|]. split; [reflexivity|].
  split; [reflexivity|].
  destruct (@invariant_at_every_exit nat Obj Unbounded (vec [1; 13] 2) (ByValue 3) 0 0
              eq_refl eq_refl) as (_ & _ & Hexit & _).
  split; [apply Hexit; reflexivity|]. split; [reflexivity|].
  destruct (@invariant_at_every_exit nat Plain (SizeT 8 4) (vec [7] 1) (ByValue 3) 0 65
              eq_refl eq_refl) as (_ & _ & _ & _ & _ & _ & Hwrap).
  apply Hwrap; [cbn; lia|reflexivity|reflexivity].
Defined.

(** An in-place insert at position 1 of [1, 2, 3] whose constructor
    throws. *)
Lemma in_place_insert_failure_witness :
  length ([1] ++ [2] ++ [3]) < 4 /\
  @move_ctor_throws nat Obj 3 = false /\
  @shift_ok nat Obj (@moved_from nat Obj 3) (reverse [2]) = true /\
  @Emplace nat Obj Unbounded (length [1]) Throwing (vec ([1] ++ [2] ++ [3]) 4)
    = Throw {| data_ := {| buffer_ := [Live 1; Live 0; Live 2; Live 3];
                           capacity_ := 4 |};
               size_ := 3 |}
        [EvMoveCtor 3; EvMoveAssign 0 2] /\
  invariant {| data_ := {| buffer_ := [Live 1; Live 0; Live 2; Live 3];
                           capacity_ := 4 |};
               size_ := 3 |} = false.
Proof.
  split; [cbn; lia|]. split; [reflexivity|]. split; [reflexivity|].
  split; [reflexivity|].
  apply (@in_place_insert_failure nat Obj Unbounded Throwing [1] [2] 3 4
           {| data_ := {| buffer_ := [Live 1; Live 0; Live 2; Live 3];
                          capacity_ := 4 |};
              size_ := 3 |}
           [EvMoveCtor 3; EvMoveAssign 0 2]);
    [cbn; lia|reflexivity|reflexivity|reflexivity].
Defined.
